(** * UT-Scholar-Crawler: the graph embedding engine of [Embedding.py]

    A shallow embedding of the script [src/Embedding.py] (with the constants
    of [src/Tools.py]) and the properties of its diffusion loop, its vector
    initialisation, its export and its edge sparsification.

    Numbers.  The script computes with numpy floating point arrays.  The
    model idealises a finite float as a real number and keeps numpy's
    not-a-number as a separate value [NaN]: a division of zero by zero
    (the norm of an all-zero sample, the mean of an empty array) yields
    [NaN], and [NaN] propagates through every operation, as in numpy.
    Rounding, overflow and the float32/float64 distinction of the buffers
    are outside the model.

    Dictionaries.  A Python dict keeps its keys in insertion order, and the
    script relies on that order (the rows handed to the projection follow
    the dict, the edge loops look rows up by position in [Node_IDs]), so a
    dict is an association list with distinct keys in insertion order.

    Exceptions.  A dict lookup of an absent key raises [KeyError];
    [list.index] of an absent value raises [ValueError]; the external
    projection may raise.  Fallible code returns a [result]. *)

From Stdlib Require Import Reals Lra Lia List ZArith Bool Permutation.
From Stdlib Require String Ascii.
Import String.StringSyntax Ascii.AsciiSyntax.
Import ListNotations.

Delimit Scope string_scope with string.
Delimit Scope char_scope with char.

Open Scope R_scope.

(** ** Constants of [Tools.py] *)

Module Tools.

Definition SEED : Z := 0%Z.
Definition EMBEDDING_SIZE : nat := 32%nat.
Definition ITERATION_COUNT : nat := 100%nat.
Definition EPSILON : R := 1 / 100.

End Tools.

(** ** Numbers: reals and numpy's nan *)

Inductive num : Type :=
| Fin (r : R)
| NaN.

Definition nadd (a b : num) : num :=
  match a, b with
  | Fin x, Fin y => Fin (x + y)
  | _, _ => NaN
  end.

Definition nsub (a b : num) : num :=
  match a, b with
  | Fin x, Fin y => Fin (x - y)
  | _, _ => NaN
  end.

Definition nmul (a b : num) : num :=
  match a, b with
  | Fin x, Fin y => Fin (x * y)
  | _, _ => NaN
  end.

Definition nabs (a : num) : num :=
  match a with
  | Fin x => Fin (Rabs x)
  | NaN => NaN
  end.

(** Division.  A zero divisor gives [NaN]: every division of the script
    whose divisor can be zero has a zero dividend then (a sample divided by
    its own norm, a sum of no terms divided by their count), and numpy
    returns nan for [0/0].  The divisor [norm + EPSILON] of the diffusion loop
    is positive. *)
Definition ndiv (a b : num) : num :=
  match a, b with
  | Fin x, Fin y => if Req_dec_T y 0 then NaN else Fin (x / y)
  | _, _ => NaN
  end.

Definition nsqrt (a : num) : num :=
  match a with
  | Fin x => if Rlt_dec x 0 then NaN else Fin (sqrt x)
  | NaN => NaN
  end.

(** [a <= b] of numpy scalars: false as soon as one side is nan. *)
Definition nle (a b : num) : bool :=
  match a, b with
  | Fin x, Fin y => if Rle_dec x y then true else false
  | _, _ => false
  end.

Definition is_fin (a : num) : Prop :=
  match a with Fin _ => True | NaN => False end.

(** ** Vectors: one-dimensional numpy arrays *)

Definition vec : Type := list num.

(** Elementwise combination of two arrays of one shape.  All arrays of the
    script have shape [(EMBEDDING_SIZE,)]. *)
Fixpoint zip_with (f : num -> num -> num) (u v : vec) : vec :=
  match u, v with
  | x :: u', y :: v' => f x y :: zip_with f u' v'
  | _, _ => []
  end.

Definition vadd : vec -> vec -> vec := zip_with nadd.
Definition np_subtract : vec -> vec -> vec := zip_with nsub.
Definition np_abs (v : vec) : vec := map nabs v.

(** [np.zeros(shape=(d,))] *)
Definition np_zeros (d : nat) : vec := repeat (Fin 0) d.

(** Sum of the entries, the reduction behind [np.mean] and [np.linalg.norm]. *)
Definition np_sum (v : vec) : num := fold_right nadd (Fin 0) v.

(** [np.mean(a)]: the sum over the count; nan for an empty array. *)
Definition np_mean (v : vec) : num := ndiv (np_sum v) (Fin (INR (length v))).

(** [np.linalg.norm(x, ord=2)] of a one-dimensional array. *)
Definition norm (v : vec) : num := nsqrt (np_sum (map (fun x => nmul x x) v)).

(** [v / s] for an array [v] and a scalar [s]. *)
Definition vdiv (v : vec) (s : num) : vec := map (fun x => ndiv x s) v.

Definition all_fin (v : vec) : Prop := Forall is_fin v.

(** ** Exceptions *)

Inductive exn : Type :=
| KeyError (k : Z)
| ValueError (k : Z)
| IndexError (i : Z)
| ProjectionError.

Inductive result (A : Type) : Type :=
| Ok (a : A)
| Raise (e : exn).

Arguments Ok {A} a.
Arguments Raise {A} e.

Definition bind {A B : Type} (c : result A) (f : A -> result B) : result B :=
  match c with
  | Ok a => f a
  | Raise e => Raise e
  end.

Notation "x <- c ;; k" := (bind c (fun x => k))
  (at level 61, c at next level, right associativity).

(** ** Dictionaries *)

Definition dict (V : Type) : Type := list (Z * V).

Fixpoint dict_get {V : Type} (m : dict V) (k : Z) : option V :=
  match m with
  | [] => None
  | (k', v) :: m' => if Z.eqb k k' then Some v else dict_get m' k
  end.

(** [m[k] = v]: an existing key keeps its place, a new key goes last. *)
Fixpoint dict_set {V : Type} (m : dict V) (k : Z) (v : V) : dict V :=
  match m with
  | [] => [(k, v)]
  | (k', v') :: m' =>
      if Z.eqb k k' then (k', v) :: m' else (k', v') :: dict_set m' k v
  end.

Definition keys {V : Type} (m : dict V) : list Z := map fst m.

(** [m[k]] as an expression: [KeyError] on an absent key. *)
Definition lookup {V : Type} (m : dict V) (k : Z) : result V :=
  match dict_get m k with
  | Some v => Ok v
  | None => Raise (KeyError k)
  end.

(** ** The graph as loaded from the aggregated JSON files

    [Node_IDs] is [list(map(int, Nodes.keys()))].  [Edges] maps a node ID
    (the JSON key, read through [int]) to the list of node IDs stored under
    it. *)

Definition edges : Type := list (Z * list Z).

(** The pairs [(Node_ID_A, Node_ID_B)] in the order the nested loops of the
    script visit them. *)
Definition edge_pairs (Edges : edges) : list (Z * Z) :=
  flat_map (fun '(A, Bs) => map (fun B => (A, B)) Bs) Edges.

(** ** Vector initialisation (lines 12 to 19)

    The random generator is an explicit input: [draws k i] is component [i]
    of the [k]-th array returned by [np.random.uniform]. *)

Definition uniform (d : nat) (draws : nat -> nat -> R) (k : nat) : vec :=
  map (fun i => Fin (draws k i)) (seq 0 d).

(** [Embedding / np.linalg.norm(x=Embedding, ord=2)] *)
Definition unit_scale (Embedding : vec) : vec := vdiv Embedding (norm Embedding).

Fixpoint initialize_from (d : nat) (draws : nat -> nat -> R) (k : nat)
  (ids : list Z) (m : dict vec) : dict vec :=
  match ids with
  | [] => m
  | Node_ID :: ids' =>
      initialize_from d draws (S k) ids'
        (dict_set m Node_ID (unit_scale (uniform d draws k)))
  end.

Definition initialize (d : nat) (draws : nat -> nat -> R) (Node_IDs : list Z)
  : dict vec :=
  initialize_from d draws 0 Node_IDs [].

(** Line 21: the dict comprehension building the accumulation buffers. *)
Definition zero_buffers (d : nat) (Node_IDs : list Z) : dict vec :=
  fold_left (fun m Node_ID => dict_set m Node_ID (np_zeros d)) Node_IDs [].

(** ** The diffusion loop (lines 23 to 40) *)

Record state : Type := mkState {
  Node_ID_2_Embedding : dict vec;
  Node_ID_2_Embedding_Temp : dict vec;
  Losses : list num
}.

(** Lines 30 and 31 for one pair.  [t[a] += e[b]] reads [t[a]], then
    [e[b]], adds in place and stores the array back under [a]. *)
Definition add_pair (Emb : dict vec) (A B : Z) (Temp : dict vec)
  : result (dict vec) :=
  tA <- lookup Temp A ;;
  eB <- lookup Emb B ;;
  let Temp1 := dict_set Temp A (vadd tA eB) in
  tB <- lookup Temp1 B ;;
  eA <- lookup Emb A ;;
  Ok (dict_set Temp1 B (vadd tB eA)).

Fixpoint add_neighbours (Emb : dict vec) (A : Z) (Bs : list Z)
  (Temp : dict vec) : result (dict vec) :=
  match Bs with
  | [] => Ok Temp
  | B :: Bs' => Temp' <- add_pair Emb A B Temp ;; add_neighbours Emb A Bs' Temp'
  end.

(** Lines 27 to 31: the accumulation pass over all stored edges. *)
Fixpoint accumulate (Emb : dict vec) (Edges : edges) (Temp : dict vec)
  : result (dict vec) :=
  match Edges with
  | [] => Ok Temp
  | (A, Bs) :: Edges' =>
      Temp' <- add_neighbours Emb A Bs Temp ;; accumulate Emb Edges' Temp'
  end.

(** Line 32: [v / (np.linalg.norm(x=v, ord=2) + EPSILON)]. *)
Definition rescale (eps : R) (v : vec) : vec :=
  vdiv v (nadd (norm v) (Fin eps)).

Definition renormalize (eps : R) (Temp : dict vec) : dict vec :=
  map (fun '(k, v) => (k, rescale eps v)) Temp.

(** Line 36: [np.mean(np.abs(np.subtract(v, v_new)))]. *)
Definition node_loss (v v_new : vec) : num :=
  np_mean (np_abs (np_subtract v v_new)).

(** Lines 33 to 36: the per-node mean absolute change. *)
Fixpoint node_losses (Emb New : dict vec) : result (list num) :=
  match Emb with
  | [] => Ok []
  | (k, v) :: Emb' =>
      v_new <- lookup New k ;;
      rest <- node_losses Emb' New ;;
      Ok (node_loss v v_new :: rest)
  end.

(** One pass of the loop body.  The buffers are the ones left by the
    previous pass: the script creates them once, before the loop. *)
Definition iteration (eps : R) (Edges : edges) (st : state) : result state :=
  Temp <- accumulate (Node_ID_2_Embedding st) Edges (Node_ID_2_Embedding_Temp st) ;;
  let New := renormalize eps Temp in
  Loss <- node_losses (Node_ID_2_Embedding st) New ;;
  Ok (mkState New Temp (Losses st ++ [np_mean Loss])).

Fixpoint iterate (eps : R) (Edges : edges) (n : nat) (st : state)
  : result state :=
  match n with
  | O => Ok st
  | S n' => st' <- iteration eps Edges st ;; iterate eps Edges n' st'
  end.

(** The state when the loop is entered. *)
Definition initial_state (d : nat) (draws : nat -> nat -> R)
  (Node_IDs : list Z) : state :=
  mkState (initialize d draws Node_IDs) (zero_buffers d Node_IDs) [].

(** Lines 9 to 40 with the dimension, the iteration count and epsilon as
    parameters. *)
Definition diffuse (d n : nat) (eps : R) (draws : nat -> nat -> R)
  (Node_IDs : list Z) (Edges : edges) : result state :=
  iterate eps Edges n (initial_state d draws Node_IDs).

(** The script itself: the constants of [Tools.py]. *)
Definition Embedding_py_diffusion (draws : nat -> nat -> R)
  (Node_IDs : list Z) (Edges : edges) : result state :=
  diffuse Tools.EMBEDDING_SIZE Tools.ITERATION_COUNT Tools.EPSILON
    draws Node_IDs Edges.

(** ** After the loop: export, projection and sparsification (lines 42 to 101)

    The observable effects of the script are recorded in order.  The
    projection [man.TSNE(...).fit_transform] and [np.percentile] belong to
    external libraries and are parameters of the model; the projection may
    raise. *)

Definition point : Type := (R * R)%type.

Inductive event : Type :=
| Write_Node_Embeddings (embeddings_to_save : dict vec)
| Plot_Losses (Iterations : list nat) (Losses : list num)
| Plot_Line (Xs Ys : list R)
| Scatter (Embeddings_2D : list point).

(** [Node_IDs.index(x)]: the first position of [x], or [ValueError]. *)
Fixpoint index (l : list Z) (x : Z) : result nat :=
  match l with
  | [] => Raise (ValueError x)
  | y :: l' => if Z.eqb x y then Ok O else i <- index l' x ;; Ok (S i)
  end.

(** [Embeddings_2D[i, :]] *)
Definition row (Embeddings_2D : list point) (i : nat) : result point :=
  match nth_error Embeddings_2D i with
  | Some p => Ok p
  | None => Raise (IndexError (Z.of_nat i))
  end.

Definition node_point (Node_IDs : list Z) (Embeddings_2D : list point)
  (Node_ID : Z) : result point :=
  i <- index Node_IDs Node_ID ;; row Embeddings_2D i.

(** [np.linalg.norm(x=np.subtract(a, b), ord=2)] of two projected points. *)
Definition length_2D (a b : point) : R :=
  sqrt ((fst a - fst b) * (fst a - fst b) + (snd a - snd b) * (snd a - snd b)).

(** An edge as the two loops over [Edges] see it: its stored endpoints and
    their projected points. *)
Record segment : Type := mkSegment {
  seg_A : Z;
  seg_B : Z;
  seg_point_A : point;
  seg_point_B : point
}.

Definition Length (s : segment) : R := length_2D (seg_point_A s) (seg_point_B s).

Fixpoint segments_from (Node_IDs : list Z) (Embeddings_2D : list point)
  (A : Z) (pA : point) (Bs : list Z) : result (list segment) :=
  match Bs with
  | [] => Ok []
  | B :: Bs' =>
      pB <- node_point Node_IDs Embeddings_2D B ;;
      rest <- segments_from Node_IDs Embeddings_2D A pA Bs' ;;
      Ok (mkSegment A B pA pB :: rest)
  end.

(** The traversal shared by the loop of lines 73 to 81 and the loop of
    lines 85 to 96. *)
Fixpoint segments (Node_IDs : list Z) (Embeddings_2D : list point)
  (Edges : edges) : result (list segment) :=
  match Edges with
  | [] => Ok []
  | (A, Bs) :: Edges' =>
      pA <- node_point Node_IDs Embeddings_2D A ;;
      here <- segments_from Node_IDs Embeddings_2D A pA Bs ;;
      rest <- segments Node_IDs Embeddings_2D Edges' ;;
      Ok (here ++ rest)
  end.

(** Line 93: the test deciding whether an edge is drawn. *)
Definition keeps (Length_2D_Threshold : num) (s : segment) : bool :=
  nle (Fin (Length s)) Length_2D_Threshold.

Definition plot_line (s : segment) : event :=
  Plot_Line [fst (seg_point_A s); fst (seg_point_B s)]
            [snd (seg_point_A s); snd (seg_point_B s)].

Section Script.

(** [np.percentile(a, q)] on data that is not empty. *)
Variable percentile : list R -> R -> num.

(** [np.percentile(a, q)]: on an empty array numpy looks at the last
    element of the sorted data and raises [IndexError] for index -1. *)
Definition np_percentile (a : list R) (q : R) : result num :=
  match a with
  | [] => Raise (IndexError (-1))
  | _ :: _ => Ok (percentile a q)
  end.

(** [PCA.fit_transform(X)] on the rows of the embedding dict. *)
Variable fit_transform : list vec -> result (list point).

(** Lines 72 to 83. *)
Definition Length_2D_Threshold (segs : list segment) : result num :=
  np_percentile (map Length segs) 90.

(** The edges the second loop draws, given the threshold. *)
Definition retained (Threshold : num) (segs : list segment) : list segment :=
  filter (keeps Threshold) segs.

(** Lines 61 to 101, from the embeddings the loop left. *)
Definition visualize (Node_IDs : list Z) (Edges : edges) (Emb : dict vec)
  : list event * result unit :=
  match fit_transform (map snd Emb) with
  | Raise e => ([], Raise e)
  | Ok Embeddings_2D =>
      match segments Node_IDs Embeddings_2D Edges with
      | Raise e => ([], Raise e)
      | Ok segs =>
          match Length_2D_Threshold segs with
          | Raise e => ([], Raise e)
          | Ok Threshold =>
              (map plot_line (retained Threshold segs)
                 ++ [Scatter Embeddings_2D], Ok tt)
          end
      end
  end.

(** Lines 42 to 59: the export and the loss plot. *)
Definition export (n : nat) (st : state) : list event :=
  [Write_Node_Embeddings (Node_ID_2_Embedding st);
   Plot_Losses (seq 1 n) (Losses st)].

(** The whole script: its effects in order, and how it ends. *)
Definition Embedding_py (d n : nat) (eps : R) (draws : nat -> nat -> R)
  (Node_IDs : list Z) (Edges : edges) : list event * result unit :=
  match diffuse d n eps draws Node_IDs Edges with
  | Raise e => ([], Raise e)
  | Ok st =>
      let '(drawn, outcome) :=
        visualize Node_IDs Edges (Node_ID_2_Embedding st) in
      (export n st ++ drawn, outcome)
  end.

End Script.


(** ** Auxiliary notions for the statements

    Sums over lists of reals, for arrays without nan. *)

Definition sum_sq (l : list R) : R := fold_right (fun x acc => x * x + acc) 0 l.
Definition Rsum (l : list R) : R := fold_right Rplus 0 l.

(** The accumulation pass over a flat list of pairs. *)
Fixpoint accumulate_pairs (Emb : dict vec) (ps : list (Z * Z))
  (Temp : dict vec) : result (dict vec) :=
  match ps with
  | [] => Ok Temp
  | (A, B) :: ps' => Temp' <- add_pair Emb A B Temp ;; accumulate_pairs Emb ps' Temp'
  end.

(** The nodes whose vectors a pass adds to the buffer of [k], in the order
    they are added: [B] for a pair [(k, B)], [A] for a pair [(A, k)]. *)
Definition partners (ps : list (Z * Z)) (k : Z) : list Z :=
  flat_map (fun '(A, B) =>
              (if Z.eqb k A then [B] else []) ++ (if Z.eqb k B then [A] else []))
           ps.

Definition emb_at (Emb : dict vec) (k : Z) : vec :=
  match dict_get Emb k with
  | Some v => v
  | None => []
  end.

(** The buffer [v] of node [k] after a pass over [ps]. *)
Definition received (Emb : dict vec) (ps : list (Z * Z)) (k : Z) (v : vec) : vec :=
  fold_left vadd (map (emb_at Emb) (partners ps k)) v.

(** Every endpoint of every stored edge is a node. *)
Definition endpoints_in (ks : list Z) (ps : list (Z * Z)) : Prop :=
  forall A B, In (A, B) ps -> In A ks /\ In B ks.

(** The invariant of the loop: the vectors and the buffers have the same
    distinct keys. *)
Definition consistent (st : state) : Prop :=
  keys (Node_ID_2_Embedding st) = keys (Node_ID_2_Embedding_Temp st)
  /\ NoDup (keys (Node_ID_2_Embedding_Temp st)).

(** The list [Loss] of one pass, given the old and the new vectors. *)
Definition loss_list (Emb New : dict vec) : list num :=
  map (fun '(k, v) => node_loss v (emb_at New k)) Emb.

(** Two listings of one undirected graph: the same edges, each stored under
    either endpoint, in any order. *)
Inductive same_edges : list (Z * Z) -> list (Z * Z) -> Prop :=
| same_nil : same_edges [] []
| same_keep (p : Z * Z) (l l' : list (Z * Z)) :
    same_edges l l' -> same_edges (p :: l) (p :: l')
| same_flip (A B : Z) (l l' : list (Z * Z)) :
    same_edges l l' -> same_edges ((A, B) :: l) ((B, A) :: l')
| same_swap (p q : Z * Z) (l : list (Z * Z)) :
    same_edges (p :: q :: l) (q :: p :: l)
| same_trans (l1 l2 l3 : list (Z * Z)) :
    same_edges l1 l2 -> same_edges l2 l3 -> same_edges l1 l3.

(** An array of shape [(d,)] without nan. *)
Definition shaped (d : nat) (v : vec) : Prop := length v = d /\ all_fin v.

Definition shaped_dict (d : nat) (m : dict vec) : Prop :=
  forall k v, dict_get m k = Some v -> shaped d v.

(** A number that is a non-negative real, a positive real. *)
Definition nonneg (x : num) : Prop := exists r, x = Fin r /\ 0 <= r.
Definition positive (x : num) : Prop := exists r, x = Fin r /\ 0 < r.

(** Every value of a dict satisfies [P]. *)
Definition all_values (P : vec -> Prop) (m : dict vec) : Prop :=
  forall k v, dict_get m k = Some v -> P v.

(** None of the first [n] samples is all zero: the divisor of line 18 is
    not zero. *)
Definition nonzero_samples (d : nat) (draws : nat -> nat -> R) (n : nat) : Prop :=
  forall k, (k < n)%nat -> norm (uniform d draws k) <> Fin 0.

(** A generator whose every draw is zero, and one whose every draw is one
    half. *)
Definition zero_draws : nat -> nat -> R := fun _ _ => 0.
Definition half_draws : nat -> nat -> R := fun _ _ => 1 / 2.

(** * The aggregation script [Aggregator.py]

    The script merges the per-teacher network files into one node dict and
    one edge dict, and counts each teacher's publications per year and
    language.  Node IDs are integers: the script reads them through [int].
    Names are strings. *)

(** ** Strings: [str.split] and [str.join] with a one-character separator *)

(** [s.split(sep=c)]: the pieces between the occurrences of [c], empty
    pieces included; one empty piece for the empty string. *)
Fixpoint split (c : Ascii.ascii) (s : String.string) : list String.string :=
  match s with
  | String.EmptyString => [String.EmptyString]
  | String.String a s' =>
      if Ascii.eqb a c then String.EmptyString :: split c s'
      else match split c s' with
           | [] => [String.String a String.EmptyString]
           | piece :: rest => String.String a piece :: rest
           end
  end.

(** [c.join(parts)] *)
Fixpoint join (c : Ascii.ascii) (parts : list String.string) : String.string :=
  match parts with
  | [] => String.EmptyString
  | [p] => p
  | p :: rest => String.append p (String.String c (join c rest))
  end.

(** [c in s] for a character [c]. *)
Fixpoint contains (c : Ascii.ascii) (s : String.string) : bool :=
  match s with
  | String.EmptyString => false
  | String.String a s' => Ascii.eqb a c || contains c s'
  end.

(** ** The network data of one teacher *)

Record Node_json : Type := mkNode {
  node_id : Z;
  node_name : String.string;
  node_family : String.string
}.

Record Edge_json : Type := mkEdge {
  edge_from : Z;
  edge_to : Z
}.

Record Network_Data : Type := mkNetwork {
  net_nodes : list Node_json;
  net_edges : list Edge_json
}.

Record Cleaned_Node : Type := mkCleaned {
  Name : String.string;
  Family : String.string
}.

(** [k in m] for a dict [m]. *)
Definition has_key {V : Type} (m : dict V) (k : Z) : bool :=
  match dict_get m k with
  | Some _ => true
  | None => false
  end.

(** Line 56: [family.split(sep='.')[-1]]. *)
Definition clean_family (family : String.string) : String.string :=
  last (split "."%char family) String.EmptyString.

(** Lines 52 to 57 for one node: the first record of a node is kept. *)
Definition add_Node (Aggregated_Nodes : dict Cleaned_Node) (Node : Node_json)
  : dict Cleaned_Node :=
  if has_key Aggregated_Nodes (node_id Node) then Aggregated_Nodes
  else dict_set Aggregated_Nodes (node_id Node)
         (mkCleaned (node_name Node) (clean_family (node_family Node))).

(** Lines 60 to 64 for one edge: [sorted] puts the smaller ID first; the
    edge goes under it unless it is there already. *)
Definition add_Edge (Aggregated_Edges : dict (list Z)) (Edge : Edge_json)
  : dict (list Z) :=
  let Node_1 := Z.min (edge_from Edge) (edge_to Edge) in
  let Node_2 := Z.max (edge_from Edge) (edge_to Edge) in
  let Edges1 :=
    if has_key Aggregated_Edges Node_1 then Aggregated_Edges
    else dict_set Aggregated_Edges Node_1 [] in
  match dict_get Edges1 Node_1 with
  | Some Bs =>
      if existsb (Z.eqb Node_2) Bs then Edges1
      else dict_set Edges1 Node_1 (Bs ++ [Node_2])
  | None => Edges1
  end.

(** Lines 50 to 64 for one teacher: a network without edges adds
    nothing, not even its nodes. *)
Definition aggregate_network (acc : dict Cleaned_Node * dict (list Z))
  (Teacher_Network_Data : Network_Data) : dict Cleaned_Node * dict (list Z) :=
  if (0 <? length (net_edges Teacher_Network_Data))%nat then
    (fold_left add_Node (net_nodes Teacher_Network_Data) (fst acc),
     fold_left add_Edge (net_edges Teacher_Network_Data) (snd acc))
  else acc.

(** The node dict and the edge dict after the loop over all teachers. *)
Definition aggregate (networks : list Network_Data)
  : dict Cleaned_Node * dict (list Z) :=
  fold_left aggregate_network networks ([], []).

Definition Aggregated_Nodes (networks : list Network_Data) : dict Cleaned_Node :=
  fst (aggregate networks).

Definition Aggregated_Edges (networks : list Network_Data) : dict (list Z) :=
  snd (aggregate networks).

(** All edges of all networks, in the order the script reads them. *)
Definition all_edges (networks : list Network_Data) : list Edge_json :=
  flat_map net_edges networks.

(** The invariant of the edge dict: distinct keys; under each key a
    non-empty list without repetition of IDs not below the key. *)
Definition canonical (Edges : dict (list Z)) : Prop :=
  NoDup (keys Edges)
  /\ forall A Bs, dict_get Edges A = Some Bs ->
        Bs <> [] /\ NoDup Bs /\ forall B, In B Bs -> (A <= B)%Z.

(** [B] is listed under [A]. *)
Definition stored (Edges : dict (list Z)) (A B : Z) : Prop :=
  exists Bs, dict_get Edges A = Some Bs /\ In B Bs.

(** * File paths of [Tools.py] *)

(** The argument [Create_Parent_Directory] hands to [os.makedirs]: the
    path without its last part when that part contains a dot, the whole path
    otherwise. *)
Definition dir_path (file_path : String.string) : String.string :=
  let parts := split "/"%char file_path in
  let last_part := last parts String.EmptyString in
  let parts := if contains "."%char last_part then removelast parts else parts in
  join "/"%char parts.

(** * The publication counts of [Aggregator.py] (lines 30 to 46)

    A publication is its year ([group]) and its language ([lang]). *)

Record Grouped_Count : Type := mkCount {
  Persian : dict nat;
  Foreign : dict nat
}.

(** [list(range(lo, hi))] *)
Definition range (lo hi : Z) : list Z :=
  map (fun i => (lo + Z.of_nat i)%Z) (seq 0 (Z.to_nat (hi - lo))).

(** [{Year: 0 for Year in Year_Range}] *)
Definition zero_counts (Year_Range : list Z) : dict nat :=
  fold_left (fun m Year => dict_set m Year 0%nat) Year_Range [].

(** [m[Year] += 1] *)
Definition increment (m : dict nat) (Year : Z) : result (dict nat) :=
  c <- lookup m Year ;; Ok (dict_set m Year (c + 1)%nat).

(** Lines 42 to 44 for one publication. *)
Definition count_publication (counts : Grouped_Count)
  (Year_Language : Z * String.string) : result Grouped_Count :=
  let Year := fst Year_Language in
  if String.eqb (snd Year_Language) "persian" then
    m <- increment (Persian counts) Year ;; Ok (mkCount m (Foreign counts))
  else
    m <- increment (Foreign counts) Year ;; Ok (mkCount (Persian counts) m).

Fixpoint count_publications (counts : Grouped_Count)
  (Year_Languages : list (Z * String.string)) : result Grouped_Count :=
  match Year_Languages with
  | [] => Ok counts
  | Year_Language :: rest =>
      counts' <- count_publication counts Year_Language ;;
      count_publications counts' rest
  end.

(** Lines 32 to 44. *)
Definition Year_Language_Grouped_Count
  (Year_Languages : list (Z * String.string)) : result Grouped_Count :=
  match map fst Year_Languages with
  | [] => Ok (mkCount [] [])
  | y :: ys =>
      let Min_Year := fold_left Z.min ys y in
      let Max_Year := fold_left Z.max ys y in
      let Year_Range := range Min_Year (Max_Year + 1) in
      count_publications
        (mkCount (zero_counts Year_Range) (zero_counts Year_Range))
        Year_Languages
  end.

(** The number of publications of year [y] that are Persian
    ([persian = true]) or not. *)
Definition published (persian : bool) (y : Z)
  (Year_Languages : list (Z * String.string)) : nat :=
  length (filter (fun yl => Z.eqb (fst yl) y
                            && Bool.eqb (String.eqb (snd yl) "persian") persian)
            Year_Languages).

Definition total (m : dict nat) : nat := list_sum (map snd m).

(** * The paginated crawl of [Tools.py] ([Get_Teachers])

    The portal is a parameter: [Get_Page_Teachers page] is what the request
    for a page returns, the pair [(total, teachers)] or an error.  The
    [while] loop runs on fuel; [None] means the fuel ran out. *)

Inductive crawl_error : Type :=
| ZeroDivisionError
| OverflowError
| RequestError.

Inductive attempt (A : Type) : Type :=
| Done (a : A)
| Failed (e : crawl_error).

Arguments Done {A} a.
Arguments Failed {A} e.

(** The ceiling of [total / per_page] for a positive [per_page], in exact
    arithmetic. *)
Definition ceil_div (total per_page : Z) : Z := (- ((- total) / per_page))%Z.

(** The integers that float64 holds exactly. *)
Definition exact_float (z : Z) : bool := (Z.abs z <? 2 ^ 53)%Z.

Section Crawl.

Variable teacher : Type.
Variable Get_Page_Teachers : Z -> attempt (Z * list teacher).

(** What [mt.ceil(total / per_page)] gives when [total] is too large for
    float64 to hold exactly: the ceiling of a rounded quotient, or
    [OverflowError] when [total] does not fit a float at all. *)
Variable float_ceil : Z -> Z -> attempt Z.

(** [mt.ceil(total / per_page)] for a positive [per_page].  The division
    is done in float64.  While [total] is below 2^53 in absolute value, the
    rounded quotient lies on the same side of every integer as the exact
    one (its error is below [1 / per_page]), so the ceiling is exact. *)
Definition ceil_quotient (total per_page : Z) : attempt Z :=
  if exact_float total then Done (ceil_div total per_page)
  else float_ceil total per_page.

(** [page <= max_page], where [None] is [mt.inf]. *)
Definition within (page : Z) (max_page : option Z) : bool :=
  match max_page with
  | None => true
  | Some M => (page <=? M)%Z
  end.

(** The [if mt.isinf(max_page)] block: the page count is computed once,
    from the first answer. *)
Definition update_max_page (max_page : option Z) (total : Z)
  (page_teachers : list teacher) : attempt (option Z) :=
  match max_page with
  | None =>
      let per_page := Z.of_nat (length page_teachers) in
      if (per_page =? 0)%Z then Failed ZeroDivisionError
      else match ceil_quotient total per_page with
           | Done M => Done (Some M)
           | Failed e => Failed e
           end
  | Some M => Done (Some M)
  end.

Fixpoint Get_Teachers_loop (fuel : nat) (teachers : list teacher) (page : Z)
  (max_page : option Z) : option (attempt (list teacher)) :=
  match fuel with
  | O => None
  | S fuel' =>
      if within page max_page then
        match Get_Page_Teachers page with
        | Failed e => Some (Failed e)
        | Done (total, page_teachers) =>
            match update_max_page max_page total page_teachers with
            | Failed e => Some (Failed e)
            | Done max_page' =>
                Get_Teachers_loop fuel' (teachers ++ page_teachers)
                  (page + 1)%Z max_page'
            end
        end
      else Some (Done teachers)
  end.

Definition Get_Teachers (fuel : nat) : option (attempt (list teacher)) :=
  Get_Teachers_loop fuel [] 1%Z None.

End Crawl.

Arguments within page max_page : clear implicits.
Arguments update_max_page {teacher} float_ceil max_page total page_teachers.
Arguments Get_Teachers_loop {teacher} Get_Page_Teachers float_ceil
  fuel teachers page max_page.
Arguments Get_Teachers {teacher} Get_Page_Teachers float_ceil fuel.

(** * The percentile of numpy

    [np.percentile(a, q)] with numpy's default method, linear
    interpolation: the data is sorted, the virtual index [q / 100 * (n - 1)]
    is split into its whole part and its fraction, and the result lies
    between the two neighbouring elements.  [q] is a whole percent, as the
    script's 90. *)

Fixpoint Rinsert (x : R) (l : list R) : list R :=
  match l with
  | [] => [x]
  | y :: l' => if Rle_dec x y then x :: y :: l' else y :: Rinsert x l'
  end.

Definition Rsort (l : list R) : list R := fold_right Rinsert [] l.

Definition linear_percentile (a : list R) (q : nat) : R :=
  let sorted := Rsort a in
  let n := length a in
  let h := (q * (n - 1))%nat in
  let previous := (h / 100)%nat in
  let next := Nat.min (previous + 1) (n - 1) in
  let gamma := INR (h mod 100) / 100 in
  nth previous sorted 0 + gamma * (nth next sorted 0 - nth previous sorted 0).
(** * Properties *)

(** ** Arithmetic of [num] and of arrays *)

Lemma nadd_comm (a b : num) : nadd a b = nadd b a.
Proof. destruct a, b; simpl; try reflexivity. f_equal; ring. Qed.

Lemma nadd_assoc (a b c : num) : nadd (nadd a b) c = nadd a (nadd b c).
Proof. destruct a, b, c; simpl; try reflexivity. f_equal; ring. Qed.

Lemma vadd_comm (u v : vec) : vadd u v = vadd v u.
Proof.
  unfold vadd. revert v.
  induction u as [|x u IH]; intros [|y v]; simpl; try reflexivity.
  now rewrite nadd_comm, IH.
Qed.

Lemma vadd_assoc (u v w : vec) : vadd (vadd u v) w = vadd u (vadd v w).
Proof.
  unfold vadd. revert v w.
  induction u as [|x u IH]; intros [|y v] [|z w]; simpl; try reflexivity.
  now rewrite nadd_assoc, IH.
Qed.

Lemma zip_with_length (f : num -> num -> num) (u v : vec) :
  length u = length v -> length (zip_with f u v) = length u.
Proof.
  revert v. induction u as [|x u IH]; intros [|y v] H; simpl in *;
    try reflexivity; try discriminate.
  f_equal. apply IH. now injection H.
Qed.

Lemma vdiv_length (v : vec) (s : num) : length (vdiv v s) = length v.
Proof. unfold vdiv. apply length_map. Qed.

Lemma np_zeros_length (d : nat) : length (np_zeros d) = d.
Proof. unfold np_zeros. apply repeat_length. Qed.

(** Arrays without nan are the images of lists of reals. *)

Lemma all_fin_reals (v : vec) : all_fin v <-> exists l, v = map Fin l.
Proof.
  split.
  - induction 1 as [|x v Hx _ [l ->]].
    + now exists [].
    + destruct x as [r|]; [|contradiction]. now exists (r :: l).
  - intros [l ->]. induction l; constructor; simpl; auto.
Qed.

Lemma sum_sq_nonneg (l : list R) : 0 <= sum_sq l.
Proof. induction l; simpl; [lra | nra]. Qed.

Lemma np_sum_reals (l : list R) : np_sum (map Fin l) = Fin (Rsum l).
Proof.
  unfold np_sum. induction l as [|x l IH]; simpl; [reflexivity|].
  now rewrite IH.
Qed.

Lemma np_sum_squares (l : list R) :
  np_sum (map (fun x => nmul x x) (map Fin l)) = Fin (sum_sq l).
Proof.
  unfold np_sum. induction l as [|x l IH]; simpl; [reflexivity|].
  now rewrite IH.
Qed.

Lemma norm_reals (l : list R) : norm (map Fin l) = Fin (sqrt (sum_sq l)).
Proof.
  unfold norm. rewrite np_sum_squares. simpl.
  destruct (Rlt_dec (sum_sq l) 0) as [H|_]; [|reflexivity].
  pose proof (sum_sq_nonneg l). lra.
Qed.

Lemma vdiv_reals (l : list R) (c : R) :
  c <> 0 -> vdiv (map Fin l) (Fin c) = map Fin (map (fun x => x / c) l).
Proof.
  intros Hc. unfold vdiv. rewrite !map_map. apply map_ext. intros x. simpl.
  destruct (Req_dec_T c 0); [contradiction | reflexivity].
Qed.

Lemma sum_sq_scale (l : list R) (c : R) :
  c <> 0 -> sum_sq (map (fun x => x / c) l) = sum_sq l / (c * c).
Proof.
  intros Hc. induction l as [|x l IH]; simpl.
  - unfold Rdiv. ring.
  - rewrite IH. field. exact Hc.
Qed.

Lemma sum_sq_zero_iff (l : list R) : sum_sq l = 0 <-> Forall (fun x => x = 0) l.
Proof.
  induction l as [|x l IH]; simpl.
  - split; [constructor | reflexivity].
  - pose proof (sum_sq_nonneg l). split.
    + intros H0. constructor; [nra|]. apply IH. nra.
    + intros Hall. inversion Hall as [|? ? Hx Hl]; subst.
      apply IH in Hl. rewrite Hl. ring.
Qed.

(** The norm of [l / c] for a positive [c]. *)
Lemma norm_scale (l : list R) (c : R) :
  0 < c -> sqrt (sum_sq (map (fun x => x / c) l)) = sqrt (sum_sq l) / c.
Proof.
  intros Hc. rewrite sum_sq_scale by lra.
  rewrite sqrt_div_alt by nra.
  rewrite sqrt_square by lra. reflexivity.
Qed.

(** ** Dictionaries *)

Lemma dict_get_some_in {V : Type} (m : dict V) (k : Z) (v : V) :
  dict_get m k = Some v -> In k (keys m).
Proof.
  induction m as [|[k' v'] m IH]; simpl; [discriminate|].
  destruct (Z.eqb_spec k k') as [->|Hne]; intros H; [now left | right; auto].
Qed.

Lemma dict_get_in_some {V : Type} (m : dict V) (k : Z) :
  In k (keys m) -> exists v, dict_get m k = Some v.
Proof.
  induction m as [|[k' v'] m IH]; simpl; [contradiction|].
  intros [->|Hin].
  - rewrite Z.eqb_refl. now exists v'.
  - destruct (Z.eqb k k'); [now exists v' | auto].
Qed.

Lemma dict_get_none {V : Type} (m : dict V) (k : Z) :
  ~ In k (keys m) -> dict_get m k = None.
Proof.
  intros Hn. destruct (dict_get m k) eqn:E; [|reflexivity].
  exfalso. apply Hn. eapply dict_get_some_in; eauto.
Qed.

Lemma dict_get_In {V : Type} (m : dict V) (k : Z) (v : V) :
  dict_get m k = Some v -> In (k, v) m.
Proof.
  induction m as [|[k' v'] m IH]; simpl; [discriminate|].
  destruct (Z.eqb_spec k k') as [->|Hne]; intros H.
  - injection H as ->. now left.
  - right. auto.
Qed.

Lemma In_dict_get {V : Type} (m : dict V) (k : Z) (v : V) :
  NoDup (keys m) -> In (k, v) m -> dict_get m k = Some v.
Proof.
  induction m as [|[k' v'] m IH]; simpl; [contradiction|].
  intros Hnd [Heq|Hin]; inversion Hnd as [|? ? Hni Hnd']; subst.
  - injection Heq as -> ->. now rewrite Z.eqb_refl.
  - destruct (Z.eqb_spec k k') as [->|Hne]; [|auto].
    exfalso. apply Hni. change (In (fst (k', v)) (map fst m)). now apply in_map.
Qed.

Lemma dict_get_set_eq {V : Type} (m : dict V) (k : Z) (v : V) :
  dict_get (dict_set m k v) k = Some v.
Proof.
  induction m as [|[k' v'] m IH]; simpl.
  - now rewrite Z.eqb_refl.
  - destruct (Z.eqb_spec k k') as [->|Hne]; simpl.
    + now rewrite Z.eqb_refl.
    + destruct (Z.eqb_spec k k'); [contradiction | exact IH].
Qed.

Lemma dict_get_set_neq {V : Type} (m : dict V) (k k' : Z) (v : V) :
  k' <> k -> dict_get (dict_set m k v) k' = dict_get m k'.
Proof.
  intros Hne. induction m as [|[k0 v0] m IH]; simpl.
  - destruct (Z.eqb_spec k' k); [contradiction | reflexivity].
  - destruct (Z.eqb_spec k k0) as [->|Hk]; simpl.
    + destruct (Z.eqb_spec k' k0); [contradiction | reflexivity].
    + now rewrite IH.
Qed.

Lemma keys_set_present {V : Type} (m : dict V) (k : Z) (v : V) :
  In k (keys m) -> keys (dict_set m k v) = keys m.
Proof.
  induction m as [|[k' v'] m IH]; simpl; [contradiction|].
  intros Hin. destruct (Z.eqb_spec k k') as [->|Hne]; simpl; [reflexivity|].
  f_equal. apply IH. destruct Hin as [Heq|Hin]; [congruence | exact Hin].
Qed.

Lemma keys_set_absent {V : Type} (m : dict V) (k : Z) (v : V) :
  ~ In k (keys m) -> keys (dict_set m k v) = keys m ++ [k].
Proof.
  induction m as [|[k' v'] m IH]; simpl; [reflexivity|].
  intros Hn. destruct (Z.eqb_spec k k') as [->|Hne]; simpl.
  - exfalso. apply Hn. now left.
  - f_equal. apply IH. intros Hin. apply Hn. now right.
Qed.

(** The keys after an assignment depend on the keys before it only. *)
Lemma keys_set_congr {V W : Type} (m : dict V) (m' : dict W) (k : Z)
  (v : V) (w : W) :
  keys m = keys m' -> keys (dict_set m k v) = keys (dict_set m' k w).
Proof.
  intros Hk. destruct (in_dec Z.eq_dec k (keys m)) as [Hin|Hn].
  - rewrite !keys_set_present; congruence.
  - rewrite !keys_set_absent; congruence.
Qed.

Lemma in_keys_set {V : Type} (m : dict V) (k k' : Z) (v : V) :
  In k' (keys (dict_set m k v)) <-> k' = k \/ In k' (keys m).
Proof.
  destruct (in_dec Z.eq_dec k (keys m)) as [Hin|Hn].
  - rewrite keys_set_present by exact Hin. split; [now right|].
    intros [->|H]; assumption.
  - rewrite keys_set_absent by exact Hn. rewrite in_app_iff. simpl.
    split; [intros [H|[H|[]]]; auto | intros [H|H]; auto].
Qed.

Lemma NoDup_keys_set {V : Type} (m : dict V) (k : Z) (v : V) :
  NoDup (keys m) -> NoDup (keys (dict_set m k v)).
Proof.
  intros Hnd. destruct (in_dec Z.eq_dec k (keys m)) as [Hin|Hn].
  - now rewrite keys_set_present.
  - rewrite keys_set_absent by exact Hn.
    apply NoDup_app; [exact Hnd | repeat constructor; auto |].
    intros x Hx [<-|[]]. contradiction.
Qed.

(** Two dicts with the same distinct keys and the same values are equal. *)
Lemma dict_ext {V : Type} (m m' : dict V) :
  keys m = keys m' -> NoDup (keys m) ->
  (forall k, dict_get m k = dict_get m' k) -> m = m'.
Proof.
  revert m'. induction m as [|[k v] m IH]; intros [|[k' v'] m'] Hk Hnd Hget;
    simpl in Hk; try discriminate; [reflexivity|].
  injection Hk as <- Hk. inversion Hnd as [|? ? Hni Hnd']; subst.
  pose proof (Hget k) as Hkk. simpl in Hkk. rewrite Z.eqb_refl in Hkk.
  injection Hkk as <-. f_equal. apply IH; try assumption.
  intros k0. destruct (Z.eq_dec k0 k) as [->|Hne].
  - rewrite (dict_get_none m k) by exact Hni.
    rewrite (dict_get_none m' k); [reflexivity | now rewrite <- Hk].
  - specialize (Hget k0). simpl in Hget.
    destruct (Z.eqb_spec k0 k); [contradiction | exact Hget].
Qed.

Lemma lookup_ok {V : Type} (m : dict V) (k : Z) (v : V) :
  lookup m k = Ok v <-> dict_get m k = Some v.
Proof.
  unfold lookup. destruct (dict_get m k); split; intros H;
    try discriminate; congruence.
Qed.

Lemma lookup_raise {V : Type} (m : dict V) (k : Z) (e : exn) :
  lookup m k = Raise e -> e = KeyError k /\ ~ In k (keys m).
Proof.
  unfold lookup. destruct (dict_get m k) eqn:E; [discriminate|].
  intros H. injection H as <-. split; [reflexivity|].
  intros Hin. apply dict_get_in_some in Hin as [v Hv]. congruence.
Qed.

(** ** The dicts the loop starts from *)

Lemma keys_initialize_from (d : nat) (draws : nat -> nat -> R) (ids : list Z) :
  forall (k : nat) (m m' : dict vec),
    keys m = keys m' ->
    keys (initialize_from d draws k ids m)
    = keys (fold_left (fun m Node_ID => dict_set m Node_ID (np_zeros d)) ids m').
Proof.
  induction ids as [|id ids IH]; intros k m m' Hk; simpl; [exact Hk|].
  apply IH. now apply keys_set_congr.
Qed.

Lemma keys_initialize (d : nat) (draws : nat -> nat -> R) (Node_IDs : list Z) :
  keys (initialize d draws Node_IDs) = keys (zero_buffers d Node_IDs).
Proof. unfold initialize, zero_buffers. now apply keys_initialize_from. Qed.

Lemma zero_buffers_from (d : nat) (ids : list Z) :
  forall m : dict vec,
    let m' := fold_left (fun m Node_ID => dict_set m Node_ID (np_zeros d)) ids m in
    (NoDup (keys m) -> NoDup (keys m'))
    /\ (forall k, In k (keys m') <-> In k ids \/ In k (keys m))
    /\ ((forall k v, dict_get m k = Some v -> v = np_zeros d) ->
        forall k v, dict_get m' k = Some v -> v = np_zeros d).
Proof.
  induction ids as [|id ids IH]; intros m; simpl.
  - repeat split; auto. intros [[]|H]; exact H.
  - destruct (IH (dict_set m id (np_zeros d))) as (Hnd & Hin & Hz).
    split; [|split].
    + intros H. apply Hnd. now apply NoDup_keys_set.
    + intros k. rewrite Hin, in_keys_set. intuition.
    + intros Hm. apply Hz. intros k v.
      destruct (Z.eq_dec k id) as [->|Hne].
      * rewrite dict_get_set_eq. congruence.
      * rewrite dict_get_set_neq by exact Hne. apply Hm.
Qed.

Lemma zero_buffers_NoDup (d : nat) (Node_IDs : list Z) :
  NoDup (keys (zero_buffers d Node_IDs)).
Proof. apply (zero_buffers_from d Node_IDs []). constructor. Qed.

Lemma zero_buffers_keys (d : nat) (Node_IDs : list Z) (k : Z) :
  In k (keys (zero_buffers d Node_IDs)) <-> In k Node_IDs.
Proof.
  destruct (zero_buffers_from d Node_IDs []) as (_ & Hin & _).
  rewrite Hin. simpl. tauto.
Qed.

Lemma zero_buffers_get (d : nat) (Node_IDs : list Z) (k : Z) (v : vec) :
  dict_get (zero_buffers d Node_IDs) k = Some v -> v = np_zeros d.
Proof.
  destruct (zero_buffers_from d Node_IDs []) as (_ & _ & Hz).
  apply Hz. intros ? ?. discriminate.
Qed.

(** ** The accumulation pass *)

Lemma accumulate_flat (Emb : dict vec) (Edges : edges) :
  forall Temp, accumulate Emb Edges Temp = accumulate_pairs Emb (edge_pairs Edges) Temp.
Proof.
  assert (Hnb : forall A Bs ps Temp,
             accumulate_pairs Emb (map (fun B => (A, B)) Bs ++ ps) Temp
             = (Temp' <- add_neighbours Emb A Bs Temp ;; accumulate_pairs Emb ps Temp')).
  { intros A Bs ps. induction Bs as [|B Bs IH]; intros Temp; simpl; [reflexivity|].
    destruct (add_pair Emb A B Temp); simpl; [apply IH | reflexivity]. }
  induction Edges as [|[A Bs] Edges IH]; intros Temp; simpl; [reflexivity|].
  unfold edge_pairs in *. rewrite Hnb.
  destruct (add_neighbours Emb A Bs Temp); simpl; [apply IH | reflexivity].
Qed.

Lemma received_app (Emb : dict vec) (ps qs : list (Z * Z)) (k : Z) (v : vec) :
  received Emb (ps ++ qs) k v = received Emb qs k (received Emb ps k v).
Proof.
  unfold received, partners. now rewrite flat_map_app, map_app, fold_left_app.
Qed.

Lemma received_cons (Emb : dict vec) (p : Z * Z) (ps : list (Z * Z)) (k : Z)
  (v : vec) :
  received Emb (p :: ps) k v = received Emb ps k (received Emb [p] k v).
Proof. apply (received_app Emb [p] ps). Qed.

Lemma emb_at_get (Emb : dict vec) (k : Z) (v : vec) :
  dict_get Emb k = Some v -> emb_at Emb k = v.
Proof. unfold emb_at. now intros ->. Qed.

(** One pair: both lines succeed exactly when both endpoints are keys, and
    each endpoint's buffer receives the other endpoint's vector. *)
Lemma add_pair_ok (Emb Temp : dict vec) (A B : Z) :
  In A (keys Temp) -> In B (keys Temp) -> In A (keys Emb) -> In B (keys Emb) ->
  exists Temp',
    add_pair Emb A B Temp = Ok Temp'
    /\ keys Temp' = keys Temp
    /\ forall k, dict_get Temp' k
                 = option_map (received Emb [(A, B)] k) (dict_get Temp k).
Proof.
  intros HAt HBt HAe HBe.
  destruct (dict_get_in_some _ _ HAt) as [tA HtA].
  destruct (dict_get_in_some _ _ HBe) as [eB HeB].
  destruct (dict_get_in_some _ _ HAe) as [eA HeA].
  assert (HBt1 : In B (keys (dict_set Temp A (vadd tA eB)))).
  { apply in_keys_set. now right. }
  destruct (dict_get_in_some _ _ HBt1) as [tB HtB].
  exists (dict_set (dict_set Temp A (vadd tA eB)) B (vadd tB eA)).
  split; [|split].
  - unfold add_pair, lookup. rewrite HtA, HeB. simpl. rewrite HtB, HeA. reflexivity.
  - rewrite keys_set_present by exact HBt1. now apply keys_set_present.
  - intros k. unfold received, partners. simpl.
    rewrite (emb_at_get _ _ _ HeA), (emb_at_get _ _ _ HeB) || idtac.
    destruct (Z.eqb_spec k B) as [->|HkB].
    + rewrite dict_get_set_eq.
      destruct (Z.eqb_spec B A) as [->|HBA]; simpl.
      * rewrite dict_get_set_eq in HtB. injection HtB as <-.
        rewrite HtA. simpl.
        rewrite (emb_at_get _ _ _ HeA). rewrite HeA in HeB.
        injection HeB as ->. reflexivity.
      * rewrite dict_get_set_neq in HtB by exact HBA. rewrite HtB. simpl.
        now rewrite (emb_at_get _ _ _ HeA).
    + rewrite dict_get_set_neq by exact HkB.
      destruct (Z.eqb_spec k A) as [->|HkA]; simpl.
      * rewrite dict_get_set_eq, HtA. simpl.
        now rewrite (emb_at_get _ _ _ HeB).
      * rewrite dict_get_set_neq by exact HkA.
        destruct (dict_get Temp k); reflexivity.
Qed.

(** One pair with an endpoint that is not a key raises [KeyError] on it. *)
Lemma add_pair_raise (Emb Temp : dict vec) (A B : Z) :
  (forall k, In k (keys Emb) <-> In k (keys Temp)) ->
  ~ In A (keys Temp) \/ ~ In B (keys Temp) ->
  exists k, ~ In k (keys Temp) /\ add_pair Emb A B Temp = Raise (KeyError k).
Proof.
  intros Hk Hmiss. unfold add_pair.
  destruct (lookup Temp A) as [tA|e] eqn:EA; simpl.
  - destruct (lookup Emb B) as [eB|e] eqn:EB; simpl.
    + exfalso. apply lookup_ok in EA, EB.
      apply dict_get_some_in in EA, EB. apply Hk in EB. tauto.
    + apply lookup_raise in EB as [-> Hn]. exists B. split; [|reflexivity].
      intros Hin. apply Hn, Hk, Hin.
  - apply lookup_raise in EA as [-> Hn]. now exists A.
Qed.

Lemma accumulate_pairs_ok (Emb : dict vec) (ps : list (Z * Z)) :
  forall Temp,
    (forall k, In k (keys Emb) <-> In k (keys Temp)) ->
    endpoints_in (keys Temp) ps ->
    exists Temp',
      accumulate_pairs Emb ps Temp = Ok Temp'
      /\ keys Temp' = keys Temp
      /\ forall k, dict_get Temp' k
                   = option_map (received Emb ps k) (dict_get Temp k).
Proof.
  induction ps as [|[A B] ps IH]; intros Temp Hk Hin.
  - exists Temp. repeat split. intros k. unfold received. simpl.
    destruct (dict_get Temp k); reflexivity.
  - destruct (Hin A B (or_introl eq_refl)) as [HA HB].
    destruct (add_pair_ok Emb Temp A B) as (T1 & H1 & K1 & G1);
      try assumption; try (apply Hk; assumption).
    destruct (IH T1) as (T2 & H2 & K2 & G2).
    + intros k. rewrite K1. apply Hk.
    + rewrite K1. intros A' B' H'. apply Hin. now right.
    + exists T2. split; [|split].
      * simpl. rewrite H1. simpl. exact H2.
      * congruence.
      * intros k. rewrite G2, G1.
        destruct (dict_get Temp k); simpl; [|reflexivity].
        now rewrite (received_cons Emb (A, B) ps).
Qed.

Lemma accumulate_pairs_raise (Emb : dict vec) (ps : list (Z * Z)) :
  forall Temp A B,
    (forall k, In k (keys Emb) <-> In k (keys Temp)) ->
    In (A, B) ps -> ~ In A (keys Temp) \/ ~ In B (keys Temp) ->
    exists k, ~ In k (keys Temp) /\ accumulate_pairs Emb ps Temp = Raise (KeyError k).
Proof.
  induction ps as [|[A0 B0] ps IH]; intros Temp A B Hk Hin Hmiss; [contradiction|].
  destruct (in_dec Z.eq_dec A0 (keys Temp)) as [HA0|HA0];
    [destruct (in_dec Z.eq_dec B0 (keys Temp)) as [HB0|HB0]|].
  - destruct (add_pair_ok Emb Temp A0 B0) as (T1 & H1 & K1 & _);
      try assumption; try (apply Hk; assumption).
    destruct Hin as [Heq|Hin].
    + injection Heq as -> ->. tauto.
    + destruct (IH T1 A B) as (k & Hn & Hr); try assumption.
      * intros k. rewrite K1. apply Hk.
      * now rewrite K1.
      * exists k. split; [now rewrite <- K1|]. simpl. rewrite H1. exact Hr.
  - destruct (add_pair_raise Emb Temp A0 B0 Hk) as (k & Hn & Hr); [tauto|].
    exists k. split; [exact Hn|]. simpl. now rewrite Hr.
  - destruct (add_pair_raise Emb Temp A0 B0 Hk) as (k & Hn & Hr); [tauto|].
    exists k. split; [exact Hn|]. simpl. now rewrite Hr.
Qed.

(** ** One pass of the loop *)

Lemma keys_renormalize (eps : R) (Temp : dict vec) :
  keys (renormalize eps Temp) = keys Temp.
Proof.
  unfold keys, renormalize. rewrite map_map. apply map_ext. now intros [k v].
Qed.

Lemma dict_get_renormalize (eps : R) (Temp : dict vec) (k : Z) :
  dict_get (renormalize eps Temp) k = option_map (rescale eps) (dict_get Temp k).
Proof.
  induction Temp as [|[k' v] Temp IH]; simpl; [reflexivity|].
  destruct (Z.eqb k k'); [reflexivity | exact IH].
Qed.

Lemma node_losses_ok (New : dict vec) (Emb : dict vec) :
  (forall k, In k (keys Emb) -> In k (keys New)) ->
  node_losses Emb New = Ok (loss_list Emb New).
Proof.
  induction Emb as [|[k v] Emb IH]; intros Hk; simpl; [reflexivity|].
  destruct (dict_get_in_some New k) as [w Hw]; [apply Hk; now left|].
  unfold lookup. rewrite Hw. simpl. rewrite IH by (intros; apply Hk; now right).
  simpl. now rewrite (emb_at_get _ _ _ Hw).
Qed.

Lemma initial_state_consistent (d : nat) (draws : nat -> nat -> R)
  (Node_IDs : list Z) :
  consistent (initial_state d draws Node_IDs).
Proof.
  split; simpl; [apply keys_initialize | apply zero_buffers_NoDup].
Qed.

Lemma iteration_ok (eps : R) (Edges : edges) (st : state) :
  consistent st ->
  endpoints_in (keys (Node_ID_2_Embedding_Temp st)) (edge_pairs Edges) ->
  exists Temp,
    accumulate (Node_ID_2_Embedding st) Edges (Node_ID_2_Embedding_Temp st) = Ok Temp
    /\ keys Temp = keys (Node_ID_2_Embedding_Temp st)
    /\ (forall k, dict_get Temp k
                  = option_map (received (Node_ID_2_Embedding st) (edge_pairs Edges) k)
                      (dict_get (Node_ID_2_Embedding_Temp st) k))
    /\ iteration eps Edges st
       = Ok (mkState (renormalize eps Temp) Temp
               (Losses st ++ [np_mean (loss_list (Node_ID_2_Embedding st)
                                         (renormalize eps Temp))])).
Proof.
  intros [Hk Hnd] Hin.
  destruct (accumulate_pairs_ok (Node_ID_2_Embedding st) (edge_pairs Edges)
              (Node_ID_2_Embedding_Temp st)) as (T & HT & KT & GT).
  { intros k. now rewrite Hk. }
  { exact Hin. }
  exists T. rewrite accumulate_flat. repeat split; try assumption.
  unfold iteration. rewrite accumulate_flat, HT. simpl.
  rewrite node_losses_ok; [reflexivity|].
  intros k. rewrite keys_renormalize, KT, Hk. auto.
Qed.

Lemma iteration_consistent (eps : R) (Edges : edges) (st st' : state) :
  consistent st -> iteration eps Edges st = Ok st' ->
  consistent st'
  /\ keys (Node_ID_2_Embedding_Temp st') = keys (Node_ID_2_Embedding_Temp st)
  /\ Node_ID_2_Embedding st' = renormalize eps (Node_ID_2_Embedding_Temp st')
  /\ length (Losses st') = S (length (Losses st)).
Proof.
  intros [Hk Hnd] Hit.
  assert (Hends : endpoints_in (keys (Node_ID_2_Embedding_Temp st))
                    (edge_pairs Edges)).
  { intros A B HAB.
    destruct (in_dec Z.eq_dec A (keys (Node_ID_2_Embedding_Temp st))) as [HA|HA];
      [destruct (in_dec Z.eq_dec B (keys (Node_ID_2_Embedding_Temp st))) as [HB|HB]|];
      [tauto| |].
    all: exfalso;
      destruct (accumulate_pairs_raise (Node_ID_2_Embedding st) (edge_pairs Edges)
                  (Node_ID_2_Embedding_Temp st) A B) as (k & _ & Hr);
      [intros k; now rewrite Hk | exact HAB | tauto |];
      unfold iteration in Hit; rewrite accumulate_flat, Hr in Hit; discriminate. }
  destruct (iteration_ok eps Edges st (conj Hk Hnd) Hends) as (T & _ & KT & _ & Hst).
  rewrite Hst in Hit. injection Hit as <-. simpl.
  split; [split; simpl|split; [|split]].
  - apply keys_renormalize.
  - now rewrite KT.
  - exact KT.
  - reflexivity.
  - rewrite length_app. simpl. lia.
Qed.

Lemma iterate_ok (eps : R) (Edges : edges) (n : nat) :
  forall st,
    consistent st ->
    endpoints_in (keys (Node_ID_2_Embedding_Temp st)) (edge_pairs Edges) ->
    exists st',
      iterate eps Edges n st = Ok st'
      /\ consistent st'
      /\ keys (Node_ID_2_Embedding_Temp st') = keys (Node_ID_2_Embedding_Temp st)
      /\ length (Losses st') = (length (Losses st) + n)%nat.
Proof.
  induction n as [|n IH]; intros st Hc Hin; simpl.
  - exists st. repeat split; try apply Hc. lia.
  - destruct (iteration_ok eps Edges st Hc Hin) as (T & _ & KT & _ & Hst).
    rewrite Hst. simpl.
    destruct (iteration_consistent eps Edges st _ Hc Hst) as (Hc' & K' & _ & L').
    destruct (IH _ Hc') as (st' & Hr & Hc'' & K'' & L'').
    { rewrite K'. exact Hin. }
    exists st'. repeat split; try apply Hc''; try assumption.
    + congruence.
    + rewrite L'', L'. lia.
Qed.

Lemma iteration_endpoints (eps : R) (Edges : edges) (st st' : state) :
  consistent st -> iteration eps Edges st = Ok st' ->
  endpoints_in (keys (Node_ID_2_Embedding_Temp st)) (edge_pairs Edges).
Proof.
  intros [Hk Hnd] Hit A B HAB.
  destruct (in_dec Z.eq_dec A (keys (Node_ID_2_Embedding_Temp st))) as [HA|HA];
    [destruct (in_dec Z.eq_dec B (keys (Node_ID_2_Embedding_Temp st))) as [HB|HB]|];
    [tauto| |].
  all: exfalso;
    destruct (accumulate_pairs_raise (Node_ID_2_Embedding st) (edge_pairs Edges)
                (Node_ID_2_Embedding_Temp st) A B) as (k & _ & Hr);
    [intros k; now rewrite Hk | exact HAB | tauto |];
    unfold iteration in Hit; rewrite accumulate_flat, Hr in Hit; discriminate.
Qed.

(** ** Edges that reference a node absent from the node set *)

Lemma initial_keys (d : nat) (draws : nat -> nat -> R) (Node_IDs : list Z) (k : Z) :
  In k (keys (Node_ID_2_Embedding_Temp (initial_state d draws Node_IDs)))
  <-> In k Node_IDs.
Proof. simpl. apply zero_buffers_keys. Qed.

(** C8: an edge with an endpoint outside the node set makes the first
    accumulation pass raise a key-not-found error on a key that is not a
    node; the loop raises it too and the script ends with it before any
    effect, so no embedding file is written. *)
Theorem C8_dangling_edge_raises_KeyError
  (percentile : list R -> R -> num) (fit_transform : list vec -> result (list point))
  (d n : nat) (eps : R) (draws : nat -> nat -> R) (Node_IDs : list Z)
  (Edges : edges) (A B : Z) :
  In (A, B) (edge_pairs Edges) ->
  ~ In A Node_IDs \/ ~ In B Node_IDs ->
  (0 < n)%nat ->
  exists k,
    ~ In k Node_IDs
    /\ accumulate (initialize d draws Node_IDs) Edges (zero_buffers d Node_IDs)
       = Raise (KeyError k)
    /\ diffuse d n eps draws Node_IDs Edges = Raise (KeyError k)
    /\ Embedding_py percentile fit_transform d n eps draws Node_IDs Edges
       = ([], Raise (KeyError k)).
Proof.
  intros HAB Hmiss Hn.
  destruct (accumulate_pairs_raise (initialize d draws Node_IDs) (edge_pairs Edges)
              (zero_buffers d Node_IDs) A B) as (k & Hk & Hr).
  - intros k. now rewrite keys_initialize.
  - exact HAB.
  - now rewrite !zero_buffers_keys.
  - rewrite zero_buffers_keys in Hk.
    assert (Hd : diffuse d n eps draws Node_IDs Edges = Raise (KeyError k)).
    { unfold diffuse. destruct n as [|n]; [lia|]. simpl.
      unfold iteration. simpl. now rewrite accumulate_flat, Hr. }
    exists k. repeat split; try assumption.
    + now rewrite accumulate_flat.
    + unfold Embedding_py. now rewrite Hd.
Qed.

Lemma C8_dangling_edge_witness :
  exists k,
    ~ In k [1%Z]
    /\ accumulate (initialize Tools.EMBEDDING_SIZE half_draws [1%Z])
         [(1%Z, [2%Z])] (zero_buffers Tools.EMBEDDING_SIZE [1%Z])
       = Raise (KeyError k)
    /\ diffuse Tools.EMBEDDING_SIZE Tools.ITERATION_COUNT Tools.EPSILON
         half_draws [1%Z] [(1%Z, [2%Z])] = Raise (KeyError k)
    /\ Embedding_py (fun _ _ => NaN) (fun _ => Raise ProjectionError)
         Tools.EMBEDDING_SIZE Tools.ITERATION_COUNT Tools.EPSILON
         half_draws [1%Z] [(1%Z, [2%Z])]
       = ([], Raise (KeyError k)).
Proof.
  apply (C8_dangling_edge_raises_KeyError _ _ _ _ _ _ _ _ 1%Z 2%Z).
  - simpl. now left.
  - right. simpl. intros [H|[]]. discriminate.
  - unfold Tools.ITERATION_COUNT. lia.
Defined.

(** ** Symmetry in the storage of edges *)

Lemma same_edges_sym (ps qs : list (Z * Z)) : same_edges ps qs -> same_edges qs ps.
Proof.
  induction 1.
  - constructor.
  - now constructor.
  - now constructor.
  - constructor.
  - eapply same_trans; eassumption.
Qed.

Lemma same_edges_endpoints (ps qs : list (Z * Z)) :
  same_edges ps qs ->
  forall A B, In (A, B) qs -> In (A, B) ps \/ In (B, A) ps.
Proof.
  induction 1; intros X Y Hin.
  - contradiction.
  - destruct Hin as [->|Hin]; [left; now left|].
    destruct (IHsame_edges _ _ Hin); [left | right]; now right.
  - destruct Hin as [Heq|Hin].
    + injection Heq as -> ->. right. now left.
    + destruct (IHsame_edges _ _ Hin); [left | right]; now right.
  - left. simpl in *. tauto.
  - destruct (IHsame_edges2 _ _ Hin) as [H1|H1];
      destruct (IHsame_edges1 _ _ H1); tauto.
Qed.

Lemma same_edges_endpoints_in (ks : list Z) (ps qs : list (Z * Z)) :
  same_edges ps qs -> endpoints_in ks ps -> endpoints_in ks qs.
Proof.
  intros Hs Hin A B HAB.
  destruct (same_edges_endpoints ps qs Hs A B HAB) as [H|H];
    apply Hin in H; tauto.
Qed.

Lemma same_edges_partners (ps qs : list (Z * Z)) (k : Z) :
  same_edges ps qs -> Permutation (partners ps k) (partners qs k).
Proof.
  unfold partners. induction 1; simpl.
  - constructor.
  - now apply Permutation_app_head.
  - apply Permutation_app; [apply Permutation_app_comm | assumption].
  - rewrite !app_assoc. apply Permutation_app_tail, Permutation_app_comm.
  - eapply Permutation_trans; eassumption.
Qed.

Lemma fold_left_vadd_perm (l l' : list vec) :
  Permutation l l' -> forall v, fold_left vadd l v = fold_left vadd l' v.
Proof.
  induction 1; intros v; simpl.
  - reflexivity.
  - apply IHPermutation.
  - f_equal. rewrite !vadd_assoc. f_equal. apply vadd_comm.
  - now rewrite IHPermutation1.
Qed.

Lemma same_edges_received (Emb : dict vec) (ps qs : list (Z * Z)) (k : Z) (v : vec) :
  same_edges ps qs -> received Emb ps k v = received Emb qs k v.
Proof.
  intros Hs. unfold received. apply fold_left_vadd_perm.
  apply Permutation_map. now apply same_edges_partners.
Qed.

Lemma same_edges_iteration (eps : R) (Edges Edges' : edges) (st st' : state) :
  same_edges (edge_pairs Edges) (edge_pairs Edges') ->
  consistent st ->
  iteration eps Edges st = Ok st' -> iteration eps Edges' st = Ok st'.
Proof.
  intros Hs Hc Hit.
  pose proof (iteration_endpoints eps Edges st st' Hc Hit) as Hin.
  pose proof (same_edges_endpoints_in _ _ _ Hs Hin) as Hin'.
  destruct (iteration_ok eps Edges st Hc Hin) as (T & _ & KT & GT & HT).
  destruct (iteration_ok eps Edges' st Hc Hin') as (T' & _ & KT' & GT' & HT').
  assert (HTT : T = T').
  { apply dict_ext.
    - congruence.
    - rewrite KT. apply Hc.
    - intros k. rewrite GT, GT'.
      destruct (dict_get (Node_ID_2_Embedding_Temp st) k); simpl; [|reflexivity].
      f_equal. now apply same_edges_received. }
  rewrite HT' , <- HTT, <- HT. exact Hit.
Qed.

Lemma same_edges_iterate (eps : R) (Edges Edges' : edges) (n : nat) :
  same_edges (edge_pairs Edges) (edge_pairs Edges') ->
  forall st st',
    consistent st ->
    iterate eps Edges n st = Ok st' -> iterate eps Edges' n st = Ok st'.
Proof.
  intros Hs. induction n as [|n IH]; intros st st' Hc; simpl; [auto|].
  destruct (iteration eps Edges st) as [st1|e] eqn:E1; simpl; [|discriminate].
  intros Hit. rewrite (same_edges_iteration eps Edges Edges' st st1 Hs Hc E1).
  simpl. apply IH; [|exact Hit].
  apply (iteration_consistent eps Edges st st1 Hc E1).
Qed.


(** ** Arrays without nan *)

Lemma shaped_reals (d : nat) (v : vec) :
  shaped d v <-> exists l, v = map Fin l /\ length l = d.
Proof.
  unfold shaped. rewrite all_fin_reals. split.
  - intros [Hlen [l ->]]. exists l. split; [reflexivity|].
    now rewrite length_map in Hlen.
  - intros [l [-> Hlen]]. split; [now rewrite length_map | now exists l].
Qed.

Lemma shaped_zeros (d : nat) : shaped d (np_zeros d).
Proof.
  split; [apply np_zeros_length|].
  unfold np_zeros, all_fin. apply Forall_forall. intros x Hx.
  apply repeat_spec in Hx. now subst.
Qed.

Lemma all_fin_zip (f : num -> num -> num) (u v : vec) :
  (forall x y, is_fin x -> is_fin y -> is_fin (f x y)) ->
  all_fin u -> all_fin v -> all_fin (zip_with f u v).
Proof.
  intros Hf Hu. revert v. induction Hu as [|x u Hx Hu IH]; intros v Hv; simpl.
  - constructor.
  - destruct Hv as [|y v Hy Hv]; constructor; auto. now apply IH.
Qed.

Lemma shaped_zip (f : num -> num -> num) (d : nat) (u v : vec) :
  (forall x y, is_fin x -> is_fin y -> is_fin (f x y)) ->
  shaped d u -> shaped d v -> shaped d (zip_with f u v).
Proof.
  intros Hf [Lu Fu] [Lv Fv]. split.
  - rewrite zip_with_length; congruence.
  - now apply all_fin_zip.
Qed.

Lemma is_fin_nadd (x y : num) : is_fin x -> is_fin y -> is_fin (nadd x y).
Proof. destruct x, y; simpl; auto. Qed.

Lemma shaped_vadd (d : nat) (u v : vec) :
  shaped d u -> shaped d v -> shaped d (vadd u v).
Proof. apply shaped_zip, is_fin_nadd. Qed.

Lemma vadd_zeros_l (d : nat) (v : vec) :
  shaped d v -> vadd (np_zeros d) v = v.
Proof.
  intros [Hlen Hfin]. subst d. unfold vadd, np_zeros.
  induction Hfin as [|x v Hx Hv IH]; simpl; [reflexivity|].
  rewrite IH. destruct x as [r|]; [|contradiction]. simpl.
  do 2 f_equal. ring.
Qed.

Lemma rescale_reals (eps : R) (l : list R) :
  0 < eps ->
  rescale eps (map Fin l)
  = map Fin (map (fun x => x / (sqrt (sum_sq l) + eps)) l).
Proof.
  intros He. unfold rescale. rewrite norm_reals. simpl.
  apply vdiv_reals. pose proof (sqrt_pos (sum_sq l)). lra.
Qed.

Lemma shaped_rescale (d : nat) (eps : R) (v : vec) :
  0 < eps -> shaped d v -> shaped d (rescale eps v).
Proof.
  intros He Hv. apply shaped_reals in Hv as [l [-> Hl]].
  rewrite rescale_reals by exact He. apply shaped_reals.
  eexists. split; [reflexivity|]. now rewrite length_map.
Qed.

(** The norm after line 32: the buffer's norm over itself plus epsilon. *)
Lemma norm_rescale (eps : R) (l : list R) :
  0 < eps ->
  norm (rescale eps (map Fin l))
  = Fin (sqrt (sum_sq l) / (sqrt (sum_sq l) + eps)).
Proof.
  intros He. rewrite rescale_reals by exact He. rewrite norm_reals.
  f_equal. apply norm_scale. pose proof (sqrt_pos (sum_sq l)). lra.
Qed.

Lemma rescale_zeros (d : nat) (eps : R) :
  0 < eps -> rescale eps (np_zeros d) = np_zeros d.
Proof.
  intros He. unfold np_zeros.
  replace (repeat (Fin 0) d) with (map Fin (repeat 0 d))
    by (induction d; simpl; congruence).
  rewrite rescale_reals by exact He. f_equal.
  generalize (sqrt (sum_sq (repeat 0 d)) + eps). intros c.
  induction d as [|d IH]; simpl; [reflexivity|].
  f_equal; [|exact IH]. unfold Rdiv. ring.
Qed.

Lemma norm_nonzero_iff (l : list R) :
  norm (map Fin l) <> Fin 0 <-> sum_sq l <> 0.
Proof.
  rewrite norm_reals. pose proof (sum_sq_nonneg l) as Hp. split.
  - intros Hn Hz. apply Hn. rewrite Hz. now rewrite sqrt_0.
  - intros Hn Heq. injection Heq as Heq. apply Hn.
    now apply sqrt_eq_0.
Qed.

(** Lines 17 and 18 on a sample that is not all zero: a unit vector. *)
Lemma unit_scale_reals (l : list R) :
  sum_sq l <> 0 ->
  unit_scale (map Fin l) = map Fin (map (fun x => x / sqrt (sum_sq l)) l)
  /\ norm (unit_scale (map Fin l)) = Fin 1.
Proof.
  intros Hn. pose proof (sum_sq_nonneg l) as Hp.
  assert (Hs : 0 < sqrt (sum_sq l)) by (apply sqrt_lt_R0; lra).
  assert (Hu : unit_scale (map Fin l)
               = map Fin (map (fun x => x / sqrt (sum_sq l)) l)).
  { unfold unit_scale. rewrite norm_reals. apply vdiv_reals. lra. }
  split; [exact Hu|].
  rewrite Hu, norm_reals. f_equal. rewrite norm_scale by exact Hs.
  field. lra.
Qed.

Lemma uniform_reals (d : nat) (draws : nat -> nat -> R) (k : nat) :
  uniform d draws k = map Fin (map (draws k) (seq 0 d)).
Proof. unfold uniform. now rewrite map_map. Qed.

Lemma uniform_length (d : nat) (draws : nat -> nat -> R) (k : nat) :
  length (uniform d draws k) = d.
Proof. unfold uniform. now rewrite length_map, length_seq. Qed.

(** ** Means *)

Lemma np_mean_reals (l : list R) :
  l <> [] -> np_mean (map Fin l) = Fin (Rsum l / INR (length l)).
Proof.
  intros Hl. unfold np_mean. rewrite np_sum_reals, length_map. simpl.
  destruct (Req_dec_T (INR (length l)) 0) as [H0|_]; [|reflexivity].
  exfalso. apply Hl. apply length_zero_iff_nil.
  apply INR_eq. exact H0.
Qed.

Lemma np_mean_empty : np_mean [] = NaN.
Proof.
  unfold np_mean. simpl.
  destruct (Req_dec_T 0 0) as [_|H]; [reflexivity | now exfalso].
Qed.

Lemma Forall_nonneg_reals (v : vec) :
  Forall nonneg v -> exists l, v = map Fin l /\ Forall (fun r => 0 <= r) l.
Proof.
  induction 1 as [|x v [r [-> Hr]] _ [l [-> Hl]]].
  - exists []. split; [reflexivity | constructor].
  - exists (r :: l). split; [reflexivity | now constructor].
Qed.

Lemma Rsum_nonneg (l : list R) : Forall (fun r => 0 <= r) l -> 0 <= Rsum l.
Proof. induction 1; simpl; lra. Qed.

Lemma Rsum_pos (l : list R) :
  Forall (fun r => 0 < r) l -> l <> [] -> 0 < Rsum l.
Proof.
  induction 1 as [|x l Hx Hl IH]; intros Hne; [congruence|]. simpl.
  destruct l as [|y l]; [simpl; lra|].
  assert (0 < Rsum (y :: l)) by (apply IH; discriminate). lra.
Qed.

Lemma INR_length_pos {A : Type} (l : list A) : l <> [] -> 0 < INR (length l).
Proof.
  intros Hl. destruct l; [congruence|]. apply lt_0_INR. simpl. lia.
Qed.

Lemma np_mean_nonneg (v : vec) : v <> [] -> Forall nonneg v -> nonneg (np_mean v).
Proof.
  intros Hne Hv. apply Forall_nonneg_reals in Hv as [l [-> Hl]].
  assert (Hl' : l <> []) by (intros ->; now apply Hne).
  rewrite np_mean_reals by exact Hl'. eexists. split; [reflexivity|].
  pose proof (Rsum_nonneg l Hl). pose proof (INR_length_pos l Hl').
  apply Rmult_le_pos; [lra|]. left. now apply Rinv_0_lt_compat.
Qed.

Lemma np_mean_positive (v : vec) : v <> [] -> Forall positive v -> positive (np_mean v).
Proof.
  intros Hne Hv.
  assert (Hex : exists l, v = map Fin l /\ Forall (fun r => 0 < r) l).
  { clear Hne. induction Hv as [|x v [r [-> Hr]] _ [l [-> Hl]]].
    - exists []. split; [reflexivity | constructor].
    - exists (r :: l). split; [reflexivity | now constructor]. }
  destruct Hex as [l [-> Hl]].
  assert (Hl' : l <> []) by (intros ->; now apply Hne).
  rewrite np_mean_reals by exact Hl'. eexists. split; [reflexivity|].
  pose proof (Rsum_pos l Hl Hl'). pose proof (INR_length_pos l Hl').
  apply Rmult_lt_0_compat; [lra|]. now apply Rinv_0_lt_compat.
Qed.

Lemma np_mean_zeros (v : vec) :
  v <> [] -> Forall (fun x => x = Fin 0) v -> np_mean v = Fin 0.
Proof.
  intros Hne Hv.
  assert (Hex : exists l, v = map Fin l /\ Rsum l = 0).
  { clear Hne. induction Hv as [|x v -> _ [l [-> Hl]]].
    - now exists [].
    - exists (0 :: l). split; [reflexivity|]. simpl. lra. }
  destruct Hex as [l [-> Hl]].
  assert (Hl' : l <> []) by (intros ->; now apply Hne).
  rewrite np_mean_reals by exact Hl'. rewrite Hl. f_equal.
  unfold Rdiv. ring.
Qed.

(** ** The initial vectors *)

Lemma initialize_from_get (d : nat) (draws : nat -> nat -> R) (ids : list Z) :
  forall (k0 : nat) (m : dict vec) (id : Z) (v : vec),
    dict_get (initialize_from d draws k0 ids m) id = Some v ->
    dict_get m id = Some v
    \/ exists j, nth_error ids j = Some id
                 /\ v = unit_scale (uniform d draws (k0 + j)).
Proof.
  induction ids as [|id0 ids IH]; intros k0 m id v H; simpl in H; [now left|].
  apply IH in H as [H|[j [Hj Hv]]].
  - destruct (Z.eq_dec id id0) as [->|Hne].
    + rewrite dict_get_set_eq in H. injection H as <-.
      right. exists 0%nat. split; [reflexivity|]. now rewrite Nat.add_0_r.
    + rewrite dict_get_set_neq in H by exact Hne. now left.
  - right. exists (S j). split; [exact Hj|].
    now rewrite Nat.add_succ_r.
Qed.

(** Each node's initial vector is one sample divided by its norm: the
    sample drawn at a position of the node in [Node_IDs]. *)
Lemma initialize_get (d : nat) (draws : nat -> nat -> R) (Node_IDs : list Z)
  (id : Z) (v : vec) :
  dict_get (initialize d draws Node_IDs) id = Some v ->
  exists j, nth_error Node_IDs j = Some id
            /\ v = unit_scale (uniform d draws j).
Proof.
  intros H. apply initialize_from_get in H as [H|H]; [discriminate | exact H].
Qed.

Lemma unit_scale_uniform (d : nat) (draws : nat -> nat -> R) (k : nat) :
  norm (uniform d draws k) <> Fin 0 ->
  shaped d (unit_scale (uniform d draws k))
  /\ norm (unit_scale (uniform d draws k)) = Fin 1.
Proof.
  rewrite uniform_reals. intros Hn. apply norm_nonzero_iff in Hn.
  destruct (unit_scale_reals _ Hn) as [Hu H1]. split; [|exact H1].
  rewrite Hu. apply shaped_reals. eexists. split; [reflexivity|].
  now rewrite !length_map, length_seq.
Qed.

Lemma initialize_unit (d : nat) (draws : nat -> nat -> R) (Node_IDs : list Z) :
  nonzero_samples d draws (length Node_IDs) ->
  all_values (fun v => shaped d v /\ norm v = Fin 1) (initialize d draws Node_IDs).
Proof.
  intros Hnz id v H. apply initialize_get in H as [j [Hj ->]].
  apply unit_scale_uniform, Hnz. apply nth_error_Some. congruence.
Qed.

Lemma nonzero_samples_dim (d : nat) (draws : nat -> nat -> R) (n : nat) :
  (0 < n)%nat -> nonzero_samples d draws n -> (0 < d)%nat.
Proof.
  intros Hn Hnz. destruct d as [|d]; [|lia].
  exfalso. apply (Hnz 0%nat Hn). unfold uniform, norm. simpl.
  destruct (Rlt_dec 0 0) as [H|_]; [lra|]. now rewrite sqrt_0.
Qed.

(** ** Properties of the arrays kept by the loop *)

Section Invariant.

Variable P : vec -> Prop.
Variable eps : R.
Hypothesis P_vadd : forall u v, P u -> P v -> P (vadd u v).
Hypothesis P_rescale : forall v, P v -> P (rescale eps v).

Lemma partners_endpoint (ps : list (Z * Z)) (k B : Z) :
  In B (partners ps k) -> In (k, B) ps \/ In (B, k) ps.
Proof.
  unfold partners. rewrite in_flat_map. intros [[X Y] [Hin HB]].
  apply in_app_iff in HB as [HB|HB].
  - destruct (Z.eqb_spec k X) as [->|_]; [|contradiction].
    destruct HB as [<-|[]]. now left.
  - destruct (Z.eqb_spec k Y) as [->|_]; [|contradiction].
    destruct HB as [<-|[]]. now right.
Qed.

Lemma fold_vadd_P (l : list vec) :
  Forall P l -> forall v, P v -> P (fold_left vadd l v).
Proof.
  induction 1 as [|x l Hx _ IH]; intros v Hv; simpl; [exact Hv|].
  apply IH. now apply P_vadd.
Qed.

Lemma received_P (Emb : dict vec) (ps : list (Z * Z)) (k : Z) (v : vec) :
  all_values P Emb -> endpoints_in (keys Emb) ps -> P v ->
  P (received Emb ps k v).
Proof.
  intros HE Hin Hv. unfold received. apply fold_vadd_P; [|exact Hv].
  apply Forall_forall. intros x Hx. apply in_map_iff in Hx as [B [<- HB]].
  apply partners_endpoint in HB.
  assert (HBk : In B (keys Emb)) by (destruct HB as [H|H]; apply Hin in H; tauto).
  apply dict_get_in_some in HBk as [w Hw].
  rewrite (emb_at_get _ _ _ Hw). eapply HE; eassumption.
Qed.

Lemma iteration_P (Edges : edges) (st st' : state) :
  consistent st ->
  all_values P (Node_ID_2_Embedding st) ->
  all_values P (Node_ID_2_Embedding_Temp st) ->
  iteration eps Edges st = Ok st' ->
  all_values P (Node_ID_2_Embedding st')
  /\ all_values P (Node_ID_2_Embedding_Temp st').
Proof.
  intros Hc HE HT Hit.
  pose proof (iteration_endpoints eps Edges st st' Hc Hit) as Hin.
  destruct (iteration_ok eps Edges st Hc Hin) as (T & _ & KT & GT & Hst).
  rewrite Hst in Hit. injection Hit as <-. simpl.
  assert (HT' : all_values P T).
  { intros k v. rewrite GT.
    destruct (dict_get (Node_ID_2_Embedding_Temp st) k) as [w|] eqn:Ew;
      simpl; [|discriminate].
    intros H. injection H as <-.
    apply received_P; try assumption.
    - destruct Hc as [Hk _]. now rewrite Hk.
    - eapply HT; eassumption. }
  split; [|exact HT'].
  intros k v. rewrite dict_get_renormalize.
  destruct (dict_get T k) as [w|] eqn:Ew; simpl; [|discriminate].
  intros H. injection H as <-. apply P_rescale. eapply HT'; eassumption.
Qed.

Lemma iterate_P (Edges : edges) (n : nat) :
  forall st st',
    consistent st ->
    all_values P (Node_ID_2_Embedding st) ->
    all_values P (Node_ID_2_Embedding_Temp st) ->
    iterate eps Edges n st = Ok st' ->
    all_values P (Node_ID_2_Embedding st')
    /\ all_values P (Node_ID_2_Embedding_Temp st').
Proof.
  induction n as [|n IH]; intros st st' Hc HE HT; simpl.
  - intros H. injection H as <-. now split.
  - destruct (iteration eps Edges st) as [st1|e] eqn:E1; simpl; [|discriminate].
    destruct (iteration_P Edges st st1 Hc HE HT E1) as [HE1 HT1].
    apply IH; try assumption.
    apply (iteration_consistent eps Edges st st1 Hc E1).
Qed.

End Invariant.

Lemma zero_buffers_values (P : vec -> Prop) (d : nat) (Node_IDs : list Z) :
  P (np_zeros d) -> all_values P (zero_buffers d Node_IDs).
Proof. intros HP k v H. apply zero_buffers_get in H. now subst. Qed.

Lemma all_values_weaken (P Q : vec -> Prop) (m : dict vec) :
  (forall v, P v -> Q v) -> all_values P m -> all_values Q m.
Proof. intros HPQ Hm k v H. apply HPQ. eapply Hm; eassumption. Qed.

(** A run on a graph whose edges connect nodes completes. *)
Lemma diffuse_ok (d n : nat) (eps : R) (draws : nat -> nat -> R)
  (Node_IDs : list Z) (Edges : edges) :
  endpoints_in Node_IDs (edge_pairs Edges) ->
  exists st,
    diffuse d n eps draws Node_IDs Edges = Ok st
    /\ consistent st
    /\ keys (Node_ID_2_Embedding_Temp st) = keys (zero_buffers d Node_IDs)
    /\ length (Losses st) = n.
Proof.
  intros Hin. unfold diffuse.
  destruct (iterate_ok eps Edges n (initial_state d draws Node_IDs))
    as (st & Hr & Hc & Hk & Hl).
  - apply initial_state_consistent.
  - intros A B HAB. rewrite !initial_keys. now apply Hin.
  - exists st. repeat split; try apply Hc; assumption.
Qed.

(** With positive epsilon and samples that are not all zero, every vector
    and every buffer of the loop is an array of [d] reals. *)
Lemma diffuse_shaped (d n : nat) (eps : R) (draws : nat -> nat -> R)
  (Node_IDs : list Z) (Edges : edges) (st : state) :
  0 < eps ->
  nonzero_samples d draws (length Node_IDs) ->
  diffuse d n eps draws Node_IDs Edges = Ok st ->
  all_values (shaped d) (Node_ID_2_Embedding st)
  /\ all_values (shaped d) (Node_ID_2_Embedding_Temp st).
Proof.
  intros He Hnz. unfold diffuse.
  apply (iterate_P (shaped d) eps).
  - apply shaped_vadd.
  - intros v. now apply shaped_rescale.
  - apply initial_state_consistent.
  - simpl. eapply all_values_weaken; [|apply initialize_unit; exact Hnz].
    intros v [H _]. exact H.
  - simpl. apply zero_buffers_values, shaped_zeros.
Qed.

(** ** The vector initialiser *)

Lemma sum_sq_const (c : R) (l : list nat) :
  sum_sq (map (fun _ => c) l) = INR (length l) * (c * c).
Proof.
  induction l as [|x l IH]; [simpl; ring|].
  change (length (x :: l)) with (S (length l)). rewrite S_INR.
  simpl. rewrite IH. ring.
Qed.

Lemma half_draws_nonzero (d n : nat) :
  (0 < d)%nat -> nonzero_samples d half_draws n.
Proof.
  intros Hd k _. rewrite uniform_reals. apply norm_nonzero_iff.
  unfold half_draws. rewrite sum_sq_const, length_seq.
  apply lt_0_INR in Hd. nra.
Qed.

Lemma vdiv_zero_divisor (v : vec) : vdiv v (Fin 0) = repeat NaN (length v).
Proof.
  unfold vdiv. induction v as [|x v IH]; simpl; [reflexivity|].
  rewrite IH. f_equal. destruct x as [r|]; simpl; [|reflexivity].
  destruct (Req_dec_T 0 0) as [_|H]; [reflexivity | now exfalso].
Qed.

(** C3 (as the code has it): the initialiser takes one sample per position
    of [Node_IDs] and divides it by its norm, with no resampling.  Every
    node gets the vector of a sample drawn at one of its positions; when
    that sample's norm is not zero the vector has [d] components and L2
    norm exactly 1. *)
Theorem C3_initial_vector_unit_norm
  (d : nat) (draws : nat -> nat -> R) (Node_IDs : list Z) (id : Z) :
  In id Node_IDs ->
  exists k v,
    nth_error Node_IDs k = Some id
    /\ dict_get (initialize d draws Node_IDs) id = Some v
    /\ v = vdiv (uniform d draws k) (norm (uniform d draws k))
    /\ (norm (uniform d draws k) <> Fin 0 -> length v = d /\ norm v = Fin 1).
Proof.
  intros Hin.
  assert (Hk : In id (keys (initialize d draws Node_IDs))).
  { rewrite keys_initialize. now apply zero_buffers_keys. }
  apply dict_get_in_some in Hk as [v Hv].
  destruct (initialize_get _ _ _ _ _ Hv) as [k [Hk ->]].
  exists k, (unit_scale (uniform d draws k)).
  repeat split; try assumption.
  - now apply unit_scale_uniform.
  - now apply unit_scale_uniform.
Qed.

Lemma C3_initial_vector_witness :
  exists k v,
    nth_error [7%Z] k = Some 7%Z
    /\ dict_get (initialize Tools.EMBEDDING_SIZE half_draws [7%Z]) 7%Z = Some v
    /\ v = vdiv (uniform Tools.EMBEDDING_SIZE half_draws k)
             (norm (uniform Tools.EMBEDDING_SIZE half_draws k))
    /\ (norm (uniform Tools.EMBEDDING_SIZE half_draws k) <> Fin 0 ->
        length v = Tools.EMBEDDING_SIZE /\ norm v = Fin 1).
Proof.
  apply (C3_initial_vector_unit_norm Tools.EMBEDDING_SIZE half_draws [7%Z] 7%Z).
  simpl. now left.
Defined.

(** C3 fails as stated: on the all-zero sample, which lies in [-1, 1], the
    initialiser does not resample.  It divides by the zero norm, and the
    node's vector is all nan; its norm is not 1. *)
Lemma C3_zero_sample_counterexample :
  (forall k i, -1 <= zero_draws k i <= 1)
  /\ norm (uniform Tools.EMBEDDING_SIZE zero_draws 0) = Fin 0
  /\ dict_get (initialize Tools.EMBEDDING_SIZE zero_draws [7%Z]) 7%Z
     = Some (repeat NaN Tools.EMBEDDING_SIZE)
  /\ norm (repeat NaN Tools.EMBEDDING_SIZE) <> Fin 1.
Proof.
  assert (Hn : norm (uniform Tools.EMBEDDING_SIZE zero_draws 0) = Fin 0).
  { rewrite uniform_reals, norm_reals. unfold zero_draws.
    rewrite sum_sq_const. f_equal.
    replace (INR (length (seq 0 Tools.EMBEDDING_SIZE)) * (0 * 0)) with 0 by ring.
    apply sqrt_0. }
  split; [|split; [exact Hn|split]].
  - intros k i. unfold zero_draws. lra.
  - unfold initialize. simpl. rewrite Z.eqb_refl || idtac.
    unfold unit_scale. rewrite Hn, vdiv_zero_divisor, uniform_length.
    reflexivity.
  - discriminate.
Qed.

(** ** The norm of the vectors after an update *)

Lemma iterate_last (eps : R) (Edges : edges) (n : nat) :
  forall st st',
    consistent st -> (0 < n)%nat ->
    iterate eps Edges n st = Ok st' ->
    Node_ID_2_Embedding st' = renormalize eps (Node_ID_2_Embedding_Temp st').
Proof.
  induction n as [|n IH]; intros st st' Hc Hn; [lia|]. simpl.
  destruct (iteration eps Edges st) as [st1|e] eqn:E1; simpl; [|discriminate].
  destruct (iteration_consistent eps Edges st st1 Hc E1) as (Hc1 & _ & Hr & _).
  destruct n as [|n].
  - simpl. intros H. injection H as <-. exact Hr.
  - apply IH; [exact Hc1 | lia].
Qed.

Lemma rescale_norm_below_one (eps s : R) :
  0 < eps -> 0 <= s -> 0 <= s / (s + eps) < 1.
Proof.
  intros He Hs. split.
  - apply Rmult_le_pos; [exact Hs|]. left. apply Rinv_0_lt_compat. lra.
  - apply (Rmult_lt_reg_r (s + eps)); [lra|].
    unfold Rdiv. rewrite Rmult_assoc, Rinv_l by lra. lra.
Qed.

(** C2 (as the code has it): after an update every node's vector is its
    buffer divided by the buffer's norm plus epsilon, so its L2 norm is
    [s / (s + eps)] for the norm [s] of the buffer: at least 0 and strictly
    below 1, never 1. *)
Theorem C2_norm_after_update
  (d n : nat) (eps : R) (draws : nat -> nat -> R) (Node_IDs : list Z)
  (Edges : edges) :
  0 < eps -> (0 < n)%nat ->
  endpoints_in Node_IDs (edge_pairs Edges) ->
  nonzero_samples d draws (length Node_IDs) ->
  exists st,
    diffuse d n eps draws Node_IDs Edges = Ok st
    /\ forall id, In id Node_IDs ->
         exists buf s,
           dict_get (Node_ID_2_Embedding_Temp st) id = Some (map Fin buf)
           /\ s = sqrt (sum_sq buf)
           /\ dict_get (Node_ID_2_Embedding st) id
              = Some (vdiv (map Fin buf) (Fin (s + eps)))
           /\ norm (vdiv (map Fin buf) (Fin (s + eps))) = Fin (s / (s + eps))
           /\ 0 <= s / (s + eps) < 1.
Proof.
  intros He Hn Hin Hnz.
  destruct (diffuse_ok d n eps draws Node_IDs Edges Hin) as (st & Hd & Hc & Hk & _).
  exists st. split; [exact Hd|]. intros id Hid.
  destruct (diffuse_shaped d n eps draws Node_IDs Edges st He Hnz Hd) as [_ HT].
  assert (Hlast : Node_ID_2_Embedding st
                  = renormalize eps (Node_ID_2_Embedding_Temp st)).
  { apply (iterate_last eps Edges n (initial_state d draws Node_IDs));
      [apply initial_state_consistent | exact Hn | exact Hd]. }
  assert (Hidk : In id (keys (Node_ID_2_Embedding_Temp st))).
  { rewrite Hk. now apply zero_buffers_keys. }
  apply dict_get_in_some in Hidk as [b Hb].
  destruct (proj1 (shaped_reals d b) (HT _ _ Hb)) as [buf [-> Hlen]].
  exists buf, (sqrt (sum_sq buf)).
  pose proof (norm_rescale eps buf He) as Hnorm.
  unfold rescale in Hnorm. rewrite norm_reals in Hnorm. simpl in Hnorm.
  repeat split.
  - exact Hb.
  - rewrite Hlast, dict_get_renormalize, Hb. simpl.
    unfold rescale. now rewrite norm_reals.
  - exact Hnorm.
  - apply rescale_norm_below_one; [exact He | apply sqrt_pos].
  - apply rescale_norm_below_one; [exact He | apply sqrt_pos].
Qed.

Lemma endpoints_in_single (A B : Z) (ks : list Z) :
  In A ks -> In B ks -> endpoints_in ks (edge_pairs [(A, [B])]).
Proof.
  intros HA HB X Y [H|[]]. injection H as <- <-. now split.
Qed.

Lemma C2_norm_after_update_witness :
  exists st,
    diffuse Tools.EMBEDDING_SIZE Tools.ITERATION_COUNT Tools.EPSILON half_draws
      [1%Z; 2%Z] [(1%Z, [2%Z])] = Ok st
    /\ forall id, In id [1%Z; 2%Z] ->
         exists buf s,
           dict_get (Node_ID_2_Embedding_Temp st) id = Some (map Fin buf)
           /\ s = sqrt (sum_sq buf)
           /\ dict_get (Node_ID_2_Embedding st) id
              = Some (vdiv (map Fin buf) (Fin (s + Tools.EPSILON)))
           /\ norm (vdiv (map Fin buf) (Fin (s + Tools.EPSILON)))
              = Fin (s / (s + Tools.EPSILON))
           /\ 0 <= s / (s + Tools.EPSILON) < 1.
Proof.
  apply C2_norm_after_update.
  - unfold Tools.EPSILON. lra.
  - unfold Tools.ITERATION_COUNT. lia.
  - apply endpoints_in_single; simpl; auto.
  - apply half_draws_nonzero. unfold Tools.EMBEDDING_SIZE. lia.
Defined.

(** C2 fails as stated: on the graph with nodes 1 and 2 joined by one edge,
    the vector of node 1 after the first update has norm 100/101, which is
    further from 1 than any numerical tolerance. *)
Lemma C2_unit_norm_counterexample :
  exists st v,
    diffuse Tools.EMBEDDING_SIZE 1 Tools.EPSILON half_draws
      [1%Z; 2%Z] [(1%Z, [2%Z])] = Ok st
    /\ dict_get (Node_ID_2_Embedding st) 1%Z = Some v
    /\ norm v = Fin (100 / 101)
    /\ 1 / 1000000000 < Rabs (100 / 101 - 1).
Proof.
  set (d := Tools.EMBEDDING_SIZE). set (ids := [1%Z; 2%Z]).
  set (Edges := [(1%Z, [2%Z])]).
  assert (Hnz : nonzero_samples d half_draws (length ids))
    by (apply half_draws_nonzero; unfold d, Tools.EMBEDDING_SIZE; lia).
  assert (Hin : endpoints_in
                  (keys (Node_ID_2_Embedding_Temp (initial_state d half_draws ids)))
                  (edge_pairs Edges)).
  { intros A B HAB. rewrite !initial_keys.
    apply (endpoints_in_single 1%Z 2%Z ids); simpl; auto. }
  destruct (iteration_ok Tools.EPSILON Edges (initial_state d half_draws ids)
              (initial_state_consistent d half_draws ids) Hin)
    as (T & _ & KT & GT & Hst).
  assert (H2 : In 2%Z (keys (initialize d half_draws ids))).
  { rewrite keys_initialize. apply zero_buffers_keys. simpl. auto. }
  apply dict_get_in_some in H2 as [e2 He2].
  destruct (initialize_unit d half_draws ids Hnz _ _ He2) as [Hsh Hone].
  assert (H1 : In 1%Z (keys (zero_buffers d ids)))
    by (apply zero_buffers_keys; simpl; auto).
  apply dict_get_in_some in H1 as [z Hz].
  pose proof (zero_buffers_get _ _ _ _ Hz) as ->.
  assert (HT1 : dict_get T 1%Z = Some e2).
  { rewrite GT. unfold initial_state.
    cbn [Node_ID_2_Embedding_Temp Node_ID_2_Embedding].
    rewrite Hz. cbn [option_map]. f_equal.
    unfold received, partners, Edges. cbn -[initialize np_zeros vadd].
    rewrite (emb_at_get _ _ _ He2). now apply vadd_zeros_l. }
  apply shaped_reals in Hsh as [u [-> Hu]].
  eexists. exists (rescale Tools.EPSILON (map Fin u)).
  split; [unfold diffuse; cbn [iterate]; rewrite Hst; reflexivity|].
  cbn [Node_ID_2_Embedding].
  split; [now rewrite dict_get_renormalize, HT1|].
  split.
  - rewrite norm_rescale by (unfold Tools.EPSILON; lra).
    rewrite norm_reals in Hone. injection Hone as ->.
    f_equal. unfold Tools.EPSILON. field.
  - rewrite Rabs_left by lra. lra.
Qed.

(** ** Nodes without edges *)

Lemma partners_isolated (ps : list (Z * Z)) (id : Z) :
  (forall A B, In (A, B) ps -> A <> id /\ B <> id) -> partners ps id = [].
Proof.
  intros Hiso. destruct (partners ps id) as [|B l] eqn:E; [reflexivity|].
  assert (HB : In B (partners ps id)) by (rewrite E; now left).
  apply (partners_endpoint ps id B) in HB as [H|H]; apply Hiso in H; tauto.
Qed.

Lemma isolated_iterate (d : nat) (eps : R) (Edges : edges) (id : Z) (n : nat) :
  0 < eps ->
  (forall A B, In (A, B) (edge_pairs Edges) -> A <> id /\ B <> id) ->
  forall st st',
    consistent st ->
    dict_get (Node_ID_2_Embedding_Temp st) id = Some (np_zeros d) ->
    iterate eps Edges n st = Ok st' ->
    dict_get (Node_ID_2_Embedding_Temp st') id = Some (np_zeros d)
    /\ ((0 < n)%nat -> dict_get (Node_ID_2_Embedding st') id = Some (np_zeros d)).
Proof.
  intros He Hiso. induction n as [|n IH]; intros st st' Hc Hz; simpl.
  - intros H. injection H as <-. split; [exact Hz | lia].
  - destruct (iteration eps Edges st) as [st1|e] eqn:E1; simpl; [|discriminate].
    intros Hit.
    pose proof (iteration_endpoints eps Edges st st1 Hc E1) as Hin.
    destruct (iteration_ok eps Edges st Hc Hin) as (T & _ & _ & GT & Hst).
    destruct (iteration_consistent eps Edges st st1 Hc E1) as (Hc1 & _ & Hr & _).
    rewrite Hst in E1. injection E1 as <-.
    assert (HT : dict_get T id = Some (np_zeros d)).
    { rewrite GT, Hz. simpl. unfold received.
      now rewrite partners_isolated. }
    destruct (IH _ _ Hc1 HT Hit) as [HT' HE'].
    split; [exact HT'|]. intros _.
    destruct n as [|n]; [|apply HE'; lia].
    simpl in Hit. injection Hit as <-. simpl.
    rewrite dict_get_renormalize, HT. simpl. f_equal.
    now apply rescale_zeros.
Qed.

(** C4: a node without edges has exactly the zero vector after one
    iteration and after every later one, whatever its initial vector and
    for any positive epsilon. *)
Theorem C4_isolated_node_zero_vector
  (d n : nat) (eps : R) (draws : nat -> nat -> R) (Node_IDs : list Z)
  (Edges : edges) (id : Z) :
  0 < eps -> (0 < n)%nat ->
  In id Node_IDs ->
  endpoints_in Node_IDs (edge_pairs Edges) ->
  (forall A B, In (A, B) (edge_pairs Edges) -> A <> id /\ B <> id) ->
  exists st,
    diffuse d n eps draws Node_IDs Edges = Ok st
    /\ dict_get (Node_ID_2_Embedding st) id = Some (np_zeros d).
Proof.
  intros He Hn Hid Hin Hiso.
  destruct (diffuse_ok d n eps draws Node_IDs Edges Hin) as (st & Hd & _).
  exists st. split; [exact Hd|].
  apply (isolated_iterate d eps Edges id n He Hiso
           (initial_state d draws Node_IDs) st); try assumption.
  - apply initial_state_consistent.
  - simpl. assert (Hk : In id (keys (zero_buffers d Node_IDs)))
      by now apply zero_buffers_keys.
    apply dict_get_in_some in Hk as [z Hz].
    now rewrite (zero_buffers_get _ _ _ _ Hz) in Hz.
Qed.

Lemma C4_isolated_node_witness :
  exists st,
    diffuse Tools.EMBEDDING_SIZE Tools.ITERATION_COUNT Tools.EPSILON half_draws
      [1%Z; 2%Z; 3%Z] [(1%Z, [2%Z])] = Ok st
    /\ dict_get (Node_ID_2_Embedding st) 3%Z = Some (np_zeros Tools.EMBEDDING_SIZE).
Proof.
  apply C4_isolated_node_zero_vector.
  - unfold Tools.EPSILON. lra.
  - unfold Tools.ITERATION_COUNT. lia.
  - simpl. auto.
  - apply endpoints_in_single; simpl; auto.
  - intros A B [H|[]]. injection H as <- <-. split; discriminate.
Defined.

(** ** The loss of one pass *)

Lemma np_abs_subtract_reals (a b : list R) :
  length a = length b ->
  np_abs (np_subtract (map Fin a) (map Fin b))
  = map Fin (map (fun p => Rabs (fst p - snd p)) (combine a b)).
Proof.
  unfold np_abs, np_subtract. revert b.
  induction a as [|x a IH]; intros [|y b] H; simpl in *;
    try reflexivity; try discriminate.
  f_equal. apply IH. now injection H.
Qed.

Lemma node_loss_reals (a b : list R) :
  length a = length b -> a <> [] ->
  node_loss (map Fin a) (map Fin b)
  = Fin (Rsum (map (fun p => Rabs (fst p - snd p)) (combine a b))
         / INR (length a)).
Proof.
  intros Hlen Ha. unfold node_loss. rewrite np_abs_subtract_reals by exact Hlen.
  rewrite np_mean_reals.
  - now rewrite length_map, length_combine, <- Hlen, Nat.min_id.
  - destruct a, b; simpl in *; try congruence; discriminate.
Qed.

Lemma Rsum_abs_nonneg {A : Type} (f : A -> R) (l : list A) :
  0 <= Rsum (map (fun p => Rabs (f p)) l).
Proof.
  induction l as [|x l IH]; simpl; [lra|].
  pose proof (Rabs_pos (f x)). lra.
Qed.

Lemma node_loss_nonneg (d : nat) (u v : vec) :
  (0 < d)%nat -> shaped d u -> shaped d v -> nonneg (node_loss u v).
Proof.
  intros Hd Hu Hv.
  apply shaped_reals in Hu as [a [-> Ha]]. apply shaped_reals in Hv as [b [-> Hb]].
  assert (Hne : a <> []) by (intros ->; simpl in Ha; lia).
  rewrite node_loss_reals by congruence.
  eexists. split; [reflexivity|].
  apply Rmult_le_pos; [apply (Rsum_abs_nonneg (fun p => fst p - snd p))|].
  left. apply Rinv_0_lt_compat. now apply INR_length_pos.
Qed.

Lemma combine_zeros_sum (a : list R) :
  sum_sq a <> 0 ->
  0 < Rsum (map (fun p => Rabs (fst p - snd p)) (combine a (repeat 0 (length a)))).
Proof.
  induction a as [|x a IH]; simpl; intros Hn; [congruence|].
  pose proof (Rsum_abs_nonneg (fun p : R * R => fst p - snd p)
                (combine a (repeat 0 (length a)))) as Hrest.
  destruct (Req_dec_T x 0) as [->|Hx].
  - assert (sum_sq a <> 0) by (intros H0; apply Hn; rewrite H0; ring).
    specialize (IH H). pose proof (Rabs_pos (0 - 0)). lra.
  - assert (0 < Rabs (x - 0)) by (apply Rabs_pos_lt; lra). lra.
Qed.

Lemma np_zeros_reals (d : nat) : np_zeros d = map Fin (repeat 0 d).
Proof. unfold np_zeros. induction d; simpl; congruence. Qed.

(** The change from a vector that is not all zero to the zero vector. *)
Lemma node_loss_to_zero (d : nat) (v : vec) :
  shaped d v -> norm v <> Fin 0 -> positive (node_loss v (np_zeros d)).
Proof.
  intros Hv Hn. apply shaped_reals in Hv as [a [-> Ha]].
  apply norm_nonzero_iff in Hn.
  assert (Hne : a <> []) by (intros ->; now apply Hn).
  rewrite np_zeros_reals, node_loss_reals;
    [|now rewrite repeat_length | exact Hne].
  eexists. split; [reflexivity|]. subst d.
  apply Rmult_lt_0_compat; [now apply combine_zeros_sum|].
  apply Rinv_0_lt_compat. now apply INR_length_pos.
Qed.

Lemma node_loss_zero_zero (d : nat) :
  (0 < d)%nat -> node_loss (np_zeros d) (np_zeros d) = Fin 0.
Proof.
  intros Hd. rewrite np_zeros_reals.
  assert (Hne : repeat 0 d <> []) by (destruct d; [lia | discriminate]).
  rewrite node_loss_reals by (auto; reflexivity). f_equal.
  assert (Hs : forall m, Rsum (map (fun p => Rabs (fst p - snd p))
                                 (combine (repeat 0 m) (repeat 0 m))) = 0).
  { induction m as [|m IH]; simpl; [reflexivity|].
    rewrite IH. replace (0 - 0) with 0 by ring. rewrite Rabs_R0. ring. }
  rewrite Hs. unfold Rdiv. ring.
Qed.

Lemma loss_list_Forall (Q : num -> Prop) (Emb New : dict vec) :
  NoDup (keys Emb) ->
  (forall k v, dict_get Emb k = Some v -> Q (node_loss v (emb_at New k))) ->
  Forall Q (loss_list Emb New).
Proof.
  intros Hnd HQ. unfold loss_list. apply Forall_forall. intros x Hx.
  apply in_map_iff in Hx as [[k v] [<- Hin]].
  apply HQ. now apply In_dict_get.
Qed.

Lemma loss_list_nonempty (Emb New : dict vec) :
  keys Emb <> [] -> loss_list Emb New <> [].
Proof. destruct Emb; simpl; [congruence | discriminate]. Qed.

Lemma renormalize_zero_buffers (d : nat) (eps : R) (Node_IDs : list Z) :
  0 < eps ->
  renormalize eps (zero_buffers d Node_IDs) = zero_buffers d Node_IDs.
Proof.
  intros He. apply dict_ext.
  - apply keys_renormalize.
  - rewrite keys_renormalize. apply zero_buffers_NoDup.
  - intros k. rewrite dict_get_renormalize.
    destruct (dict_get (zero_buffers d Node_IDs) k) as [v|] eqn:E;
      simpl; [|reflexivity].
    apply zero_buffers_get in E. subst v. f_equal. now apply rescale_zeros.
Qed.

Lemma zero_buffers_nonempty (d : nat) (Node_IDs : list Z) :
  Node_IDs <> [] -> keys (zero_buffers d Node_IDs) <> [].
Proof.
  intros Hne Hk. destruct Node_IDs as [|id ids]; [congruence|].
  assert (H : In id (keys (zero_buffers d (id :: ids))))
    by (apply zero_buffers_keys; now left).
  now rewrite Hk in H.
Qed.

(** ** The loss trajectory *)

Lemma iteration_loss_nonneg (d : nat) (eps : R) (Edges : edges) (st st' : state) :
  0 < eps -> (0 < d)%nat ->
  consistent st ->
  keys (Node_ID_2_Embedding_Temp st) <> [] ->
  all_values (shaped d) (Node_ID_2_Embedding st) ->
  all_values (shaped d) (Node_ID_2_Embedding_Temp st) ->
  iteration eps Edges st = Ok st' ->
  exists L, Losses st' = Losses st ++ [L] /\ nonneg L.
Proof.
  intros He Hd Hc Hne HE HT Hit.
  destruct (iteration_P (shaped d) eps (shaped_vadd d)
              (fun v => shaped_rescale d eps v He) Edges st st' Hc HE HT Hit)
    as [HE' _].
  pose proof (iteration_endpoints eps Edges st st' Hc Hit) as Hin.
  destruct (iteration_ok eps Edges st Hc Hin) as (T & _ & KT & _ & Hst).
  rewrite Hst in Hit. injection Hit as <-. simpl in *.
  eexists. split; [reflexivity|].
  destruct Hc as [Hk Hnd].
  apply np_mean_nonneg.
  - apply loss_list_nonempty. now rewrite Hk.
  - apply loss_list_Forall; [now rewrite Hk|].
    intros k v Hv. apply (node_loss_nonneg d); [exact Hd | eapply HE; eauto|].
    assert (Hkn : In k (keys (renormalize eps T))).
    { rewrite keys_renormalize, KT, <- Hk. eapply dict_get_some_in; eauto. }
    apply dict_get_in_some in Hkn as [w Hw].
    rewrite (emb_at_get _ _ _ Hw). eapply HE'; eauto.
Qed.

Lemma iterate_losses_nonneg (d : nat) (eps : R) (Edges : edges) (n : nat) :
  0 < eps -> (0 < d)%nat ->
  forall st st',
    consistent st ->
    keys (Node_ID_2_Embedding_Temp st) <> [] ->
    all_values (shaped d) (Node_ID_2_Embedding st) ->
    all_values (shaped d) (Node_ID_2_Embedding_Temp st) ->
    Forall nonneg (Losses st) ->
    iterate eps Edges n st = Ok st' ->
    Forall nonneg (Losses st').
Proof.
  intros He Hd. induction n as [|n IH]; intros st st' Hc Hne HE HT HL; simpl.
  - intros H. now injection H as <-.
  - destruct (iteration eps Edges st) as [st1|e] eqn:E1; simpl; [|discriminate].
    destruct (iteration_loss_nonneg d eps Edges st st1 He Hd Hc Hne HE HT E1)
      as (L & HL1 & HLn).
    destruct (iteration_P (shaped d) eps (shaped_vadd d)
                (fun v => shaped_rescale d eps v He) Edges st st1 Hc HE HT E1)
      as [HE1 HT1].
    destruct (iteration_consistent eps Edges st st1 Hc E1) as (Hc1 & K1 & _).
    apply IH; try assumption.
    + now rewrite K1.
    + rewrite HL1. apply Forall_app. split; [exact HL|]. now repeat constructor.
Qed.

(** C7 (as the code has it): on a graph whose edges connect nodes the run
    completes and appends exactly one loss per iteration, so the trajectory
    has the length of the iteration count.  When moreover epsilon is
    positive, there is at least one node and no initial sample is all zero,
    every entry is a non-negative real number. *)
Theorem C7_loss_trajectory_length_and_sign
  (d n : nat) (eps : R) (draws : nat -> nat -> R) (Node_IDs : list Z)
  (Edges : edges) :
  endpoints_in Node_IDs (edge_pairs Edges) ->
  exists st,
    diffuse d n eps draws Node_IDs Edges = Ok st
    /\ length (Losses st) = n
    /\ (0 < eps -> Node_IDs <> [] ->
        nonzero_samples d draws (length Node_IDs) ->
        Forall nonneg (Losses st)).
Proof.
  intros Hin.
  destruct (diffuse_ok d n eps draws Node_IDs Edges Hin) as (st & Hd & _ & _ & Hl).
  exists st. repeat split; try assumption.
  intros He Hne Hnz.
  assert (Hdim : (0 < d)%nat).
  { apply (nonzero_samples_dim d draws (length Node_IDs)); [|exact Hnz].
    destruct Node_IDs; [congruence | simpl; lia]. }
  apply (iterate_losses_nonneg d eps Edges n He Hdim
           (initial_state d draws Node_IDs) st).
  - apply initial_state_consistent.
  - simpl. now apply zero_buffers_nonempty.
  - simpl. eapply all_values_weaken; [|apply initialize_unit; exact Hnz].
    intros v [H _]. exact H.
  - simpl. apply zero_buffers_values, shaped_zeros.
  - constructor.
  - exact Hd.
Qed.

Lemma C7_loss_trajectory_witness :
  exists st,
    diffuse Tools.EMBEDDING_SIZE Tools.ITERATION_COUNT Tools.EPSILON half_draws
      [1%Z; 2%Z] [(1%Z, [2%Z])] = Ok st
    /\ length (Losses st) = Tools.ITERATION_COUNT
    /\ Forall nonneg (Losses st).
Proof.
  destruct (C7_loss_trajectory_length_and_sign
              Tools.EMBEDDING_SIZE Tools.ITERATION_COUNT Tools.EPSILON half_draws
              [1%Z; 2%Z] [(1%Z, [2%Z])]) as (st & Hd & Hl & Hs).
  - apply endpoints_in_single; simpl; auto.
  - exists st. split; [exact Hd|]. split; [exact Hl|]. apply Hs.
    + unfold Tools.EPSILON. lra.
    + discriminate.
    + apply half_draws_nonzero. unfold Tools.EMBEDDING_SIZE. lia.
Defined.

Lemma iterate_empty (eps : R) (n : nat) :
  forall L,
    iterate eps [] n (mkState [] [] L) = Ok (mkState [] [] (L ++ repeat NaN n)).
Proof.
  induction n as [|n IH]; intros L; simpl.
  - now rewrite app_nil_r.
  - unfold iteration. simpl. rewrite np_mean_empty.
    rewrite IH, <- app_assoc. reflexivity.
Qed.

(** C7 fails as stated: with an empty node set the script completes, and
    each of its 100 losses is the mean of an empty list, which is nan, not
    a non-negative number. *)
Lemma C7_empty_graph_counterexample :
  exists st,
    Embedding_py_diffusion half_draws [] [] = Ok st
    /\ Losses st = repeat NaN Tools.ITERATION_COUNT
    /\ ~ Forall nonneg (Losses st).
Proof.
  eexists. split; [apply (iterate_empty Tools.EPSILON Tools.ITERATION_COUNT [])|].
  split; [reflexivity|]. simpl.
  intros H. inversion H as [|x l [r [Hr _]] _]. discriminate.
Qed.

(** ** A graph without edges *)

Section NoEdges.

Variables (d : nat) (eps : R) (draws : nat -> nat -> R).
Variables (Node_IDs : list Z) (Edges : edges).
Hypothesis eps_pos : 0 < eps.
Hypothesis nodes : Node_IDs <> [].
Hypothesis no_edges : edge_pairs Edges = [].

Let zb := zero_buffers d Node_IDs.

Lemma no_edges_step (Emb : dict vec) (L : list num) :
  keys Emb = keys zb ->
  iteration eps Edges (mkState Emb zb L)
  = Ok (mkState zb zb (L ++ [np_mean (loss_list Emb zb)])).
Proof.
  intros Hk. unfold iteration. simpl.
  rewrite accumulate_flat, no_edges. simpl.
  unfold zb. rewrite renormalize_zero_buffers by exact eps_pos.
  rewrite node_losses_ok; [reflexivity|].
  intros k. now rewrite Hk.
Qed.

Lemma no_edges_first_loss :
  nonzero_samples d draws (length Node_IDs) ->
  positive (np_mean (loss_list (initialize d draws Node_IDs) zb)).
Proof.
  intros Hnz. apply np_mean_positive.
  - apply loss_list_nonempty. rewrite keys_initialize.
    now apply zero_buffers_nonempty.
  - apply loss_list_Forall.
    + rewrite keys_initialize. apply zero_buffers_NoDup.
    + intros k v Hv.
      destruct (initialize_unit d draws Node_IDs Hnz k v Hv) as [Hsh H1].
      assert (Hk : In k (keys zb)).
      { unfold zb. rewrite <- (keys_initialize d draws).
        eapply dict_get_some_in; eauto. }
      apply dict_get_in_some in Hk as [z Hz].
      rewrite (emb_at_get _ _ _ Hz).
      apply zero_buffers_get in Hz. subst z.
      apply node_loss_to_zero; [exact Hsh|]. rewrite H1.
      intros H. injection H as H. lra.
Qed.

Lemma no_edges_later_loss :
  (0 < d)%nat -> np_mean (loss_list zb zb) = Fin 0.
Proof.
  intros Hd. apply np_mean_zeros.
  - apply loss_list_nonempty. now apply zero_buffers_nonempty.
  - apply loss_list_Forall; [apply zero_buffers_NoDup|].
    intros k v Hv. rewrite (emb_at_get _ _ _ Hv).
    apply zero_buffers_get in Hv. subst v. now apply node_loss_zero_zero.
Qed.

Lemma no_edges_iterate (m : nat) :
  (0 < d)%nat ->
  forall L,
    iterate eps Edges m (mkState zb zb L)
    = Ok (mkState zb zb (L ++ repeat (Fin 0) m)).
Proof.
  intros Hd. induction m as [|m IH]; intros L; simpl.
  - now rewrite app_nil_r.
  - rewrite no_edges_step by reflexivity. simpl.
    rewrite IH, no_edges_later_loss by exact Hd.
    now rewrite <- app_assoc.
Qed.

End NoEdges.

(** C5: on a graph with at least one node and no edge, whose initial
    vectors are the unit vectors of samples that are not all zero, the
    first loss is a positive number and every later loss is exactly
    zero. *)
Theorem C5_no_edges_loss_trajectory
  (d m : nat) (eps : R) (draws : nat -> nat -> R) (Node_IDs : list Z)
  (Edges : edges) :
  0 < eps ->
  Node_IDs <> [] ->
  edge_pairs Edges = [] ->
  nonzero_samples d draws (length Node_IDs) ->
  exists st L1,
    diffuse d (S m) eps draws Node_IDs Edges = Ok st
    /\ Losses st = L1 :: repeat (Fin 0) m
    /\ positive L1.
Proof.
  intros He Hne Hno Hnz.
  assert (Hdim : (0 < d)%nat).
  { apply (nonzero_samples_dim d draws (length Node_IDs)); [|exact Hnz].
    destruct Node_IDs; [congruence | simpl; lia]. }
  eexists. eexists. split; [|split].
  - unfold diffuse, initial_state. simpl.
    rewrite (no_edges_step d eps Node_IDs Edges He Hno)
      by apply keys_initialize.
    simpl. apply (no_edges_iterate d eps Node_IDs Edges He Hne Hno m Hdim).
  - reflexivity.
  - now apply no_edges_first_loss.
Qed.

Lemma C5_no_edges_witness :
  exists st L1,
    diffuse Tools.EMBEDDING_SIZE (S 99) Tools.EPSILON half_draws
      [1%Z; 2%Z] [(1%Z, [])] = Ok st
    /\ Losses st = L1 :: repeat (Fin 0) 99
    /\ positive L1.
Proof.
  apply C5_no_edges_loss_trajectory.
  - unfold Tools.EPSILON. lra.
  - discriminate.
  - reflexivity.
  - apply half_draws_nonzero. unfold Tools.EMBEDDING_SIZE. lia.
Defined.

(** ** The accumulation buffers across iterations *)

Lemma norm_zeros (d : nat) : norm (np_zeros d) = Fin 0.
Proof.
  rewrite np_zeros_reals, norm_reals. f_equal.
  replace (sum_sq (repeat 0 d)) with 0; [apply sqrt_0|].
  induction d as [|d IH]; simpl; [reflexivity|]. rewrite <- IH. ring.
Qed.

Lemma vadd_fixes_zero (d : nat) (a e : vec) :
  shaped d a -> shaped d e -> vadd a e = e -> a = np_zeros d.
Proof.
  intros Ha He. apply shaped_reals in Ha as [x [-> Hx]].
  apply shaped_reals in He as [y [-> Hy]].
  rewrite <- Hx in Hy |- *. clear Hx d.
  rewrite np_zeros_reals. unfold vadd. revert y Hy.
  induction x as [|r x IH]; intros [|s y] Hy H; simpl in *;
    try reflexivity; try discriminate.
  injection H as Hr H. injection Hy as Hy.
  rewrite (IH y Hy H). do 2 f_equal. lra.
Qed.

(** One pass from a consistent state whose edges connect nodes: each
    buffer is the buffer the pass found plus the vectors of the node's
    partners. *)
Lemma iteration_buffer (eps : R) (Edges : edges) (st st' : state) (k : Z)
  (b : vec) :
  consistent st ->
  iteration eps Edges st = Ok st' ->
  dict_get (Node_ID_2_Embedding_Temp st) k = Some b ->
  dict_get (Node_ID_2_Embedding_Temp st') k
  = Some (received (Node_ID_2_Embedding st) (edge_pairs Edges) k b).
Proof.
  intros Hc Hit Hb.
  pose proof (iteration_endpoints eps Edges st st' Hc Hit) as Hin.
  destruct (iteration_ok eps Edges st Hc Hin) as (T & _ & _ & GT & Hst).
  rewrite Hst in Hit. injection Hit as <-. simpl. now rewrite GT, Hb.
Qed.

(** C1 fails in the code: the buffers are created once, before the loop,
    and no pass resets them.  On the graph with nodes 1 and 2 joined by one
    edge, the buffer of node 1 is not zero when the second pass starts, and
    after the second pass it holds the vector added by the first pass plus
    the vector added by the second, not the second alone. *)
Theorem C1_buffer_not_reset_between_iterations :
  exists st1 st2 b1 e2,
    diffuse Tools.EMBEDDING_SIZE 1 Tools.EPSILON half_draws
      [1%Z; 2%Z] [(1%Z, [2%Z])] = Ok st1
    /\ diffuse Tools.EMBEDDING_SIZE 2 Tools.EPSILON half_draws
         [1%Z; 2%Z] [(1%Z, [2%Z])] = Ok st2
    /\ dict_get (Node_ID_2_Embedding_Temp st1) 1%Z = Some b1
    /\ b1 <> np_zeros Tools.EMBEDDING_SIZE
    /\ dict_get (Node_ID_2_Embedding st1) 2%Z = Some e2
    /\ dict_get (Node_ID_2_Embedding_Temp st2) 1%Z = Some (vadd b1 e2)
    /\ vadd b1 e2 <> vadd (np_zeros Tools.EMBEDDING_SIZE) e2.
Proof.
  set (d := Tools.EMBEDDING_SIZE). set (eps := Tools.EPSILON).
  set (ids := [1%Z; 2%Z]). set (Edges := [(1%Z, [2%Z])]).
  assert (He : 0 < eps) by (unfold eps, Tools.EPSILON; lra).
  assert (Hnz : nonzero_samples d half_draws (length ids))
    by (apply half_draws_nonzero; unfold d, Tools.EMBEDDING_SIZE; lia).
  assert (Hin : endpoints_in ids (edge_pairs Edges))
    by (apply endpoints_in_single; simpl; auto).
  destruct (diffuse_ok d 1 eps half_draws ids Edges Hin) as (st1 & Hd1 & Hc1 & K1 & _).
  destruct (diffuse_ok d 2 eps half_draws ids Edges Hin) as (st2 & Hd2 & _).
  destruct (diffuse_shaped d 1 eps half_draws ids Edges st1 He Hnz Hd1) as [HE1 HT1].
  (* the first pass *)
  assert (Hit1 : iteration eps Edges (initial_state d half_draws ids) = Ok st1).
  { unfold diffuse in Hd1. cbn [iterate] in Hd1.
    destruct (iteration eps Edges (initial_state d half_draws ids));
      [exact Hd1 | discriminate]. }
  assert (Hit2 : iteration eps Edges st1 = Ok st2).
  { unfold diffuse in Hd2. cbn [iterate] in Hd2. rewrite Hit1 in Hd2.
    cbn [bind] in Hd2.
    destruct (iteration eps Edges st1); [exact Hd2 | discriminate]. }
  assert (H2 : In 2%Z (keys (initialize d half_draws ids))).
  { rewrite keys_initialize. apply zero_buffers_keys. simpl. auto. }
  apply dict_get_in_some in H2 as [e0 He0].
  destruct (initialize_unit d half_draws ids Hnz _ _ He0) as [Hsh0 Hone].
  assert (H1 : In 1%Z (keys (zero_buffers d ids)))
    by (apply zero_buffers_keys; simpl; auto).
  apply dict_get_in_some in H1 as [z Hz].
  pose proof (zero_buffers_get _ _ _ _ Hz) as ->.
  assert (Hb1 : dict_get (Node_ID_2_Embedding_Temp st1) 1%Z = Some e0).
  { rewrite (iteration_buffer eps Edges _ st1 1%Z (np_zeros d)
               (initial_state_consistent d half_draws ids) Hit1 Hz).
    f_equal. unfold received, partners, Edges, initial_state.
    cbn -[initialize np_zeros vadd].
    rewrite (emb_at_get _ _ _ He0). now apply vadd_zeros_l. }
  assert (H2' : In 2%Z (keys (Node_ID_2_Embedding st1))).
  { destruct Hc1 as [-> _]. rewrite K1. apply zero_buffers_keys. simpl. auto. }
  apply dict_get_in_some in H2' as [e2 He2].
  exists st1, st2, e0, e2.
  repeat split; try assumption.
  - intros Heq. rewrite Heq, norm_zeros in Hone. injection Hone as H. lra.
  - rewrite (iteration_buffer eps Edges st1 st2 1%Z e0 Hc1 Hit2 Hb1).
    f_equal. unfold received, partners, Edges. cbn -[vadd].
    now rewrite (emb_at_get _ _ _ He2).
  - rewrite (vadd_zeros_l d e2) by (eapply HE1; eauto).
    intros Heq. apply (vadd_fixes_zero d) in Heq;
      [|exact Hsh0 | eapply HE1; eauto].
    rewrite Heq, norm_zeros in Hone. injection Hone as H. lra.
Qed.

(** ** Symmetry of the whole run *)

(** C6: the update is symmetric in the storage of edges.  One pass adds to
    the buffer of every node the vector of each of its partners, once per
    stored pair: [B] for a pair stored as [(A, B)], [A] for it at [B].
    When two edge dicts list the same undirected edges, each stored under
    either of its endpoints and in any order, the loop ends the same way on
    both: with the same vectors, buffers and losses (in real arithmetic),
    and it completes on both when the edges connect nodes. *)
Theorem C6_update_symmetric_in_edge_storage
  (d n : nat) (eps : R) (draws : nat -> nat -> R) (Node_IDs : list Z)
  (Edges Edges' : edges) :
  same_edges (edge_pairs Edges) (edge_pairs Edges') ->
  (forall st,
      diffuse d n eps draws Node_IDs Edges = Ok st
      <-> diffuse d n eps draws Node_IDs Edges' = Ok st)
  /\ (endpoints_in Node_IDs (edge_pairs Edges) ->
      (exists st,
          diffuse d n eps draws Node_IDs Edges = Ok st
          /\ diffuse d n eps draws Node_IDs Edges' = Ok st)
      /\ exists Temp,
           accumulate (initialize d draws Node_IDs) Edges (zero_buffers d Node_IDs)
           = Ok Temp
           /\ accumulate (initialize d draws Node_IDs) Edges' (zero_buffers d Node_IDs)
              = Ok Temp
           /\ forall k, In k Node_IDs ->
                dict_get Temp k
                = Some (fold_left vadd
                          (map (emb_at (initialize d draws Node_IDs))
                             (partners (edge_pairs Edges) k))
                          (np_zeros d))).
Proof.
  intros Hs.
  assert (Hiff : forall st,
             diffuse d n eps draws Node_IDs Edges = Ok st
             <-> diffuse d n eps draws Node_IDs Edges' = Ok st).
  { intros st. unfold diffuse. split.
    - apply same_edges_iterate; [exact Hs | apply initial_state_consistent].
    - apply same_edges_iterate;
        [now apply same_edges_sym | apply initial_state_consistent]. }
  split; [exact Hiff|]. intros Hin. split.
  - destruct (diffuse_ok d n eps draws Node_IDs Edges Hin) as (st & Hd & _).
    exists st. split; [exact Hd | now apply Hiff].
  - pose (st0 := initial_state d draws Node_IDs).
    assert (Hc : consistent st0) by apply initial_state_consistent.
    assert (Hin0 : endpoints_in (keys (Node_ID_2_Embedding_Temp st0))
                     (edge_pairs Edges)).
    { intros A B HAB. unfold st0. rewrite !initial_keys. now apply Hin. }
    destruct (iteration_ok eps Edges st0 Hc Hin0) as (T & HT & KT & GT & Hst).
    destruct (iteration_ok eps Edges' st0 Hc
                (same_edges_endpoints_in _ _ _ Hs Hin0))
      as (T' & HT' & _ & _ & Hst').
    pose proof (same_edges_iteration eps Edges Edges' st0 _ Hs Hc Hst) as Heq.
    rewrite Hst' in Heq. injection Heq as _ HTT _.
    exists T. split; [exact HT|]. split; [rewrite <- HTT; exact HT'|].
    intros k Hk. rewrite GT. unfold st0. simpl.
    assert (Hkz : In k (keys (zero_buffers d Node_IDs)))
      by now apply zero_buffers_keys.
    apply dict_get_in_some in Hkz as [z Hz]. rewrite Hz.
    apply zero_buffers_get in Hz. now subst z.
Qed.

Lemma C6_update_symmetric_witness :
  (forall st,
      diffuse Tools.EMBEDDING_SIZE Tools.ITERATION_COUNT Tools.EPSILON
        half_draws [1%Z; 2%Z] [(1%Z, [2%Z])] = Ok st
      <-> diffuse Tools.EMBEDDING_SIZE Tools.ITERATION_COUNT Tools.EPSILON
            half_draws [1%Z; 2%Z] [(2%Z, [1%Z])] = Ok st)
  /\ exists st,
       diffuse Tools.EMBEDDING_SIZE Tools.ITERATION_COUNT Tools.EPSILON
         half_draws [1%Z; 2%Z] [(1%Z, [2%Z])] = Ok st
       /\ diffuse Tools.EMBEDDING_SIZE Tools.ITERATION_COUNT Tools.EPSILON
            half_draws [1%Z; 2%Z] [(2%Z, [1%Z])] = Ok st.
Proof.
  assert (H : same_edges (edge_pairs [(1%Z, [2%Z])]) (edge_pairs [(2%Z, [1%Z])])).
  { simpl. apply same_flip. constructor. }
  destruct (C6_update_symmetric_in_edge_storage
              Tools.EMBEDDING_SIZE Tools.ITERATION_COUNT Tools.EPSILON
              half_draws [1%Z; 2%Z] _ _ H) as [Hiff Hok].
  split; [exact Hiff|].
  apply Hok. apply endpoints_in_single; simpl; auto.
Defined.

(** ** Export before projection *)

Lemma length_vadd (d : nat) (u v : vec) :
  length u = d -> length v = d -> length (vadd u v) = d.
Proof. intros Hu Hv. unfold vadd. rewrite zip_with_length; congruence. Qed.

Lemma initialize_lengths (d : nat) (draws : nat -> nat -> R) (Node_IDs : list Z) :
  all_values (fun v => length v = d) (initialize d draws Node_IDs).
Proof.
  intros id v H. apply initialize_get in H as [j [_ ->]].
  unfold unit_scale. now rewrite vdiv_length, uniform_length.
Qed.

(** C10: the export does not depend on the projection.  On a graph whose
    edges connect nodes the loop completes, and whatever the projection
    does, the first effect of the script is to write the embedding file
    with the vectors the loop left: one array of [d] numbers per node.
    When the projection raises, the script ends with that error after the
    file and the loss plot, and the written vectors are the same. *)
Theorem C10_export_independent_of_projection
  (d n : nat) (eps : R) (draws : nat -> nat -> R) (Node_IDs : list Z)
  (Edges : edges) :
  endpoints_in Node_IDs (edge_pairs Edges) ->
  exists st,
    diffuse d n eps draws Node_IDs Edges = Ok st
    /\ (forall id, In id (keys (Node_ID_2_Embedding st)) <-> In id Node_IDs)
    /\ (forall id v, dict_get (Node_ID_2_Embedding st) id = Some v -> length v = d)
    /\ forall (percentile : list R -> R -> num)
              (fit_transform : list vec -> result (list point)),
         (exists drawn outcome,
             Embedding_py percentile fit_transform d n eps draws Node_IDs Edges
             = (Write_Node_Embeddings (Node_ID_2_Embedding st)
                  :: Plot_Losses (seq 1 n) (Losses st) :: drawn, outcome))
         /\ forall e,
             fit_transform (map snd (Node_ID_2_Embedding st)) = Raise e ->
             Embedding_py percentile fit_transform d n eps draws Node_IDs Edges
             = ([Write_Node_Embeddings (Node_ID_2_Embedding st);
                 Plot_Losses (seq 1 n) (Losses st)], Raise e).
Proof.
  intros Hin.
  destruct (diffuse_ok d n eps draws Node_IDs Edges Hin) as (st & Hd & Hc & Hk & _).
  exists st. split; [exact Hd|]. split; [|split].
  - intros id. destruct Hc as [-> _]. rewrite Hk. apply zero_buffers_keys.
  - apply (iterate_P (fun v => length v = d) eps (length_vadd d)
             (fun v Hv => eq_trans (vdiv_length v _) Hv)
             Edges n (initial_state d draws Node_IDs) st).
    + apply initial_state_consistent.
    + apply initialize_lengths.
    + simpl. apply zero_buffers_values, np_zeros_length.
    + exact Hd.
  - intros percentile fit_transform. unfold Embedding_py. rewrite Hd.
    split.
    + destruct (visualize percentile fit_transform Node_IDs Edges
                  (Node_ID_2_Embedding st)) as [drawn outcome].
      now exists drawn, outcome.
    + intros e He. unfold visualize. rewrite He. reflexivity.
Qed.

Lemma C10_export_witness :
  exists st,
    diffuse Tools.EMBEDDING_SIZE Tools.ITERATION_COUNT Tools.EPSILON half_draws
      [1%Z] [] = Ok st
    /\ (forall id, In id (keys (Node_ID_2_Embedding st)) <-> In id [1%Z])
    /\ (forall id v, dict_get (Node_ID_2_Embedding st) id = Some v ->
                     length v = Tools.EMBEDDING_SIZE)
    /\ forall (percentile : list R -> R -> num)
              (fit_transform : list vec -> result (list point)),
         (exists drawn outcome,
             Embedding_py percentile fit_transform Tools.EMBEDDING_SIZE
               Tools.ITERATION_COUNT Tools.EPSILON half_draws [1%Z] []
             = (Write_Node_Embeddings (Node_ID_2_Embedding st)
                  :: Plot_Losses (seq 1 Tools.ITERATION_COUNT) (Losses st)
                  :: drawn, outcome))
         /\ forall e,
             fit_transform (map snd (Node_ID_2_Embedding st)) = Raise e ->
             Embedding_py percentile fit_transform Tools.EMBEDDING_SIZE
               Tools.ITERATION_COUNT Tools.EPSILON half_draws [1%Z] []
             = ([Write_Node_Embeddings (Node_ID_2_Embedding st);
                 Plot_Losses (seq 1 Tools.ITERATION_COUNT) (Losses st)], Raise e).
Proof.
  apply C10_export_independent_of_projection.
  intros A B [].
Defined.

(** ** Sparsification *)

Lemma segments_from_spec (Node_IDs : list Z) (E2D : list point) (A : Z)
  (pA : point) (Bs : list Z) :
  forall segs,
    segments_from Node_IDs E2D A pA Bs = Ok segs ->
    map (fun s => (seg_A s, seg_B s)) segs = map (fun B => (A, B)) Bs
    /\ forall s, In s segs ->
         seg_point_A s = pA
         /\ node_point Node_IDs E2D (seg_B s) = Ok (seg_point_B s).
Proof.
  induction Bs as [|B Bs IH]; intros segs; simpl.
  - intros H. injection H as <-. split; [reflexivity | contradiction].
  - destruct (node_point Node_IDs E2D B) as [pB|e] eqn:EB; simpl; [|discriminate].
    destruct (segments_from Node_IDs E2D A pA Bs) as [rest|e] eqn:ER;
      simpl; [|discriminate].
    intros H. injection H as <-. destruct (IH rest eq_refl) as [Hm Hp].
    split; [simpl; now rewrite Hm|].
    intros s [<-|Hs]; [simpl; auto | now apply Hp].
Qed.

Lemma segments_spec (Node_IDs : list Z) (E2D : list point) (Edges : edges) :
  forall segs,
    segments Node_IDs E2D Edges = Ok segs ->
    map (fun s => (seg_A s, seg_B s)) segs = edge_pairs Edges
    /\ forall s, In s segs ->
         node_point Node_IDs E2D (seg_A s) = Ok (seg_point_A s)
         /\ node_point Node_IDs E2D (seg_B s) = Ok (seg_point_B s).
Proof.
  induction Edges as [|[A Bs] Edges IH]; intros segs; simpl.
  - intros H. injection H as <-. split; [reflexivity | contradiction].
  - destruct (node_point Node_IDs E2D A) as [pA|e] eqn:EA; simpl; [|discriminate].
    destruct (segments_from Node_IDs E2D A pA Bs) as [here|e] eqn:EH;
      simpl; [|discriminate].
    destruct (segments Node_IDs E2D Edges) as [rest|e] eqn:ER;
      simpl; [|discriminate].
    intros H. injection H as <-.
    destruct (segments_from_spec _ _ _ _ _ _ EH) as [Hm Hp].
    destruct (IH rest eq_refl) as [Hm' Hp'].
    split.
    + unfold edge_pairs in *. simpl. now rewrite map_app, Hm, Hm'.
    + intros s Hs. apply in_app_iff in Hs as [Hs|Hs]; [|now apply Hp'].
      destruct (Hp s Hs) as [HA HB]. split; [|exact HB].
      rewrite HA.
      assert (HsA : seg_A s = A).
      { assert (Hi : In (seg_A s, seg_B s) (map (fun B => (A, B)) Bs)).
        { rewrite <- Hm. now apply (in_map (fun s => (seg_A s, seg_B s))). }
        apply in_map_iff in Hi as [B [Hi _]]. now injection Hi. }
      now rewrite HsA.
Qed.

Lemma index_in (l : list Z) (x : Z) :
  In x l -> exists i, index l x = Ok i /\ (i < length l)%nat.
Proof.
  induction l as [|y l IH]; simpl; [contradiction|].
  intros H. destruct (Z.eqb_spec x y) as [->|Hne].
  - exists 0%nat. split; [reflexivity | lia].
  - destruct IH as [i [Hi Hlt]]; [destruct H; congruence|].
    exists (S i). rewrite Hi. split; [reflexivity | lia].
Qed.

Lemma index_not_in (l : list Z) (x : Z) :
  ~ In x l -> index l x = Raise (ValueError x).
Proof.
  induction l as [|y l IH]; simpl; intros H; [reflexivity|].
  destruct (Z.eqb_spec x y) as [->|Hne]; [exfalso; apply H; now left|].
  rewrite IH; [reflexivity|]. intros Hin. apply H. now right.
Qed.

Lemma node_point_in (Node_IDs : list Z) (E2D : list point) (x : Z) :
  length E2D = length Node_IDs -> In x Node_IDs ->
  exists p, node_point Node_IDs E2D x = Ok p.
Proof.
  intros Hlen Hin. destruct (index_in _ _ Hin) as [i [Hi Hlt]].
  unfold node_point, row. rewrite Hi. simpl.
  destruct (nth_error E2D i) as [p|] eqn:E; [now exists p|].
  apply nth_error_None in E. lia.
Qed.

Lemma segments_from_in (Node_IDs : list Z) (E2D : list point) (A : Z)
  (pA : point) (Bs : list Z) :
  length E2D = length Node_IDs -> (forall B, In B Bs -> In B Node_IDs) ->
  exists segs, segments_from Node_IDs E2D A pA Bs = Ok segs.
Proof.
  intros Hlen. induction Bs as [|B Bs IH]; intros HBs; simpl; [now exists []|].
  destruct (node_point_in Node_IDs E2D B Hlen) as [pB HpB]; [apply HBs; now left|].
  destruct IH as [rest Hr]; [intros; apply HBs; now right|].
  rewrite HpB. cbn [bind]. rewrite Hr. simpl. eauto.
Qed.

Lemma segments_in (Node_IDs : list Z) (E2D : list point) (Edges : edges) :
  length E2D = length Node_IDs ->
  (forall A, In A (keys Edges) -> In A Node_IDs) ->
  endpoints_in Node_IDs (edge_pairs Edges) ->
  exists segs, segments Node_IDs E2D Edges = Ok segs.
Proof.
  intros Hlen. induction Edges as [|[A Bs] Edges IH]; intros Hk Hin; simpl;
    [now exists []|].
  destruct (node_point_in Node_IDs E2D A Hlen) as [pA HpA]; [apply Hk; now left|].
  destruct (segments_from_in Node_IDs E2D A pA Bs Hlen) as [here Hh].
  { intros B HB. apply (Hin A B). unfold edge_pairs. simpl.
    apply in_app_iff. left. now apply in_map. }
  destruct IH as [rest Hr].
  { intros X HX. apply Hk. now right. }
  { intros X Y HXY. apply Hin. unfold edge_pairs in *. simpl.
    apply in_app_iff. now right. }
  rewrite HpA. cbn [bind]. rewrite Hh. cbn [bind]. rewrite Hr. simpl. eauto.
Qed.

Lemma node_point_index (Node_IDs : list Z) (E2D : list point) (x : Z) (p : point) :
  node_point Node_IDs E2D x = Ok p ->
  exists i, index Node_IDs x = Ok i /\ nth_error E2D i = Some p.
Proof.
  unfold node_point, row. destruct (index Node_IDs x) as [i|e]; simpl; [|discriminate].
  destruct (nth_error E2D i) as [q|] eqn:E; [|discriminate].
  intros H. injection H as <-. now exists i.
Qed.

(** C9: the second loop draws exactly the edges whose projected length,
    the Euclidean distance between the rows of the two endpoints in the
    projection, is at most the 90th percentile of the lengths of all
    stored edges; an edge at the threshold is drawn, an edge strictly
    longer is not.  The script gets that far when the projection returned
    one row per node, the edge dict mentions nodes only and stores at least
    one edge; the percentile is numpy's, with linear interpolation. *)
Theorem C9_sparsification_keeps_edges_within_threshold
  (percentile : list R -> R -> num)
  (fit_transform : list vec -> result (list point))
  (Node_IDs : list Z) (Edges : edges) (Emb : dict vec)
  (Embeddings_2D : list point) :
  let distance := fun s : segment =>
    sqrt ((fst (seg_point_A s) - fst (seg_point_B s))
          * (fst (seg_point_A s) - fst (seg_point_B s))
          + (snd (seg_point_A s) - snd (seg_point_B s))
            * (snd (seg_point_A s) - snd (seg_point_B s))) in
  fit_transform (map snd Emb) = Ok Embeddings_2D ->
  length Embeddings_2D = length Node_IDs ->
  (forall A, In A (keys Edges) -> In A Node_IDs) ->
  endpoints_in Node_IDs (edge_pairs Edges) ->
  edge_pairs Edges <> [] ->
  (forall a, a <> [] -> percentile a 90 = Fin (linear_percentile a 90)) ->
  exists segs t,
    map (fun s => (seg_A s, seg_B s)) segs = edge_pairs Edges
    /\ (forall s, In s segs ->
          exists iA iB,
            index Node_IDs (seg_A s) = Ok iA
            /\ nth_error Embeddings_2D iA = Some (seg_point_A s)
            /\ index Node_IDs (seg_B s) = Ok iB
            /\ nth_error Embeddings_2D iB = Some (seg_point_B s))
    /\ t = linear_percentile (map distance segs) 90
    /\ visualize percentile fit_transform Node_IDs Edges Emb
       = (map plot_line
            (filter (fun s => if Rle_dec (distance s) t then true else false) segs)
            ++ [Scatter Embeddings_2D], Ok tt)
    /\ forall s, In s segs ->
         (In s (filter (fun s => if Rle_dec (distance s) t then true else false) segs)
          <-> distance s <= t)
         /\ (~ In s (filter (fun s => if Rle_dec (distance s) t then true else false)
                       segs)
             <-> t < distance s).
Proof.
  intros distance Hfit Hlen Hk Hin Hne Hperc.
  destruct (segments_in Node_IDs Embeddings_2D Edges Hlen Hk Hin) as [segs Hsegs].
  destruct (segments_spec _ _ _ _ Hsegs) as [Hm Hp].
  exists segs, (linear_percentile (map distance segs) 90).
  assert (Hsne : map Length segs <> []).
  { intros H0. apply Hne. rewrite <- Hm.
    destruct segs; [reflexivity | discriminate]. }
  split; [exact Hm|]. split; [|split; [reflexivity|split]].
  - intros s Hs. destruct (Hp s Hs) as [HA HB].
    apply node_point_index in HA as [iA [HiA HrA]].
    apply node_point_index in HB as [iB [HiB HrB]].
    now exists iA, iB.
  - unfold visualize, Length_2D_Threshold, np_percentile.
    rewrite Hfit, Hsegs.
    destruct (map Length segs) as [|x xs] eqn:EL; [congruence|].
    rewrite <- EL, (Hperc (map Length segs)) by (rewrite EL; discriminate).
    reflexivity.
  - intros s Hs.
    assert (Hkeep : In s (filter (fun s => if Rle_dec (distance s) (linear_percentile (map distance segs) 90)
                                           then true else false) segs)
                    <-> distance s <= linear_percentile (map distance segs) 90).
    { rewrite filter_In.
      destruct (Rle_dec (distance s) (linear_percentile (map distance segs) 90));
        split; intros H; try tauto; try (destruct H; discriminate). }
    split; [exact Hkeep|]. rewrite Hkeep. split; intros H; lra.
Qed.

Lemma length_2D_horizontal (x : R) : 0 <= x -> length_2D (0, 0) (x, 0) = x.
Proof.
  intros Hx. unfold length_2D. simpl.
  replace ((0 - x) * (0 - x) + (0 - 0) * (0 - 0)) with (x * x) by ring.
  now apply sqrt_square.
Qed.

Lemma C9_sparsification_witness :
  let distance := fun s : segment =>
    sqrt ((fst (seg_point_A s) - fst (seg_point_B s))
          * (fst (seg_point_A s) - fst (seg_point_B s))
          + (snd (seg_point_A s) - snd (seg_point_B s))
            * (snd (seg_point_A s) - snd (seg_point_B s))) in
  let percentile := fun (a : list R) (_ : R) => Fin (linear_percentile a 90) in
  let fit_transform := fun _ : list vec => Ok [(0, 0); (1, 0); (2, 0)] in
  exists segs t,
    map (fun s => (seg_A s, seg_B s)) segs = edge_pairs [(1%Z, [2%Z; 3%Z])]
    /\ (forall s, In s segs ->
          exists iA iB,
            index [1%Z; 2%Z; 3%Z] (seg_A s) = Ok iA
            /\ nth_error [(0, 0); (1, 0); (2, 0)] iA = Some (seg_point_A s)
            /\ index [1%Z; 2%Z; 3%Z] (seg_B s) = Ok iB
            /\ nth_error [(0, 0); (1, 0); (2, 0)] iB = Some (seg_point_B s))
    /\ t = linear_percentile (map distance segs) 90
    /\ visualize percentile fit_transform [1%Z; 2%Z; 3%Z] [(1%Z, [2%Z; 3%Z])] []
       = (map plot_line
            (filter (fun s => if Rle_dec (distance s) t then true else false) segs)
            ++ [Scatter [(0, 0); (1, 0); (2, 0)]], Ok tt)
    /\ forall s, In s segs ->
         (In s (filter (fun s => if Rle_dec (distance s) t then true else false) segs)
          <-> distance s <= t)
         /\ (~ In s (filter (fun s => if Rle_dec (distance s) t then true else false)
                       segs)
             <-> t < distance s).
Proof.
  intros distance percentile fit_transform.
  apply (C9_sparsification_keeps_edges_within_threshold
           percentile fit_transform [1%Z; 2%Z; 3%Z] [(1%Z, [2%Z; 3%Z])] []
           [(0, 0); (1, 0); (2, 0)]).
  - reflexivity.
  - reflexivity.
  - intros A [<-|[]]. simpl. auto.
  - intros A B [H|[H|[]]]; injection H as <- <-; simpl; auto.
  - discriminate.
  - reflexivity.
Defined.

(** On three nodes projected to (0,0), (1,0) and (2,0), with the edges from
    node 1 to the two others, the lengths are 1 and 2 and their 90th
    percentile is 1.9: the script draws the edge of length 1 only. *)
Example sparsification_threshold :
  linear_percentile
    (map Length [mkSegment 1 2 (0, 0) (1, 0); mkSegment 1 3 (0, 0) (2, 0)]) 90
  = 19 / 10
  /\ retained (Fin (19 / 10))
       [mkSegment 1 2 (0, 0) (1, 0); mkSegment 1 3 (0, 0) (2, 0)]
     = [mkSegment 1 2 (0, 0) (1, 0)].
Proof.
  split.
  - unfold Length. cbn [map seg_point_A seg_point_B].
    rewrite !length_2D_horizontal by lra.
    unfold linear_percentile, Rsort. cbn [fold_right Rinsert length].
    destruct (Rle_dec 1 2) as [_|H]; [|lra].
    replace (90 * (2 - 1))%nat with 90%nat by reflexivity.
    replace (90 / 100)%nat with 0%nat by reflexivity.
    replace (90 mod 100)%nat with 90%nat by reflexivity.
    replace (Nat.min (0 + 1) (2 - 1)) with 1%nat by reflexivity.
    cbn [nth]. rewrite (INR_IZR_INZ 90). cbn [Z.of_nat Pos.of_succ_nat Pos.succ].
    lra.
  - unfold retained, keeps, Length. cbn [filter nle seg_point_A seg_point_B].
    rewrite !length_2D_horizontal by lra.
    destruct (Rle_dec 1 (19 / 10)) as [_|H]; [|lra].
    destruct (Rle_dec 2 (19 / 10)) as [H|_]; [lra | reflexivity].
Qed.

(** The boundary is inclusive: a single stored edge is its own 90th
    percentile, and it is drawn. *)
Example sparsification_boundary (s : segment) :
  linear_percentile (map Length [s]) 90 = Length s
  /\ retained (Fin (Length s)) [s] = [s].
Proof.
  split.
  - unfold linear_percentile, Rsort. cbn [map fold_right Rinsert length].
    replace (90 * (1 - 1))%nat with 0%nat by reflexivity.
    replace (0 / 100)%nat with 0%nat by reflexivity.
    replace (0 mod 100)%nat with 0%nat by reflexivity.
    replace (Nat.min (0 + 1) (1 - 1)) with 0%nat by reflexivity.
    cbn [nth INR]. lra.
  - unfold retained, keeps. cbn [filter nle].
    destruct (Rle_dec (Length s) (Length s)) as [_|H]; [reflexivity | lra].
Qed.

(** * The aggregation script *)

(** ** The edge dict *)

Lemma has_key_in {V : Type} (m : dict V) (k : Z) :
  has_key m k = true <-> In k (keys m).
Proof.
  unfold has_key. split.
  - destruct (dict_get m k) eqn:E; [|discriminate].
    intros _. eapply dict_get_some_in; eauto.
  - intros H. apply dict_get_in_some in H as [v ->]. reflexivity.
Qed.

Lemma has_key_false {V : Type} (m : dict V) (k : Z) :
  has_key m k = false <-> dict_get m k = None.
Proof.
  unfold has_key. destruct (dict_get m k); split; intros H;
    try discriminate; reflexivity.
Qed.

Lemma existsb_eqb_in (x : Z) (l : list Z) :
  existsb (Z.eqb x) l = true <-> In x l.
Proof.
  rewrite existsb_exists. split.
  - intros [y [Hy Heq]]. apply Z.eqb_eq in Heq. now subst.
  - intros H. exists x. split; [exact H | apply Z.eqb_refl].
Qed.

(** What is stored after one edge: what was stored, and the edge under
    its smaller endpoint. *)
Lemma add_Edge_stored (Edges : dict (list Z)) (Edge : Edge_json) (A B : Z) :
  stored (add_Edge Edges Edge) A B
  <-> stored Edges A B
      \/ (A = Z.min (edge_from Edge) (edge_to Edge)
          /\ B = Z.max (edge_from Edge) (edge_to Edge)).
Proof.
  unfold add_Edge, stored.
  set (N1 := Z.min (edge_from Edge) (edge_to Edge)).
  set (N2 := Z.max (edge_from Edge) (edge_to Edge)).
  destruct (has_key Edges N1) eqn:Hk.
  - (* the key exists *)
    apply has_key_in in Hk. apply dict_get_in_some in Hk as [Bs HBs].
    rewrite HBs. destruct (existsb (Z.eqb N2) Bs) eqn:Hex.
    + apply existsb_eqb_in in Hex. split; [now left|].
      intros [H|[-> ->]]; [exact H | now exists Bs].
    + split.
      * intros [l [Hl Hin]]. destruct (Z.eq_dec A N1) as [->|Hne].
        -- rewrite dict_get_set_eq in Hl. injection Hl as <-.
           apply in_app_iff in Hin as [Hin|[<-|[]]]; [left; now exists Bs | now right].
        -- rewrite dict_get_set_neq in Hl by exact Hne. left. now exists l.
      * intros [[l [Hl Hin]]|[-> ->]].
        -- destruct (Z.eq_dec A N1) as [->|Hne].
           ++ rewrite dict_get_set_eq. exists (Bs ++ [N2]). split; [reflexivity|].
              rewrite HBs in Hl. injection Hl as <-. apply in_app_iff. now left.
           ++ rewrite dict_get_set_neq by exact Hne. now exists l.
        -- rewrite dict_get_set_eq. exists (Bs ++ [N2]). split; [reflexivity|].
           apply in_app_iff. right. now left.
  - (* a new key *)
    apply has_key_false in Hk. rewrite dict_get_set_eq. simpl. split.
    + intros [l [Hl Hin]]. destruct (Z.eq_dec A N1) as [->|Hne].
      * rewrite dict_get_set_eq in Hl. injection Hl as <-.
        destruct Hin as [<-|[]]. now right.
      * rewrite !dict_get_set_neq in Hl by exact Hne. left. now exists l.
    + intros [[l [Hl Hin]]|[-> ->]].
      * destruct (Z.eq_dec A N1) as [->|Hne]; [congruence|].
        rewrite !dict_get_set_neq by exact Hne. now exists l.
      * rewrite dict_get_set_eq. exists [N2]. split; [reflexivity | now left].
Qed.

Lemma add_Edge_canonical (Edges : dict (list Z)) (Edge : Edge_json) :
  canonical Edges -> canonical (add_Edge Edges Edge).
Proof.
  intros [Hnd Hl]. unfold add_Edge.
  set (N1 := Z.min (edge_from Edge) (edge_to Edge)).
  set (N2 := Z.max (edge_from Edge) (edge_to Edge)).
  assert (H12 : (N1 <= N2)%Z) by (unfold N1, N2; lia).
  destruct (has_key Edges N1) eqn:Hk.
  - apply has_key_in in Hk. apply dict_get_in_some in Hk as [Bs HBs].
    rewrite HBs. destruct (existsb (Z.eqb N2) Bs) eqn:Hex; [now split|].
    destruct (Hl _ _ HBs) as (Hne & HndB & Hle).
    split; [now apply NoDup_keys_set|].
    intros A l. destruct (Z.eq_dec A N1) as [->|HA].
    + rewrite dict_get_set_eq. intros H. injection H as <-.
      split; [now destruct Bs | split].
      * apply NoDup_app; [exact HndB | repeat constructor; auto |].
        intros x Hx [<-|[]].
        apply existsb_eqb_in in Hx. congruence.
      * intros B HB. apply in_app_iff in HB as [HB|[<-|[]]]; auto.
    + rewrite dict_get_set_neq by exact HA. apply Hl.
  - apply has_key_false in Hk. rewrite dict_get_set_eq. simpl.
    split; [now apply NoDup_keys_set, NoDup_keys_set|].
    intros A l. destruct (Z.eq_dec A N1) as [->|HA].
    + rewrite dict_get_set_eq. intros H. injection H as <-.
      split; [discriminate | split].
      * repeat constructor. auto.
      * intros B [<-|[]]. exact H12.
    + rewrite !dict_get_set_neq by exact HA. apply Hl.
Qed.

Lemma canonical_empty : canonical [].
Proof. split; [constructor | intros A Bs H; discriminate]. Qed.

Lemma fold_add_Edge (es : list Edge_json) :
  forall Edges,
    canonical Edges ->
    canonical (fold_left add_Edge es Edges)
    /\ forall A B,
         stored (fold_left add_Edge es Edges) A B
         <-> stored Edges A B
             \/ exists e, In e es
                          /\ A = Z.min (edge_from e) (edge_to e)
                          /\ B = Z.max (edge_from e) (edge_to e).
Proof.
  induction es as [|e es IH]; intros Edges Hc; simpl.
  - split; [exact Hc|]. intros A B. split; [now left|].
    intros [H|[e [[] _]]]. exact H.
  - destruct (IH (add_Edge Edges e) (add_Edge_canonical _ _ Hc)) as [Hc' Hs].
    split; [exact Hc'|]. intros A B. rewrite Hs, add_Edge_stored. split.
    + intros [[H|[HA HB]]|[e' [Hin H]]]; [now left | |].
      * right. exists e. split; [now left | now split].
      * right. exists e'. split; [now right | exact H].
    + intros [H|[e' [[<-|Hin] H]]]; [left; now left | left; now right |].
      right. now exists e'.
Qed.

Lemma aggregate_edges (networks : list Network_Data) :
  forall acc,
    snd (fold_left aggregate_network networks acc)
    = fold_left add_Edge (all_edges networks) (snd acc).
Proof.
  unfold all_edges.
  induction networks as [|net nets IH]; intros acc; simpl; [reflexivity|].
  rewrite IH, fold_left_app. f_equal. unfold aggregate_network.
  destruct (net_edges net) as [|e es]; reflexivity.
Qed.

Lemma stored_pairs (Edges : dict (list Z)) (A B : Z) :
  NoDup (keys Edges) ->
  In (A, B) (edge_pairs Edges) <-> stored Edges A B.
Proof.
  intros Hnd. unfold edge_pairs, stored. rewrite in_flat_map. split.
  - intros [[A' Bs] [Hin HB]]. apply in_map_iff in HB as [B' [Heq HB]].
    injection Heq as -> ->. exists Bs. split; [now apply In_dict_get | exact HB].
  - intros [Bs [HBs HB]]. exists (A, Bs). split; [now apply dict_get_In|].
    now apply in_map.
Qed.

Lemma Aggregated_Edges_fold (networks : list Network_Data) :
  Aggregated_Edges networks = fold_left add_Edge (all_edges networks) [].
Proof. unfold Aggregated_Edges, aggregate. apply aggregate_edges. Qed.

Lemma Aggregated_Edges_canonical (networks : list Network_Data) :
  canonical (Aggregated_Edges networks).
Proof.
  rewrite Aggregated_Edges_fold. apply fold_add_Edge, canonical_empty.
Qed.

Lemma canonical_pairs_NoDup (Edges : dict (list Z)) :
  canonical Edges -> NoDup (edge_pairs Edges).
Proof.
  intros [Hnd Hl]. unfold edge_pairs.
  induction Edges as [|[A Bs] Edges IH]; simpl; [constructor|].
  inversion Hnd as [|? ? HA Hnd']; subst.
  apply NoDup_app.
  - apply Finite.Injective_map_NoDup.
    + intros x y H. now injection H.
    + apply (Hl A Bs). simpl. now rewrite Z.eqb_refl.
  - apply IH; [exact Hnd'|]. intros A' Bs' H. apply (Hl A' Bs'). simpl.
    destruct (Z.eqb_spec A' A) as [->|_]; [|exact H].
    exfalso. apply HA. eapply dict_get_some_in; eauto.
  - intros [X Y] H1 H2. apply in_map_iff in H1 as [B [Heq _]].
    injection Heq as <- <-. apply in_flat_map in H2 as [[A' Bs'] [Hin HB]].
    apply in_map_iff in HB as [B' [Heq _]]. injection Heq as -> _.
    apply HA. change (In (fst (A, Bs')) (map fst Edges)). now apply in_map.
Qed.

(** Every stored edge has its smaller endpoint as the key: [sorted] put it
    first. *)
Theorem Aggregated_Edges_smaller_first (networks : list Network_Data) :
  Forall (fun p => (fst p <= snd p)%Z) (edge_pairs (Aggregated_Edges networks)).
Proof.
  destruct (Aggregated_Edges_canonical networks) as [Hnd Hl].
  apply Forall_forall. intros [A B] Hin.
  apply stored_pairs in Hin as [Bs [HBs HB]]; [|exact Hnd].
  simpl. now apply (Hl A Bs).
Qed.

(** No edge is stored twice: the keys are distinct and so are the stored
    pairs, however often and in whichever direction the networks report an
    edge. *)
Theorem Aggregated_Edges_no_duplicates (networks : list Network_Data) :
  NoDup (keys (Aggregated_Edges networks))
  /\ NoDup (edge_pairs (Aggregated_Edges networks)).
Proof.
  split.
  - apply Aggregated_Edges_canonical.
  - apply canonical_pairs_NoDup, Aggregated_Edges_canonical.
Qed.

(** The stored pairs are exactly the edges of the networks, each as
    (smaller endpoint, larger endpoint). *)
Theorem Aggregated_Edges_membership (networks : list Network_Data) (A B : Z) :
  In (A, B) (edge_pairs (Aggregated_Edges networks))
  <-> exists e, In e (all_edges networks)
                /\ A = Z.min (edge_from e) (edge_to e)
                /\ B = Z.max (edge_from e) (edge_to e).
Proof.
  rewrite stored_pairs by apply Aggregated_Edges_canonical.
  rewrite Aggregated_Edges_fold.
  destruct (fold_add_Edge (all_edges networks) [] canonical_empty) as [_ Hs].
  rewrite Hs. split; [|now right].
  intros [[Bs [H _]]|H]; [discriminate | exact H].
Qed.

(** Every key of the edge dict has at least one neighbour: a key is
    created only for the edge that is appended next. *)
Theorem Aggregated_Edges_keys_have_neighbours (networks : list Network_Data) :
  Forall (fun entry => snd entry <> []) (Aggregated_Edges networks).
Proof.
  destruct (Aggregated_Edges_canonical networks) as [Hnd Hl].
  apply Forall_forall. intros [A Bs] Hin. simpl.
  apply (Hl A Bs). now apply In_dict_get.
Qed.

(** An edge that is already stored changes nothing, in whichever direction
    it is reported again. *)
Theorem add_Edge_already_stored (Edges : dict (list Z)) (a b : Z) :
  stored Edges (Z.min a b) (Z.max a b) ->
  add_Edge Edges (mkEdge a b) = Edges /\ add_Edge Edges (mkEdge b a) = Edges.
Proof.
  intros [Bs [HBs HB]].
  assert (H : add_Edge Edges (mkEdge a b) = Edges).
  { unfold add_Edge. simpl.
    assert (Hk : has_key Edges (Z.min a b) = true).
    { apply has_key_in. eapply dict_get_some_in; eauto. }
    rewrite Hk, HBs.
    apply existsb_eqb_in in HB. now rewrite HB. }
  split; [exact H|].
  unfold add_Edge in *. simpl in *.
  now rewrite (Z.min_comm b a), (Z.max_comm b a).
Qed.

Lemma add_Edge_already_stored_witness :
  add_Edge [(3%Z, [5%Z])] (mkEdge 3 5) = [(3%Z, [5%Z])]
  /\ add_Edge [(3%Z, [5%Z])] (mkEdge 5 3) = [(3%Z, [5%Z])].
Proof.
  apply (add_Edge_already_stored [(3%Z, [5%Z])] 3 5).
  exists [5%Z]. split; [reflexivity | now left].
Defined.

(** ** The node dict *)

Lemma add_Node_keys (Nodes : dict Cleaned_Node) (Node : Node_json) (id : Z) :
  In id (keys (add_Node Nodes Node)) <-> id = node_id Node \/ In id (keys Nodes).
Proof.
  unfold add_Node. destruct (has_key Nodes (node_id Node)) eqn:Hk.
  - apply has_key_in in Hk. split; [now right|]. intros [->|H]; assumption.
  - apply in_keys_set.
Qed.

Lemma add_Node_NoDup (Nodes : dict Cleaned_Node) (Node : Node_json) :
  NoDup (keys Nodes) -> NoDup (keys (add_Node Nodes Node)).
Proof.
  intros H. unfold add_Node. destruct (has_key Nodes (node_id Node));
    [exact H | now apply NoDup_keys_set].
Qed.

(** A record that is in the dict stays as it is. *)
Lemma add_Node_keeps (Nodes : dict Cleaned_Node) (Node : Node_json) (id : Z)
  (c : Cleaned_Node) :
  dict_get Nodes id = Some c -> dict_get (add_Node Nodes Node) id = Some c.
Proof.
  intros H. unfold add_Node. destruct (has_key Nodes (node_id Node)) eqn:Hk;
    [exact H|].
  apply has_key_false in Hk.
  destruct (Z.eq_dec id (node_id Node)) as [->|Hne]; [congruence|].
  now rewrite dict_get_set_neq.
Qed.

Lemma add_Node_new (Nodes : dict Cleaned_Node) (Node : Node_json) :
  dict_get Nodes (node_id Node) = None ->
  dict_get (add_Node Nodes Node) (node_id Node)
  = Some (mkCleaned (node_name Node) (clean_family (node_family Node))).
Proof.
  intros H. unfold add_Node. apply has_key_false in H. rewrite H.
  apply dict_get_set_eq.
Qed.

Lemma fold_add_Node_keys (ns : list Node_json) :
  forall Nodes id,
    In id (keys (fold_left add_Node ns Nodes))
    <-> In id (map node_id ns) \/ In id (keys Nodes).
Proof.
  induction ns as [|n ns IH]; intros Nodes id; simpl; [tauto|].
  rewrite IH, add_Node_keys. intuition.
Qed.

Lemma fold_add_Node_NoDup (ns : list Node_json) :
  forall Nodes, NoDup (keys Nodes) -> NoDup (keys (fold_left add_Node ns Nodes)).
Proof.
  induction ns as [|n ns IH]; intros Nodes H; simpl; [exact H|].
  apply IH. now apply add_Node_NoDup.
Qed.

Lemma fold_add_Node_keeps (ns : list Node_json) :
  forall Nodes id c,
    dict_get Nodes id = Some c ->
    dict_get (fold_left add_Node ns Nodes) id = Some c.
Proof.
  induction ns as [|n ns IH]; intros Nodes id c H; simpl; [exact H|].
  apply IH. now apply add_Node_keeps.
Qed.

Lemma fold_add_Node_none (ns : list Node_json) :
  forall Nodes id,
    dict_get Nodes id = None -> ~ In id (map node_id ns) ->
    dict_get (fold_left add_Node ns Nodes) id = None.
Proof.
  intros Nodes id Hn Hni. apply dict_get_none. rewrite fold_add_Node_keys.
  intros [H|H]; [contradiction|].
  apply dict_get_in_some in H as [c Hc]. congruence.
Qed.

Lemma aggregate_network_nodes (acc : dict Cleaned_Node * dict (list Z))
  (net : Network_Data) :
  fst (aggregate_network acc net)
  = match net_edges net with
    | [] => fst acc
    | _ :: _ => fold_left add_Node (net_nodes net) (fst acc)
    end.
Proof. unfold aggregate_network. destruct (net_edges net); reflexivity. Qed.

Lemma aggregate_nodes_keys (networks : list Network_Data) :
  forall acc id,
    In id (keys (fst (fold_left aggregate_network networks acc)))
    <-> (exists net, In net networks /\ net_edges net <> []
                     /\ In id (map node_id (net_nodes net)))
        \/ In id (keys (fst acc)).
Proof.
  induction networks as [|net nets IH]; intros acc id; simpl.
  - split; [now right | intros [[net [[] _]]|H]; exact H].
  - rewrite IH, aggregate_network_nodes. split.
    + intros [[n' [Hin H]]|H].
      * left. exists n'. split; [now right | exact H].
      * destruct (net_edges net) as [|e es] eqn:Ee; [now right|].
        apply fold_add_Node_keys in H as [H|H]; [|now right].
        left. exists net. split; [now left|]. rewrite Ee. split; [discriminate | exact H].
    + intros [[n' [[<-|Hin] [Hne H]]]|H].
      * right. destruct (net_edges net) as [|e es]; [congruence|].
        apply fold_add_Node_keys. now left.
      * left. exists n'. now split.
      * right. destruct (net_edges net) as [|e es]; [exact H|].
        apply fold_add_Node_keys. now right.
Qed.

Lemma aggregate_nodes_NoDup (networks : list Network_Data) :
  forall acc,
    NoDup (keys (fst acc)) ->
    NoDup (keys (fst (fold_left aggregate_network networks acc))).
Proof.
  induction networks as [|net nets IH]; intros acc H; simpl; [exact H|].
  apply IH. rewrite aggregate_network_nodes.
  destruct (net_edges net); [exact H | now apply fold_add_Node_NoDup].
Qed.

Lemma aggregate_nodes_keeps (networks : list Network_Data) :
  forall acc id c,
    dict_get (fst acc) id = Some c ->
    dict_get (fst (fold_left aggregate_network networks acc)) id = Some c.
Proof.
  induction networks as [|net nets IH]; intros acc id c H; simpl; [exact H|].
  apply IH. rewrite aggregate_network_nodes.
  destruct (net_edges net); [exact H | now apply fold_add_Node_keeps].
Qed.

(** The nodes of the dict are the nodes listed by the networks that have
    at least one edge, each once; the nodes of a network without edges are
    left out. *)
Theorem Aggregated_Nodes_keys (networks : list Network_Data) :
  NoDup (keys (Aggregated_Nodes networks))
  /\ forall id,
       In id (keys (Aggregated_Nodes networks))
       <-> exists net, In net networks /\ net_edges net <> []
                       /\ In id (map node_id (net_nodes net)).
Proof.
  split.
  - apply aggregate_nodes_NoDup. constructor.
  - intros id. unfold Aggregated_Nodes, aggregate.
    rewrite aggregate_nodes_keys. simpl. tauto.
Qed.

(** The first record of a node is the one kept: the record of the first
    network with edges that lists the node, at its first position there. *)
Theorem Aggregated_Nodes_first_record_wins
  (networks pre post : list Network_Data) (net : Network_Data)
  (l1 l2 : list Node_json) (n : Node_json) :
  networks = pre ++ net :: post ->
  (forall p, In p pre ->
     net_edges p = [] \/ ~ In (node_id n) (map node_id (net_nodes p))) ->
  net_edges net <> [] ->
  net_nodes net = l1 ++ n :: l2 ->
  ~ In (node_id n) (map node_id l1) ->
  dict_get (Aggregated_Nodes networks) (node_id n)
  = Some (mkCleaned (node_name n) (clean_family (node_family n))).
Proof.
  intros -> Hpre Hne Hnodes Hl1.
  unfold Aggregated_Nodes, aggregate. rewrite fold_left_app. simpl.
  apply aggregate_nodes_keeps. rewrite aggregate_network_nodes.
  destruct (net_edges net) as [|e es]; [congruence|].
  rewrite Hnodes, fold_left_app. simpl.
  apply fold_add_Node_keeps, add_Node_new, fold_add_Node_none; [|exact Hl1].
  apply dict_get_none. rewrite aggregate_nodes_keys. simpl.
  intros [[p [Hp [Hpe Hpn]]]|[]].
  destruct (Hpre p Hp); contradiction.
Qed.

Lemma Aggregated_Nodes_first_record_witness :
  dict_get
    (Aggregated_Nodes
       [mkNetwork [mkNode 1 "A"%string "x"%string] [];
        mkNetwork [mkNode 2 "B"%string "y"%string; mkNode 1 "C"%string "z"%string] [mkEdge 1 2];
        mkNetwork [mkNode 1 "D"%string "w"%string] [mkEdge 1 1]])
    (node_id (mkNode 1 "C"%string "z"%string))
  = Some (mkCleaned (node_name (mkNode 1 "C"%string "z"%string))
            (clean_family (node_family (mkNode 1 "C"%string "z"%string)))).
Proof.
  apply (Aggregated_Nodes_first_record_wins _
           [mkNetwork [mkNode 1 "A"%string "x"%string] []]
           [mkNetwork [mkNode 1 "D"%string "w"%string] [mkEdge 1 1]]
           (mkNetwork [mkNode 2 "B"%string "y"%string; mkNode 1 "C"%string "z"%string] [mkEdge 1 2])
           [mkNode 2 "B"%string "y"%string] []).
  - reflexivity.
  - intros p [<-|[]]. now left.
  - discriminate.
  - reflexivity.
  - simpl. intros [H|[]]. discriminate.
Defined.

(** ** From the aggregation to the diffusion *)

Lemma keys_zero_buffers_from (d : nat) (ids : list Z) :
  forall m : dict vec,
    NoDup (keys m ++ ids) ->
    keys (fold_left (fun m Node_ID => dict_set m Node_ID (np_zeros d)) ids m)
    = keys m ++ ids.
Proof.
  induction ids as [|id ids IH]; intros m Hnd; simpl.
  - now rewrite app_nil_r.
  - assert (Hni : ~ In id (keys m)).
    { intros Hin. apply NoDup_remove_2 in Hnd. apply Hnd.
      apply in_app_iff. now left. }
    rewrite IH; rewrite keys_set_absent by exact Hni.
    + now rewrite <- app_assoc.
    + now rewrite <- app_assoc.
Qed.

Lemma keys_zero_buffers (d : nat) (Node_IDs : list Z) :
  NoDup Node_IDs -> keys (zero_buffers d Node_IDs) = Node_IDs.
Proof. intros H. unfold zero_buffers. now rewrite keys_zero_buffers_from. Qed.

Lemma iterate_keys (eps : R) (Edges : edges) (n : nat) :
  forall st st',
    consistent st -> iterate eps Edges n st = Ok st' ->
    consistent st'
    /\ keys (Node_ID_2_Embedding_Temp st') = keys (Node_ID_2_Embedding_Temp st)
    /\ length (Losses st') = (length (Losses st) + n)%nat.
Proof.
  induction n as [|n IH]; intros st st' Hc; simpl.
  - intros H. injection H as <-. repeat split; try apply Hc. lia.
  - destruct (iteration eps Edges st) as [st1|e] eqn:E1; simpl; [|discriminate].
    destruct (iteration_consistent eps Edges st st1 Hc E1) as (Hc1 & K1 & _ & L1).
    intros H. destruct (IH _ _ Hc1 H) as (Hc' & K' & L').
    split; [exact Hc'|]. split; [congruence | lia].
Qed.

Lemma diffuse_keys (d n : nat) (eps : R) (draws : nat -> nat -> R)
  (Node_IDs : list Z) (Edges : edges) (st : state) :
  NoDup Node_IDs ->
  diffuse d n eps draws Node_IDs Edges = Ok st ->
  keys (Node_ID_2_Embedding st) = Node_IDs
  /\ keys (Node_ID_2_Embedding_Temp st) = Node_IDs.
Proof.
  intros Hnd Hd.
  destruct (iterate_keys eps Edges n (initial_state d draws Node_IDs) st
              (initial_state_consistent d draws Node_IDs) Hd) as ([Hk _] & K & _).
  simpl in K. rewrite keys_zero_buffers in K by exact Hnd.
  split; congruence.
Qed.

(** With distinct node IDs the vectors and the buffers stay listed in the
    order of [Node_IDs] through the whole loop: row [i] of the array handed
    to the projection is the vector of the node that [Node_IDs.index]
    finds at [i], and the embedding file lists the nodes in that order. *)
Theorem diffuse_keeps_node_order
  (d n : nat) (eps : R) (draws : nat -> nat -> R) (Node_IDs : list Z)
  (Edges : edges) :
  NoDup Node_IDs ->
  endpoints_in Node_IDs (edge_pairs Edges) ->
  exists st,
    diffuse d n eps draws Node_IDs Edges = Ok st
    /\ keys (Node_ID_2_Embedding st) = Node_IDs
    /\ keys (Node_ID_2_Embedding_Temp st) = Node_IDs
    /\ length (map snd (Node_ID_2_Embedding st)) = length Node_IDs.
Proof.
  intros Hnd Hin.
  destruct (diffuse_ok d n eps draws Node_IDs Edges Hin) as (st & Hd & _).
  destruct (diffuse_keys d n eps draws Node_IDs Edges st Hnd Hd) as [HE HT].
  exists st. repeat split; try assumption.
  rewrite length_map, <- HE. unfold keys. now rewrite length_map.
Qed.

Lemma diffuse_keeps_node_order_witness :
  exists st,
    diffuse Tools.EMBEDDING_SIZE Tools.ITERATION_COUNT Tools.EPSILON half_draws
      [2%Z; 1%Z] [(1%Z, [2%Z])] = Ok st
    /\ keys (Node_ID_2_Embedding st) = [2%Z; 1%Z]
    /\ keys (Node_ID_2_Embedding_Temp st) = [2%Z; 1%Z]
    /\ length (map snd (Node_ID_2_Embedding st)) = length [2%Z; 1%Z].
Proof.
  apply diffuse_keeps_node_order.
  - repeat constructor; simpl; intuition discriminate.
  - apply endpoints_in_single; simpl; auto.
Defined.

(** When every edge of a network joins two nodes that the network lists,
    the aggregated files make a graph the diffusion accepts: every
    endpoint and every key of the edge dict is a node, and the loop
    completes for any number of iterations, keeping the node order. *)
Theorem aggregate_then_diffuse
  (networks : list Network_Data) (d n : nat) (eps : R)
  (draws : nat -> nat -> R) :
  (forall net e, In net networks -> In e (net_edges net) ->
     In (edge_from e) (map node_id (net_nodes net))
     /\ In (edge_to e) (map node_id (net_nodes net))) ->
  endpoints_in (keys (Aggregated_Nodes networks))
    (edge_pairs (Aggregated_Edges networks))
  /\ (forall A, In A (keys (Aggregated_Edges networks)) ->
        In A (keys (Aggregated_Nodes networks)))
  /\ exists st,
       diffuse d n eps draws (keys (Aggregated_Nodes networks))
         (Aggregated_Edges networks) = Ok st
       /\ keys (Node_ID_2_Embedding st) = keys (Aggregated_Nodes networks).
Proof.
  intros Hwf.
  destruct (Aggregated_Nodes_keys networks) as [Hnd Hkeys].
  assert (Hends : endpoints_in (keys (Aggregated_Nodes networks))
                    (edge_pairs (Aggregated_Edges networks))).
  { intros A B HAB. apply Aggregated_Edges_membership in HAB as [e [He [-> ->]]].
    unfold all_edges in He. apply in_flat_map in He as [net [Hnet He]].
    destruct (Hwf net e Hnet He) as [Hf Ht].
    assert (Hne : net_edges net <> []) by (intros H0; now rewrite H0 in He).
    assert (Hin : forall x, In x (map node_id (net_nodes net)) ->
                            In x (keys (Aggregated_Nodes networks))).
    { intros x Hx. apply Hkeys. now exists net. }
    split.
    - destruct (Z.min_spec (edge_from e) (edge_to e)) as [[_ ->]|[_ ->]]; auto.
    - destruct (Z.max_spec (edge_from e) (edge_to e)) as [[_ ->]|[_ ->]]; auto. }
  split; [exact Hends|]. split.
  - intros A HA. apply dict_get_in_some in HA as [Bs HBs].
    destruct (Aggregated_Edges_canonical networks) as [HndE Hl].
    destruct (Hl A Bs HBs) as (Hne & _ & _).
    destruct Bs as [|B Bs]; [congruence|].
    apply (Hends A B). apply stored_pairs; [exact HndE|].
    exists (B :: Bs). split; [exact HBs | now left].
  - destruct (diffuse_ok d n eps draws _ _ Hends) as (st & Hd & _).
    exists st. split; [exact Hd|].
    now apply (diffuse_keys d n eps draws _ _ st Hnd Hd).
Qed.

Lemma aggregate_then_diffuse_witness :
  let networks := [mkNetwork [mkNode 7 "A"%string "x"%string; mkNode 4 "B"%string "y"%string] [mkEdge 7 4]] in
  endpoints_in (keys (Aggregated_Nodes networks))
    (edge_pairs (Aggregated_Edges networks))
  /\ (forall A, In A (keys (Aggregated_Edges networks)) ->
        In A (keys (Aggregated_Nodes networks)))
  /\ exists st,
       diffuse Tools.EMBEDDING_SIZE Tools.ITERATION_COUNT Tools.EPSILON half_draws
         (keys (Aggregated_Nodes networks)) (Aggregated_Edges networks) = Ok st
       /\ keys (Node_ID_2_Embedding st) = keys (Aggregated_Nodes networks).
Proof.
  intros networks. apply aggregate_then_diffuse.
  intros net e [<-|[]] [<-|[]]. simpl. auto.
Defined.

(** * More on the embedding script *)

(** ** Which sample a node gets *)

Lemma initialize_from_untouched (d : nat) (draws : nat -> nat -> R)
  (ids : list Z) (id : Z) :
  ~ In id ids ->
  forall k m, dict_get (initialize_from d draws k ids m) id = dict_get m id.
Proof.
  induction ids as [|x ids IH]; intros Hni k m; simpl; [reflexivity|].
  rewrite IH by (intros H; apply Hni; now right).
  apply dict_get_set_neq. intros ->. apply Hni. now left.
Qed.

Lemma initialize_from_app (d : nat) (draws : nat -> nat -> R) (l1 l2 : list Z) :
  forall k m,
    initialize_from d draws k (l1 ++ l2) m
    = initialize_from d draws (k + length l1) l2 (initialize_from d draws k l1 m).
Proof.
  induction l1 as [|x l1 IH]; intros k m; simpl.
  - now rewrite Nat.add_0_r.
  - rewrite IH. f_equal. lia.
Qed.

(** The loop of lines 16 to 19 draws one sample per position of
    [Node_IDs], also for an ID that occurs again: a node's vector comes
    from the sample drawn at its last position.  With distinct IDs the node
    at position [k] gets sample [k]. *)
Theorem initialize_uses_last_position
  (d : nat) (draws : nat -> nat -> R) (Node_IDs l1 l2 : list Z) (id : Z) :
  Node_IDs = l1 ++ id :: l2 ->
  ~ In id l2 ->
  dict_get (initialize d draws Node_IDs) id
  = Some (unit_scale (uniform d draws (length l1))).
Proof.
  intros -> Hni. unfold initialize. rewrite initialize_from_app. simpl.
  rewrite initialize_from_untouched by exact Hni.
  apply dict_get_set_eq.
Qed.

Lemma initialize_uses_last_position_witness :
  dict_get (initialize Tools.EMBEDDING_SIZE half_draws [5%Z; 7%Z; 5%Z]) 5%Z
  = Some (unit_scale (uniform Tools.EMBEDDING_SIZE half_draws (length [5%Z; 7%Z]))).
Proof.
  apply (initialize_uses_last_position _ _ _ [5%Z; 7%Z] []).
  - reflexivity.
  - intros [].
Defined.

(** ** The loss trajectory only grows *)

Lemma iteration_appends_loss (eps : R) (Edges : edges) (st st' : state) :
  consistent st -> iteration eps Edges st = Ok st' ->
  exists L, Losses st' = Losses st ++ [L].
Proof.
  intros Hc Hit.
  pose proof (iteration_endpoints eps Edges st st' Hc Hit) as Hin.
  destruct (iteration_ok eps Edges st Hc Hin) as (T & _ & _ & _ & Hst).
  rewrite Hst in Hit. injection Hit as <-. simpl. eauto.
Qed.

Lemma iterate_appends_losses (eps : R) (Edges : edges) (m : nat) :
  forall st st',
    consistent st -> iterate eps Edges m st = Ok st' ->
    exists tail, Losses st' = Losses st ++ tail /\ length tail = m.
Proof.
  induction m as [|m IH]; intros st st' Hc; simpl.
  - intros H. injection H as <-. exists []. now rewrite app_nil_r.
  - destruct (iteration eps Edges st) as [st1|e] eqn:E1; simpl; [|discriminate].
    intros H.
    destruct (iteration_appends_loss eps Edges st st1 Hc E1) as [L HL].
    destruct (iteration_consistent eps Edges st st1 Hc E1) as (Hc1 & _).
    destruct (IH _ _ Hc1 H) as (tail & Ht & Hlen).
    exists (L :: tail). split; [|simpl; lia].
    rewrite Ht, HL, <- app_assoc. reflexivity.
Qed.

Lemma iterate_plus (eps : R) (Edges : edges) (n m : nat) :
  forall st,
    iterate eps Edges (n + m) st
    = (st' <- iterate eps Edges n st ;; iterate eps Edges m st').
Proof.
  induction n as [|n IH]; intros st; simpl; [reflexivity|].
  destruct (iteration eps Edges st); simpl; [apply IH | reflexivity].
Qed.

(** The loss trajectory is append-only: running [m] more iterations keeps
    the [n] losses already recorded and adds [m] after them, so the loss of
    an iteration does not depend on how many follow. *)
Theorem losses_append_only
  (d n m : nat) (eps : R) (draws : nat -> nat -> R) (Node_IDs : list Z)
  (Edges : edges) :
  endpoints_in Node_IDs (edge_pairs Edges) ->
  exists st st' tail,
    diffuse d n eps draws Node_IDs Edges = Ok st
    /\ diffuse d (n + m) eps draws Node_IDs Edges = Ok st'
    /\ Losses st' = Losses st ++ tail
    /\ length (Losses st) = n /\ length tail = m.
Proof.
  intros Hin.
  destruct (diffuse_ok d n eps draws Node_IDs Edges Hin) as (st & Hd & Hc & _ & Hl).
  destruct (diffuse_ok d (n + m) eps draws Node_IDs Edges Hin) as (st' & Hd' & _).
  assert (Hm : iterate eps Edges m st = Ok st').
  { unfold diffuse in Hd, Hd'. rewrite iterate_plus, Hd in Hd'. exact Hd'. }
  destruct (iterate_appends_losses eps Edges m st st' Hc Hm) as (tail & Ht & Hlen).
  exists st, st', tail. repeat split; assumption.
Qed.

Lemma losses_append_only_witness :
  exists st st' tail,
    diffuse Tools.EMBEDDING_SIZE 40 Tools.EPSILON half_draws
      [1%Z; 2%Z] [(1%Z, [2%Z])] = Ok st
    /\ diffuse Tools.EMBEDDING_SIZE (40 + 60) Tools.EPSILON half_draws
         [1%Z; 2%Z] [(1%Z, [2%Z])] = Ok st'
    /\ Losses st' = Losses st ++ tail
    /\ length (Losses st) = 40%nat /\ length tail = 60%nat.
Proof.
  apply losses_append_only.
  apply endpoints_in_single; simpl; auto.
Defined.

(** ** How the script ends *)

(** The first key of the edge dict that is not a node stops the edge-length
    loop with [ValueError]. *)
Lemma segments_foreign_key (Node_IDs : list Z) (E2D : list point) (Edges : edges) :
  length E2D = length Node_IDs ->
  endpoints_in Node_IDs (edge_pairs Edges) ->
  (exists A, In A (keys Edges) /\ ~ In A Node_IDs) ->
  exists A, In A (keys Edges) /\ ~ In A Node_IDs
            /\ segments Node_IDs E2D Edges = Raise (ValueError A).
Proof.
  intros Hlen. induction Edges as [|[A Bs] Edges IH]; intros Hin [X [HX HnX]];
    [contradiction|].
  destruct (in_dec Z.eq_dec A Node_IDs) as [HA|HA].
  - destruct IH as [Y (HY & HnY & Hr)].
    + intros P Q HPQ. apply Hin. unfold edge_pairs in *. simpl.
      apply in_app_iff. now right.
    + exists X. split; [|exact HnX]. destruct HX as [<-|HX]; [contradiction | exact HX].
    + exists Y. split; [now right|]. split; [exact HnY|]. simpl.
      destruct (node_point_in Node_IDs E2D A Hlen HA) as [pA HpA].
      destruct (segments_from_in Node_IDs E2D A pA Bs Hlen) as [here Hh].
      { intros B HB. apply (Hin A B). unfold edge_pairs. simpl.
        apply in_app_iff. left. now apply in_map. }
      rewrite HpA. cbn [bind]. rewrite Hh. cbn [bind]. now rewrite Hr.
  - exists A. split; [now left|]. split; [exact HA|]. simpl.
    unfold node_point. now rewrite index_not_in.
Qed.

(** On a graph with distinct node IDs whose edge dict mentions nodes only
    (as keys and as neighbours) and stores at least one edge, and with a
    projection that returns one point per row, the script runs to its end:
    it writes the embeddings, plots the losses, draws the retained edges, at
    most one line per stored edge, and the scatter plot last. *)
Theorem Embedding_py_completes
  (percentile : list R -> R -> num)
  (fit_transform : list vec -> result (list point))
  (d n : nat) (eps : R) (draws : nat -> nat -> R) (Node_IDs : list Z)
  (Edges : edges) :
  NoDup Node_IDs ->
  (forall A, In A (keys Edges) -> In A Node_IDs) ->
  endpoints_in Node_IDs (edge_pairs Edges) ->
  edge_pairs Edges <> [] ->
  (forall X, exists E2D, fit_transform X = Ok E2D /\ length E2D = length X) ->
  exists st E2D segs,
    diffuse d n eps draws Node_IDs Edges = Ok st
    /\ fit_transform (map snd (Node_ID_2_Embedding st)) = Ok E2D
    /\ segments Node_IDs E2D Edges = Ok segs
    /\ map (fun s => (seg_A s, seg_B s)) segs = edge_pairs Edges
    /\ Embedding_py percentile fit_transform d n eps draws Node_IDs Edges
       = (export n st
            ++ map plot_line (retained (percentile (map Length segs) 90) segs)
            ++ [Scatter E2D], Ok tt)
    /\ (length (retained (percentile (map Length segs) 90%R) segs)
        <= length (edge_pairs Edges))%nat.
Proof.
  intros Hnd Hk Hin Hne Hfit.
  destruct (diffuse_keeps_node_order d n eps draws Node_IDs Edges Hnd Hin)
    as (st & Hd & _ & _ & Hlen).
  destruct (Hfit (map snd (Node_ID_2_Embedding st))) as (E2D & HE & HlenE).
  rewrite Hlen in HlenE.
  destruct (segments_in Node_IDs E2D Edges HlenE Hk Hin) as [segs Hs].
  destruct (segments_spec _ _ _ _ Hs) as [Hm _].
  exists st, E2D, segs. repeat split; try assumption.
  - unfold Embedding_py, visualize, Length_2D_Threshold, np_percentile.
    rewrite Hd, HE, Hs.
    destruct (map Length segs) as [|x xs] eqn:EL; [|reflexivity].
    exfalso. apply Hne. rewrite <- Hm.
    destruct segs; [reflexivity | discriminate].
  - rewrite <- Hm, length_map. unfold retained. apply filter_length_le.
Qed.

Lemma Embedding_py_completes_witness :
  let percentile := fun (a : list R) (_ : R) => Fin (linear_percentile a 90) in
  let fit_transform := fun X : list vec => Ok (map (fun _ => (0, 0)) X) in
  exists st E2D segs,
    diffuse Tools.EMBEDDING_SIZE Tools.ITERATION_COUNT Tools.EPSILON half_draws
      [1%Z; 2%Z] [(1%Z, [2%Z])] = Ok st
    /\ fit_transform (map snd (Node_ID_2_Embedding st)) = Ok E2D
    /\ segments [1%Z; 2%Z] E2D [(1%Z, [2%Z])] = Ok segs
    /\ map (fun s => (seg_A s, seg_B s)) segs = edge_pairs [(1%Z, [2%Z])]
    /\ Embedding_py percentile fit_transform Tools.EMBEDDING_SIZE
         Tools.ITERATION_COUNT Tools.EPSILON half_draws [1%Z; 2%Z] [(1%Z, [2%Z])]
       = (export Tools.ITERATION_COUNT st
            ++ map plot_line (retained (percentile (map Length segs) 90) segs)
            ++ [Scatter E2D], Ok tt)
    /\ (length (retained (percentile (map Length segs) 90%R) segs)
        <= length (edge_pairs [(1%Z, [2%Z])]))%nat.
Proof.
  intros percentile fit_transform.
  apply Embedding_py_completes.
  - repeat constructor; simpl; intuition discriminate.
  - intros A [<-|[]]. simpl. auto.
  - apply endpoints_in_single; simpl; auto.
  - discriminate.
  - intros X. eexists. split; [reflexivity | apply length_map].
Defined.

(** Without a stored edge the list of edge lengths is empty and
    [np.percentile] raises [IndexError]: the script writes the embeddings
    and plots the losses, then ends with that error; nothing of the second
    figure is drawn. *)
Theorem Embedding_py_no_edge_IndexError
  (percentile : list R -> R -> num)
  (fit_transform : list vec -> result (list point))
  (d n : nat) (eps : R) (draws : nat -> nat -> R) (Node_IDs : list Z)
  (Edges : edges) :
  NoDup Node_IDs ->
  (forall A, In A (keys Edges) -> In A Node_IDs) ->
  edge_pairs Edges = [] ->
  (forall X, exists E2D, fit_transform X = Ok E2D /\ length E2D = length X) ->
  exists st,
    diffuse d n eps draws Node_IDs Edges = Ok st
    /\ Embedding_py percentile fit_transform d n eps draws Node_IDs Edges
       = (export n st, Raise (IndexError (-1))).
Proof.
  intros Hnd Hk Hno Hfit.
  assert (Hin : endpoints_in Node_IDs (edge_pairs Edges)).
  { rewrite Hno. intros A B []. }
  destruct (diffuse_keeps_node_order d n eps draws Node_IDs Edges Hnd Hin)
    as (st & Hd & _ & _ & Hlen).
  destruct (Hfit (map snd (Node_ID_2_Embedding st))) as (E2D & HE & HlenE).
  rewrite Hlen in HlenE.
  destruct (segments_in Node_IDs E2D Edges HlenE Hk Hin) as [segs Hs].
  destruct (segments_spec _ _ _ _ Hs) as [Hm _].
  exists st. split; [exact Hd|].
  assert (Hsegs : segs = []).
  { rewrite Hno in Hm. destruct segs; [reflexivity | discriminate]. }
  unfold Embedding_py, visualize, Length_2D_Threshold, np_percentile.
  rewrite Hd, HE, Hs, Hsegs. reflexivity.
Qed.

Lemma Embedding_py_no_edge_witness :
  let percentile := fun (a : list R) (_ : R) => Fin (linear_percentile a 90) in
  let fit_transform := fun X : list vec => Ok (map (fun _ => (0, 0)) X) in
  exists st,
    diffuse Tools.EMBEDDING_SIZE Tools.ITERATION_COUNT Tools.EPSILON half_draws
      [1%Z; 2%Z] [(1%Z, [])] = Ok st
    /\ Embedding_py percentile fit_transform Tools.EMBEDDING_SIZE
         Tools.ITERATION_COUNT Tools.EPSILON half_draws [1%Z; 2%Z] [(1%Z, [])]
       = (export Tools.ITERATION_COUNT st, Raise (IndexError (-1))).
Proof.
  intros percentile fit_transform.
  apply Embedding_py_no_edge_IndexError.
  - repeat constructor; simpl; intuition discriminate.
  - intros A [<-|[]]. simpl. auto.
  - reflexivity.
  - intros X. eexists. split; [reflexivity | apply length_map].
Defined.

(** A key of the edge dict that is not a node and has no neighbours passes
    the diffusion loop, which looks keys up only while adding a neighbour;
    the edge-length loop then raises [ValueError] on it, after the embeddings
    were written and before anything is drawn. *)
Theorem Embedding_py_foreign_key_ValueError
  (percentile : list R -> R -> num)
  (fit_transform : list vec -> result (list point))
  (d n : nat) (eps : R) (draws : nat -> nat -> R) (Node_IDs : list Z)
  (Edges : edges) :
  NoDup Node_IDs ->
  endpoints_in Node_IDs (edge_pairs Edges) ->
  (exists A, In A (keys Edges) /\ ~ In A Node_IDs) ->
  (forall X, exists E2D, fit_transform X = Ok E2D /\ length E2D = length X) ->
  exists st A,
    diffuse d n eps draws Node_IDs Edges = Ok st
    /\ In A (keys Edges) /\ ~ In A Node_IDs
    /\ Embedding_py percentile fit_transform d n eps draws Node_IDs Edges
       = (export n st, Raise (ValueError A)).
Proof.
  intros Hnd Hin Hforeign Hfit.
  destruct (diffuse_keeps_node_order d n eps draws Node_IDs Edges Hnd Hin)
    as (st & Hd & _ & _ & Hlen).
  destruct (Hfit (map snd (Node_ID_2_Embedding st))) as (E2D & HE & HlenE).
  rewrite Hlen in HlenE.
  destruct (segments_foreign_key Node_IDs E2D Edges HlenE Hin Hforeign)
    as (A & HA & HnA & Hr).
  exists st, A. repeat split; try assumption.
  unfold Embedding_py, visualize. rewrite Hd, HE, Hr.
  now rewrite app_nil_r.
Qed.

Lemma Embedding_py_foreign_key_witness :
  let percentile := fun (a : list R) (_ : R) => Fin (linear_percentile a 90) in
  let fit_transform := fun X : list vec => Ok (map (fun _ => (0, 0)) X) in
  exists st A,
    diffuse Tools.EMBEDDING_SIZE Tools.ITERATION_COUNT Tools.EPSILON half_draws
      [1%Z; 2%Z] [(1%Z, [2%Z]); (5%Z, [])] = Ok st
    /\ In A (keys [(1%Z, [2%Z]); (5%Z, [])]) /\ ~ In A [1%Z; 2%Z]
    /\ Embedding_py percentile fit_transform Tools.EMBEDDING_SIZE
         Tools.ITERATION_COUNT Tools.EPSILON half_draws [1%Z; 2%Z]
         [(1%Z, [2%Z]); (5%Z, [])]
       = (export Tools.ITERATION_COUNT st, Raise (ValueError A)).
Proof.
  intros percentile fit_transform.
  apply Embedding_py_foreign_key_ValueError.
  - repeat constructor; simpl; intuition discriminate.
  - intros A B [H|[]]. injection H as <- <-. simpl. auto.
  - exists 5%Z. split; [simpl; auto|]. simpl. intuition discriminate.
  - intros X. eexists. split; [reflexivity | apply length_map].
Defined.

(** * Strings and paths *)

Lemma split_nonempty (c : Ascii.ascii) (s : String.string) : split c s <> [].
Proof.
  induction s as [|a s IH]; simpl; [discriminate|].
  destruct (Ascii.eqb a c); [discriminate|].
  destruct (split c s); [congruence | discriminate].
Qed.

Lemma split_pieces (c : Ascii.ascii) (s : String.string) :
  Forall (fun p => contains c p = false) (split c s).
Proof.
  induction s as [|a s IH]; simpl; [repeat constructor|].
  destruct (Ascii.eqb a c) eqn:E; [constructor; [reflexivity | exact IH]|].
  destruct (split c s) as [|p rest]; [repeat constructor; simpl; now rewrite E|].
  inversion IH as [|? ? Hp Hrest]; subst.
  constructor; [simpl; now rewrite E | exact Hrest].
Qed.

(** Joining the pieces of a split gives the string back. *)
Lemma join_split (c : Ascii.ascii) (s : String.string) : join c (split c s) = s.
Proof.
  induction s as [|a s IH]; simpl; [reflexivity|].
  destruct (Ascii.eqb_spec a c) as [->|Hne].
  - pose proof (split_nonempty c s) as Hne.
    destruct (split c s) as [|p rest]; [congruence|].
    change (join c (String.EmptyString :: p :: rest))
      with (String.String c (join c (p :: rest))).
    now rewrite IH.
  - pose proof (split_nonempty c s) as Hs.
    destruct (split c s) as [|p rest]; [congruence|].
    destruct rest as [|q rest]; simpl in *; now rewrite <- IH.
Qed.

Lemma split_without (c : Ascii.ascii) (s : String.string) :
  contains c s = false -> split c s = [s].
Proof.
  induction s as [|a s IH]; simpl; [reflexivity|].
  destruct (Ascii.eqb a c); simpl; [discriminate|].
  intros H. now rewrite IH.
Qed.

Lemma split_with (c : Ascii.ascii) (s : String.string) :
  contains c s = true -> exists p q rest, split c s = p :: q :: rest.
Proof.
  induction s as [|a s IH]; simpl; [discriminate|].
  destruct (Ascii.eqb a c); simpl.
  - intros _. pose proof (split_nonempty c s).
    destruct (split c s) as [|q rest]; [congruence|]. eauto.
  - intros H. destruct (IH H) as (p & q & rest & ->). eauto.
Qed.

Lemma append_assoc (a b c : String.string) :
  String.append (String.append a b) c = String.append a (String.append b c).
Proof. induction a as [|x a IH]; simpl; [reflexivity | now rewrite IH]. Qed.

Lemma join_removelast (c : Ascii.ascii) (parts : list String.string)
  (p q : String.string) :
  join c (p :: q :: parts)
  = String.append (join c (removelast (p :: q :: parts)))
      (String.String c (last (p :: q :: parts) String.EmptyString)).
Proof.
  revert p q. induction parts as [|r parts IH]; intros p q.
  - reflexivity.
  - change (join c (p :: q :: r :: parts))
      with (String.append p (String.String c (join c (q :: r :: parts)))).
    rewrite (IH q r).
    change (removelast (p :: q :: r :: parts))
      with (p :: removelast (q :: r :: parts)).
    change (last (p :: q :: r :: parts) String.EmptyString)
      with (last (q :: r :: parts) String.EmptyString).
    destruct (removelast (q :: r :: parts)) as [|x xs] eqn:E.
    + discriminate.
    + change (join c (p :: x :: xs))
        with (String.append p (String.String c (join c (x :: xs)))).
      rewrite append_assoc. reflexivity.
Qed.

Lemma last_in_split (c : Ascii.ascii) (s : String.string) :
  contains c (last (split c s) String.EmptyString) = false.
Proof.
  pose proof (split_pieces c s) as H. pose proof (split_nonempty c s) as Hne.
  rewrite Forall_forall in H. apply H.
  destruct (split c s) as [|p l]; [congruence|].
  destruct (exists_last (l := p :: l)) as (l' & a & E); [discriminate|].
  rewrite E, last_last. apply in_app_iff. right. now left.
Qed.

(** The directory that [Create_Parent_Directory] creates.  When the last
    part of the path has no dot, the whole path is taken as a directory.
    When it has a dot, the path is the directory, a slash and that part;
    for a bare file name the directory is the empty string. *)
Theorem dir_path_cases (file_path : String.string) :
  let last_part := last (split "/"%char file_path) String.EmptyString in
  contains "/"%char last_part = false
  /\ (contains "."%char last_part = false -> dir_path file_path = file_path)
  /\ (contains "."%char last_part = true ->
      (contains "/"%char file_path = true ->
       file_path = String.append (dir_path file_path)
                     (String.String "/"%char last_part))
      /\ (contains "/"%char file_path = false ->
          dir_path file_path = String.EmptyString /\ last_part = file_path)).
Proof.
  intros last_part. split; [apply last_in_split|]. split.
  - intros Hdot. unfold dir_path. fold last_part. rewrite Hdot.
    apply join_split.
  - intros Hdot. unfold dir_path. fold last_part. rewrite Hdot. split.
    + intros Hs. destruct (split_with _ _ Hs) as (p & q & rest & E).
      unfold last_part. rewrite E, <- join_removelast, <- E.
      symmetry. apply join_split.
    + intros Hs. unfold last_part. rewrite (split_without _ _ Hs). now split.
Qed.

(** ** The family name of a node *)



(** * The publication counts *)

Lemma range_In (lo hi y : Z) : In y (range lo hi) <-> (lo <= y < hi)%Z.
Proof.
  unfold range. rewrite in_map_iff. split.
  - intros [i [<- Hi]]. apply in_seq in Hi. lia.
  - intros H. exists (Z.to_nat (y - lo)). split; [lia|].
    apply in_seq. lia.
Qed.

Lemma range_NoDup (lo hi : Z) : NoDup (range lo hi).
Proof.
  unfold range. apply Finite.Injective_map_NoDup; [|apply seq_NoDup].
  intros i j H. lia.
Qed.

Lemma fold_min_bounds (l : list Z) :
  forall x, (fold_left Z.min l x <= x)%Z
            /\ Forall (fun y => (fold_left Z.min l x <= y)%Z) l.
Proof.
  induction l as [|a l IH]; intros x; simpl; [split; [lia | constructor]|].
  destruct (IH (Z.min x a)) as [H1 H2]. split; [lia|].
  constructor; [lia | exact H2].
Qed.

Lemma fold_max_bounds (l : list Z) :
  forall x, (x <= fold_left Z.max l x)%Z
            /\ Forall (fun y => (y <= fold_left Z.max l x)%Z) l.
Proof.
  induction l as [|a l IH]; intros x; simpl; [split; [lia | constructor]|].
  destruct (IH (Z.max x a)) as [H1 H2]. split; [lia|].
  constructor; [lia | exact H2].
Qed.

Lemma fold_min_in (l : list Z) : forall x, In (fold_left Z.min l x) (x :: l).
Proof.
  induction l as [|a l IH]; intros x; simpl; [now left|].
  destruct (IH (Z.min x a)) as [H|H]; [|right; now right].
  rewrite <- H. destruct (Z.min_spec x a) as [[_ ->]|[_ ->]]; auto.
Qed.

Lemma fold_max_in (l : list Z) : forall x, In (fold_left Z.max l x) (x :: l).
Proof.
  induction l as [|a l IH]; intros x; simpl; [now left|].
  destruct (IH (Z.max x a)) as [H|H]; [|right; now right].
  rewrite <- H. destruct (Z.max_spec x a) as [[_ ->]|[_ ->]]; auto.
Qed.

Lemma zero_counts_from (l : list Z) :
  forall m : dict nat,
    NoDup (keys m ++ l) ->
    (forall y c, dict_get m y = Some c -> c = 0%nat) ->
    keys (fold_left (fun m Year => dict_set m Year 0%nat) l m) = keys m ++ l
    /\ forall y c,
         dict_get (fold_left (fun m Year => dict_set m Year 0%nat) l m) y = Some c ->
         c = 0%nat.
Proof.
  induction l as [|a l IH]; intros m Hnd Hz; simpl.
  - rewrite app_nil_r. now split.
  - assert (Hni : ~ In a (keys m)).
    { intros Hin. apply NoDup_remove_2 in Hnd. apply Hnd.
      apply in_app_iff. now left. }
    destruct (IH (dict_set m a 0%nat)) as [Hk Hv].
    + rewrite keys_set_absent by exact Hni. now rewrite <- app_assoc.
    + intros y c. destruct (Z.eq_dec y a) as [->|Hne].
      * rewrite dict_get_set_eq. congruence.
      * rewrite dict_get_set_neq by exact Hne. apply Hz.
    + split; [|exact Hv].
      rewrite Hk, keys_set_absent by exact Hni. now rewrite <- app_assoc.
Qed.

Lemma zero_counts_range (lo hi : Z) :
  keys (zero_counts (range lo hi)) = range lo hi
  /\ forall y, (lo <= y < hi)%Z -> dict_get (zero_counts (range lo hi)) y = Some 0%nat.
Proof.
  destruct (zero_counts_from (range lo hi) []) as [Hk Hv].
  - apply range_NoDup.
  - intros ? ? H. discriminate.
  - split; [exact Hk|]. intros y Hy.
    assert (Hin : In y (keys (zero_counts (range lo hi)))).
    { unfold zero_counts. rewrite Hk. now apply range_In. }
    apply dict_get_in_some in Hin as [c Hc].
    now rewrite (Hv _ _ Hc) in Hc.
Qed.

Lemma total_set (m : dict nat) (k : Z) (c v : nat) :
  dict_get m k = Some c ->
  (total (dict_set m k v) + c = total m + v)%nat.
Proof.
  unfold total. induction m as [|[k' c'] m IH]; simpl; [discriminate|].
  destruct (Z.eqb k k'); simpl.
  - intros H. injection H as ->. lia.
  - intros H. specialize (IH H). lia.
Qed.

Lemma total_zero (m : dict nat) :
  (forall kv, In kv m -> snd kv = 0%nat) -> total m = 0%nat.
Proof.
  unfold total. induction m as [|kv m IH]; intros H; simpl; [reflexivity|].
  rewrite (H kv) by now left. apply IH. intros; apply H; now right.
Qed.

Lemma published_cons (persian : bool) (y : Z) (yl : Z * String.string)
  (rest : list (Z * String.string)) :
  published persian y (yl :: rest)
  = ((if Z.eqb (fst yl) y && Bool.eqb (String.eqb (snd yl) "persian") persian
      then 1 else 0) + published persian y rest)%nat.
Proof.
  unfold published. simpl.
  destruct (Z.eqb (fst yl) y && Bool.eqb (String.eqb (snd yl) "persian") persian);
    reflexivity.
Qed.

(** The counting loop from dicts that have every year of the list as a
    key. *)
Lemma count_publications_spec (Year_Languages : list (Z * String.string)) :
  forall counts,
    (forall yl, In yl Year_Languages ->
       In (fst yl) (keys (Persian counts)) /\ In (fst yl) (keys (Foreign counts))) ->
    exists counts',
      count_publications counts Year_Languages = Ok counts'
      /\ keys (Persian counts') = keys (Persian counts)
      /\ keys (Foreign counts') = keys (Foreign counts)
      /\ (forall y c, dict_get (Persian counts) y = Some c ->
            dict_get (Persian counts') y
            = Some (c + published true y Year_Languages)%nat)
      /\ (forall y c, dict_get (Foreign counts) y = Some c ->
            dict_get (Foreign counts') y
            = Some (c + published false y Year_Languages)%nat)
      /\ (total (Persian counts') + total (Foreign counts')
          = total (Persian counts) + total (Foreign counts)
            + length Year_Languages)%nat.
Proof.
  induction Year_Languages as [|[Year lang] rest IH]; intros counts Hk.
  - exists counts. simpl. repeat split; try reflexivity.
    + intros y c H. rewrite H. f_equal. unfold published. simpl. lia.
    + intros y c H. rewrite H. f_equal. unfold published. simpl. lia.
    + lia.
  - destruct (Hk (Year, lang) (or_introl eq_refl)) as [HP HF]. simpl in HP, HF.
    apply dict_get_in_some in HP as [cP HcP].
    apply dict_get_in_some in HF as [cF HcF].
    simpl. unfold count_publication, increment, lookup. simpl.
    destruct (String.eqb lang "persian") eqn:El.
    + rewrite HcP. simpl.
      destruct (IH (mkCount (dict_set (Persian counts) Year (cP + 1)%nat)
                      (Foreign counts))) as (c' & Hc' & KP & KF & GP & GF & Ht).
      { intros yl Hyl. simpl. destruct (Hk yl (or_intror Hyl)) as [H1 H2].
        split; [|exact H2]. apply in_keys_set. now right. }
      simpl in *. exists c'. split; [exact Hc'|].
      split; [rewrite KP; apply keys_set_present; eapply dict_get_some_in; eauto|].
      split; [exact KF|]. split; [|split].
      * intros y c Hy. rewrite published_cons. simpl. rewrite El. simpl.
        destruct (Z.eqb_spec Year y) as [->|Hne]; simpl.
        -- rewrite (GP y (cP + 1)%nat) by apply dict_get_set_eq.
           rewrite HcP in Hy. injection Hy as <-. f_equal. lia.
        -- rewrite (GP y c); [reflexivity|].
           rewrite dict_get_set_neq by congruence. exact Hy.
      * intros y c Hy. rewrite published_cons. simpl. rewrite El. simpl.
        rewrite andb_false_r. simpl. now apply GF.
      * pose proof (total_set (Persian counts) Year cP (cP + 1)%nat HcP). lia.
    + rewrite HcF. simpl.
      destruct (IH (mkCount (Persian counts)
                      (dict_set (Foreign counts) Year (cF + 1)%nat)))
        as (c' & Hc' & KP & KF & GP & GF & Ht).
      { intros yl Hyl. simpl. destruct (Hk yl (or_intror Hyl)) as [H1 H2].
        split; [exact H1|]. apply in_keys_set. now right. }
      simpl in *. exists c'. split; [exact Hc'|]. split; [exact KP|].
      split; [rewrite KF; apply keys_set_present; eapply dict_get_some_in; eauto|].
      split; [|split].
      * intros y c Hy. rewrite published_cons. simpl. rewrite El. simpl.
        rewrite andb_false_r. simpl. now apply GP.
      * intros y c Hy. rewrite published_cons. simpl. rewrite El. simpl.
        destruct (Z.eqb_spec Year y) as [->|Hne]; simpl.
        -- rewrite (GF y (cF + 1)%nat) by apply dict_get_set_eq.
           rewrite HcF in Hy. injection Hy as <-. f_equal. lia.
        -- rewrite (GF y c); [reflexivity|].
           rewrite dict_get_set_neq by congruence. exact Hy.
      * pose proof (total_set (Foreign counts) Year cF (cF + 1)%nat HcF). lia.
Qed.

(** The counts of a teacher with at least one publication.  The loop never
    raises: both dicts have one key per year from the earliest to the latest
    publication year, in ascending order, years without publications
    included with count 0; each count is the number of publications of that
    year and language group; all counts together are the number of
    publications. *)
Theorem Year_Language_Grouped_Count_spec
  (Year_Languages : list (Z * String.string)) :
  Year_Languages <> [] ->
  exists counts Min_Year Max_Year,
    Year_Language_Grouped_Count Year_Languages = Ok counts
    /\ In Min_Year (map fst Year_Languages)
    /\ In Max_Year (map fst Year_Languages)
    /\ (forall y, In y (map fst Year_Languages) -> (Min_Year <= y <= Max_Year)%Z)
    /\ keys (Persian counts) = range Min_Year (Max_Year + 1)
    /\ keys (Foreign counts) = range Min_Year (Max_Year + 1)
    /\ (forall y, (Min_Year <= y <= Max_Year)%Z ->
          dict_get (Persian counts) y = Some (published true y Year_Languages)
          /\ dict_get (Foreign counts) y = Some (published false y Year_Languages))
    /\ (total (Persian counts) + total (Foreign counts)
        = length Year_Languages)%nat.
Proof.
  intros Hne. unfold Year_Language_Grouped_Count.
  destruct (map fst Year_Languages) as [|y0 ys] eqn:Ey.
  { destruct Year_Languages; [congruence | discriminate]. }
  set (Min_Year := fold_left Z.min ys y0). set (Max_Year := fold_left Z.max ys y0).
  destruct (fold_min_bounds ys y0) as [Hm0 Hm]. fold Min_Year in Hm0, Hm.
  destruct (fold_max_bounds ys y0) as [HM0 HM]. fold Max_Year in HM0, HM.
  assert (Hb : forall y, In y (y0 :: ys) -> (Min_Year <= y <= Max_Year)%Z).
  { rewrite Forall_forall in Hm, HM. intros y [<-|Hy]; [lia|].
    split; [now apply Hm | now apply HM]. }
  destruct (zero_counts_range Min_Year (Max_Year + 1)) as [Hk Hz].
  destruct (count_publications_spec Year_Languages
              (mkCount (zero_counts (range Min_Year (Max_Year + 1)))
                 (zero_counts (range Min_Year (Max_Year + 1)))))
    as (counts & Hc & KP & KF & GP & GF & Ht).
  { intros yl Hyl. simpl. rewrite Hk, range_In.
    assert (Hin : In (fst yl) (y0 :: ys)) by (rewrite <- Ey; now apply in_map).
    apply Hb in Hin. lia. }
  simpl in *. exists counts, Min_Year, Max_Year.
  split; [exact Hc|]. split; [apply fold_min_in|]. split; [apply fold_max_in|].
  split; [exact Hb|]. split; [congruence|]. split; [congruence|]. split.
  - intros y Hy. split.
    + rewrite (GP y 0%nat); [reflexivity | apply Hz; lia].
    + rewrite (GF y 0%nat); [reflexivity | apply Hz; lia].
  - assert (H0 : total (zero_counts (range Min_Year (Max_Year + 1))) = 0%nat).
    { destruct (zero_counts_from (range Min_Year (Max_Year + 1)) []) as [_ Hv].
      - apply range_NoDup.
      - intros ? ? H. discriminate.
      - fold (zero_counts (range Min_Year (Max_Year + 1))) in Hv.
        assert (Hall : forall kv, In kv (zero_counts (range Min_Year (Max_Year + 1)))
                                  -> snd kv = 0%nat).
        { intros [k v] Hin. simpl. apply (Hv k v). apply In_dict_get; [|exact Hin].
          rewrite Hk. apply range_NoDup. }
        now apply total_zero. }
    rewrite H0 in Ht. lia.
Qed.

Lemma Year_Language_Grouped_Count_witness :
  exists counts Min_Year Max_Year,
    Year_Language_Grouped_Count
      [(2020%Z, "persian"%string); (2018%Z, "english"%string)] = Ok counts
    /\ In Min_Year (map fst [(2020%Z, "persian"%string); (2018%Z, "english"%string)])
    /\ In Max_Year (map fst [(2020%Z, "persian"%string); (2018%Z, "english"%string)])
    /\ (forall y,
          In y (map fst [(2020%Z, "persian"%string); (2018%Z, "english"%string)]) ->
          (Min_Year <= y <= Max_Year)%Z)
    /\ keys (Persian counts) = range Min_Year (Max_Year + 1)
    /\ keys (Foreign counts) = range Min_Year (Max_Year + 1)
    /\ (forall y, (Min_Year <= y <= Max_Year)%Z ->
          dict_get (Persian counts) y
          = Some (published true y
                    [(2020%Z, "persian"%string); (2018%Z, "english"%string)])
          /\ dict_get (Foreign counts) y
             = Some (published false y
                       [(2020%Z, "persian"%string); (2018%Z, "english"%string)]))
    /\ (total (Persian counts) + total (Foreign counts)
        = length [(2020%Z, "persian"%string); (2018%Z, "english"%string)])%nat.
Proof.
  apply Year_Language_Grouped_Count_spec. discriminate.
Defined.

Example Year_Language_Grouped_Count_example :
  Year_Language_Grouped_Count
    [(2020%Z, "persian"%string); (2018%Z, "english"%string)]
  = Ok (mkCount [(2018%Z, 0%nat); (2019%Z, 0%nat); (2020%Z, 1%nat)]
          [(2018%Z, 1%nat); (2019%Z, 0%nat); (2020%Z, 0%nat)]).
Proof. reflexivity. Qed.

Example dir_path_examples :
  dir_path "Outputs/Teachers/12.json"%string = "Outputs/Teachers"%string
  /\ dir_path "Outputs/Teachers"%string = "Outputs/Teachers"%string
  /\ dir_path "file.json"%string = String.EmptyString.
Proof. repeat split. Qed.

(** * The paginated crawl *)

Lemma range_cons (lo hi : Z) :
  (lo < hi)%Z -> range lo hi = lo :: range (lo + 1) hi.
Proof.
  intros H. unfold range.
  replace (Z.to_nat (hi - lo)) with (S (Z.to_nat (hi - (lo + 1)))) by lia.
  simpl. f_equal; [lia|].
  rewrite <- seq_shift, map_map. apply map_ext. intros i. lia.
Qed.

Lemma range_empty (lo hi : Z) : (hi <= lo)%Z -> range lo hi = [].
Proof.
  intros H. unfold range. replace (Z.to_nat (hi - lo)) with 0%nat by lia.
  reflexivity.
Qed.

Section CrawlFacts.

Variable teacher : Type.
Variable Get_Page_Teachers : Z -> attempt (Z * list teacher).
Variable float_ceil : Z -> Z -> attempt Z.
Variable answers : Z -> Z * list teacher.

(** Once the page count [M] is known, the loop requests the pages up to
    [M] and stops. *)
Lemma Get_Teachers_loop_known (M : Z) (k : nat) :
  forall fuel page teachers,
    k = Z.to_nat (M + 1 - page) ->
    (k < fuel)%nat ->
    (forall p, (page <= p <= M)%Z -> Get_Page_Teachers p = Done (answers p)) ->
    Get_Teachers_loop Get_Page_Teachers float_ceil fuel teachers page (Some M)
    = Some (Done (teachers
                  ++ flat_map (fun p => snd (answers p)) (range page (M + 1)))).
Proof.
  induction k as [|k IH]; intros fuel page teachers Hk Hfuel Hserver.
  - destruct fuel as [|fuel]; [lia|]. simpl.
    destruct (Z.leb_spec page M) as [H|H]; [lia|].
    rewrite range_empty by lia. simpl. now rewrite app_nil_r.
  - destruct fuel as [|fuel]; [lia|]. simpl.
    destruct (Z.leb_spec page M) as [H|H]; [|lia].
    rewrite (Hserver page) by lia.
    destruct (answers page) as [total page_teachers] eqn:Ea. simpl.
    rewrite (IH fuel (page + 1)%Z); try lia.
    + rewrite (range_cons page (M + 1)) by lia. simpl.
      rewrite Ea. simpl. now rewrite app_assoc.
    + intros p Hp. apply Hserver. lia.
Qed.

End CrawlFacts.

(** [Get_Teachers] on a portal that answers, for a [total] that float64
    holds exactly (below 2^53 in absolute value).  The first page is always
    requested; its [total] over its number of teachers, rounded up, is the
    number [M] of pages; the loop then requests the pages 2 to [M], ignores
    their [total], and returns the teachers of all requested pages in
    order.  Any fuel above the number of requested pages gives the
    result. *)
Theorem Get_Teachers_pages
  (teacher : Type) (Get_Page_Teachers : Z -> attempt (Z * list teacher))
  (float_ceil : Z -> Z -> attempt Z)
  (answers : Z -> Z * list teacher) (fuel : nat) :
  let total := fst (answers 1%Z) in
  let per_page := Z.of_nat (length (snd (answers 1%Z))) in
  let M := Z.max 1 (ceil_div total per_page) in
  (Z.abs total < 2 ^ 53)%Z ->
  snd (answers 1%Z) <> [] ->
  (forall p, (1 <= p <= M)%Z -> Get_Page_Teachers p = Done (answers p)) ->
  (Z.to_nat M < fuel)%nat ->
  Get_Teachers Get_Page_Teachers float_ceil fuel
  = Some (Done (flat_map (fun p => snd (answers p)) (range 1 (M + 1)))).
Proof.
  intros total per_page M Hexact Hne Hserver Hfuel.
  unfold Get_Teachers. destruct fuel as [|fuel]; [lia|]. simpl.
  rewrite (Hserver 1%Z) by lia.
  destruct (answers 1%Z) as [t p1] eqn:E1. simpl in *.
  destruct (Z.eqb_spec (Z.of_nat (length p1)) 0) as [H0|_].
  { destruct p1; [congruence | simpl in H0; lia]. }
  unfold ceil_quotient, exact_float.
  destruct (Z.ltb_spec (Z.abs t) (2 ^ 53)) as [_|Hbig];
    [|unfold total in Hexact; lia].
  rewrite (range_cons 1 (M + 1)) by lia. simpl. rewrite E1. simpl.
  destruct (Z.le_gt_cases (ceil_div t (Z.of_nat (length p1))) 1) as [Hle|Hgt].
  - (* one page only *)
    assert (HM : M = 1%Z) by (unfold M, total, per_page; lia).
    rewrite HM. rewrite range_empty by lia. simpl.
    destruct fuel as [|fuel]; [lia|]. simpl.
    destruct (Z.leb_spec 2 (ceil_div t (Z.of_nat (length p1)))) as [H|H]; [lia|].
    now rewrite app_nil_r.
  - assert (HM : M = ceil_div t (Z.of_nat (length p1)))
      by (unfold M, total, per_page; lia).
    rewrite <- HM.
    apply (Get_Teachers_loop_known teacher Get_Page_Teachers float_ceil answers M
             (Z.to_nat (M + 1 - 2))); try lia.
    intros p Hp. apply Hserver. lia.
Qed.

Lemma Get_Teachers_pages_witness :
  let answers := fun p : Z => (5%Z, if (p <=? 2)%Z then [p; p] else [p]) in
  Get_Teachers (fun p => Done (answers p)) (fun _ _ => Failed OverflowError) 4
  = Some (Done (flat_map (fun p => snd (answers p))
                  (range 1 (Z.max 1 (ceil_div 5 2) + 1)))).
Proof.
  intros answers.
  apply (Get_Teachers_pages Z (fun p => Done (answers p))
           (fun _ _ => Failed OverflowError) answers 4).
  - reflexivity.
  - discriminate.
  - reflexivity.
  - vm_compute. lia.
Defined.

(** An empty first page makes [Get_Teachers] raise [ZeroDivisionError]:
    the page count divides by the number of teachers on that page. *)
Theorem Get_Teachers_empty_first_page
  (teacher : Type) (Get_Page_Teachers : Z -> attempt (Z * list teacher))
  (float_ceil : Z -> Z -> attempt Z) (total : Z) (fuel : nat) :
  Get_Page_Teachers 1%Z = Done (total, []) ->
  Get_Teachers Get_Page_Teachers float_ceil (S fuel)
  = Some (Failed ZeroDivisionError).
Proof. intros H. unfold Get_Teachers. simpl. now rewrite H. Qed.

Lemma Get_Teachers_empty_first_page_witness :
  Get_Teachers (fun _ : Z => @Done (Z * list Z) (0%Z, []))
    (fun _ _ => Failed OverflowError) 1
  = Some (Failed ZeroDivisionError).
Proof.
  apply (Get_Teachers_empty_first_page Z (fun _ => Done (0%Z, []))
           (fun _ _ => Failed OverflowError) 0 0).
  reflexivity.
Defined.

Example Get_Teachers_three_pages :
  Get_Teachers (fun p : Z => Done (5%Z, if (p <=? 2)%Z then [p; p] else [p]))
    (fun _ _ => Failed OverflowError) 4
  = Some (Done [1; 1; 2; 2; 3]%Z).
Proof. reflexivity. Qed.


(** * One contribution per neighbour *)

Lemma partners_cons (A B : Z) (ps : list (Z * Z)) (k : Z) :
  partners ((A, B) :: ps) k
  = (if Z.eqb k A then [B] else []) ++ (if Z.eqb k B then [A] else [])
      ++ partners ps k.
Proof. unfold partners. simpl. now rewrite <- app_assoc. Qed.

Lemma partners_in (ps : list (Z * Z)) (k B : Z) :
  In B (partners ps k) <-> In (k, B) ps \/ In (B, k) ps.
Proof.
  split; [apply partners_endpoint|].
  induction ps as [|[X Y] ps IH]; [intros [[]|[]]|].
  rewrite partners_cons, !in_app_iff. simpl.
  intros [[H|H]|[H|H]].
  - injection H as -> ->. left. rewrite Z.eqb_refl. now left.
  - right. right. apply IH. now left.
  - injection H as -> ->. right. left. rewrite Z.eqb_refl. now left.
  - right. right. apply IH. now right.
Qed.

Lemma partners_count (ps : list (Z * Z)) (k B : Z) :
  NoDup ps ->
  (forall X Y, In (X, Y) ps -> (X <= Y)%Z) ->
  B <> k ->
  (count_occ Z.eq_dec (partners ps k) B <= 1)%nat.
Proof.
  intros Hnd Hord HB. induction ps as [|[X Y] ps IH]; [simpl; lia|].
  inversion Hnd as [|? ? Hni Hnd']; subst.
  assert (IH' : (count_occ Z.eq_dec (partners ps k) B <= 1)%nat).
  { apply IH; [exact Hnd'|]. intros; apply Hord; now right. }
  rewrite partners_cons, !count_occ_app.
  destruct (Z.eqb_spec k X) as [E1|E1]; destruct (Z.eqb_spec k Y) as [E2|E2];
    simpl.
  - (* a self-loop at [k] contributes [k] itself, not [B] *)
    subst X Y. destruct (Z.eq_dec k B); [congruence|]. simpl. lia.
  - subst X. destruct (Z.eq_dec Y B) as [->|_]; simpl; [|lia].
    destruct (Nat.eq_dec (count_occ Z.eq_dec (partners ps k) B) 0) as [->|Hpos];
      [lia|].
    exfalso.
    assert (Hp : (0 < count_occ Z.eq_dec (partners ps k) B)%nat) by lia.
    apply (count_occ_In Z.eq_dec) in Hp. apply partners_in in Hp as [Hp|Hp].
    + contradiction.
    + assert (B <= k)%Z by (apply Hord; now right).
      assert (k <= B)%Z by (apply Hord; now left). lia.
  - subst Y. destruct (Z.eq_dec X B) as [->|_]; simpl; [|lia].
    destruct (Nat.eq_dec (count_occ Z.eq_dec (partners ps k) B) 0) as [->|Hpos];
      [lia|].
    exfalso.
    assert (Hp : (0 < count_occ Z.eq_dec (partners ps k) B)%nat) by lia.
    apply (count_occ_In Z.eq_dec) in Hp. apply partners_in in Hp as [Hp|Hp].
    + assert (k <= B)%Z by (apply Hord; now right).
      assert (B <= k)%Z by (apply Hord; now left). lia.
    + contradiction.
  - exact IH'.
Qed.

(** The aggregated edge dict makes the accumulation pass count every
    neighbour once: the list of nodes whose vectors a pass adds to the
    buffer of [k] contains a neighbour [B] other than [k] at most once, and
    it contains [B] exactly when the edge between [k] and [B] is stored. *)
Theorem aggregated_neighbour_counted_once
  (networks : list Network_Data) (k B : Z) :
  B <> k ->
  (count_occ Z.eq_dec (partners (edge_pairs (Aggregated_Edges networks)) k) B
   <= 1)%nat
  /\ (In B (partners (edge_pairs (Aggregated_Edges networks)) k)
      <-> In (Z.min k B, Z.max k B) (edge_pairs (Aggregated_Edges networks))).
Proof.
  intros HB.
  pose proof (Aggregated_Edges_smaller_first networks) as Hord.
  rewrite Forall_forall in Hord.
  destruct (Aggregated_Edges_no_duplicates networks) as [_ Hnd].
  split.
  - apply partners_count; [exact Hnd | | exact HB].
    intros X Y H. apply (Hord (X, Y) H).
  - rewrite partners_in. split.
    + intros [H|H]; pose proof (Hord _ H) as Hle; simpl in Hle.
      * now rewrite Z.min_l, Z.max_r by lia.
      * now rewrite Z.min_r, Z.max_l by lia.
    + intros H. destruct (Z.le_gt_cases k B) as [Hle|Hgt].
      * left. now rewrite Z.min_l, Z.max_r in H by lia.
      * right. now rewrite Z.min_r, Z.max_l in H by lia.
Qed.

Lemma aggregated_neighbour_counted_once_witness :
  let networks := [mkNetwork [] [mkEdge 7 4; mkEdge 4 7]] in
  (count_occ Z.eq_dec (partners (edge_pairs (Aggregated_Edges networks)) 7%Z) 4%Z
   <= 1)%nat
  /\ (In 4%Z (partners (edge_pairs (Aggregated_Edges networks)) 7)
      <-> In (Z.min 7 4, Z.max 7 4) (edge_pairs (Aggregated_Edges networks))).
Proof.
  intros networks. apply aggregated_neighbour_counted_once. discriminate.
Defined.
